(** * projectron: a shallow embedding of the projection resolver and kernels

    The Go package [projectron] turns a PROJ.4-style definition string
    ([+proj=merc +ellps=WGS84 ...]) into a projection handle and converts
    coordinates through it.  This file embeds the package in Rocq:

    - [float64] is Rocq's primitive binary64 type, so every arithmetic
      operation, comparison and constant below is the IEEE 754 one the Go
      program executes, each operation rounded on its own (no fused
      multiply-add);
    - Go strings are [string]s (byte sequences), [paramset] is a finite map
      from strings to strings;
    - a Go function that mutates its receiver or the shared parameter map
      returns the new receiver and the new map;
    - a run-time panic is an explicit outcome ([Panic]);
    - the transcendental functions of Go's [math] package ([Sin], [Cos],
      [Tan], [Atan], [Exp], [Log], [Pow]) are not part of the repository and
      are taken as a parameter ([MathLib]);
    - [strconv.ParseFloat] is modelled on decimal literals with correct
      rounding.

    The rounding of the float64 operations is analysed against the
    specification of binary64 in [SpecFloat], with the real value of a
    finite number ([F2R]), for the statements about the longitude
    normalisation. *)

From Stdlib Require Import ZArith String Ascii List Floats Reals Lra Lia Bool.
From stdpp Require Import gmap strings.

Local Open Scope string_scope.
Local Open Scope Z_scope.

(** Decimal float64 literals are written as in the Go source; each denotes
    the nearest binary64 value. *)
Set Warnings "-inexact-float".

(** ** Go strings *)

Module GoStrings.

(** [strings.Split(s, sep)] for a one-byte separator. *)
Fixpoint Split (s : string) (sep : ascii) : list string :=
  match s with
  | EmptyString => [EmptyString]
  | String c s' =>
      if Ascii.eqb c sep then EmptyString :: Split s' sep
      else match Split s' sep with
           | [] => [String c EmptyString]
           | w :: ws => String c w :: ws
           end
  end.

(** The one-byte white space of [unicode.IsSpace]: tab, line feed,
    vertical tab, form feed, carriage return and space. *)
Definition isSpace (c : ascii) : bool :=
  let n := Z.of_nat (nat_of_ascii c) in
  ((9 <=? n) && (n <=? 13)) || (n =? 32).

Fixpoint TrimLeft (s : string) : string :=
  match s with
  | String c s' => if isSpace c then TrimLeft s' else s
  | EmptyString => EmptyString
  end.

Fixpoint TrimRight (s : string) : string :=
  match s with
  | EmptyString => EmptyString
  | String c s' =>
      match TrimRight s' with
      | EmptyString => if isSpace c then EmptyString else String c EmptyString
      | t => String c t
      end
  end.

(** [strings.TrimSpace]. *)
Definition TrimSpace (s : string) : string := TrimRight (TrimLeft s).

(** [strings.Index(s, sep)] for a one-byte [sep]; [None] is Go's [-1]. *)
Fixpoint Index (s : string) (sep : ascii) : option nat :=
  match s with
  | EmptyString => None
  | String c s' =>
      if Ascii.eqb c sep then Some O
      else match Index s' sep with
           | Some i => Some (S i)
           | None => None
           end
  end.

(** The slices [s[0:n]] and [s[n:]]. *)
Fixpoint take (n : nat) (s : string) : string :=
  match n, s with
  | S n', String c s' => String c (take n' s')
  | _, _ => EmptyString
  end.

Fixpoint drop (n : nat) (s : string) : string :=
  match n, s with
  | S n', String _ s' => drop n' s'
  | _, _ => s
  end.

(** [strings.HasSuffix(s, suffix)] for a one-byte suffix. *)
Fixpoint HasSuffix (s : string) (c : ascii) : bool :=
  match s with
  | EmptyString => false
  | String a EmptyString => Ascii.eqb a c
  | String _ s' => HasSuffix s' c
  end.

Definition lower (c : ascii) : ascii :=
  let n := nat_of_ascii c in
  if ((65 <=? Z.of_nat n) && (Z.of_nat n <=? 90)) then ascii_of_nat (n + 32) else c.

Fixpoint ToLower (s : string) : string :=
  match s with
  | EmptyString => EmptyString
  | String c s' => String (lower c) (ToLower s')
  end.

End GoStrings.

(** ** float64 *)

Module Float64.

Abbreviation float64 := float.

(** [math.Inf(1)], [math.Inf(-1)]. *)
Definition Inf (sign : Z) : float64 :=
  if 0 <=? sign then infinity else neg_infinity.

Definition Abs (x : float64) : float64 := PrimFloat.abs x.
Definition Sqrt (x : float64) : float64 := PrimFloat.sqrt x.

(** [math.Signbit]: negative numbers and negative zero. *)
Definition Signbit (x : float64) : bool := get_sign x.

(** [math.Copysign(x, y)]: the magnitude of [x] with the sign of [y]. *)
Definition Copysign (x y : float64) : float64 :=
  if Signbit y then PrimFloat.opp (PrimFloat.abs x) else PrimFloat.abs x.

(** The binary64 value nearest to the integer [z] times [2^e]. *)
Definition of_Z_scaled (z e : Z) (negzero : bool) : float64 :=
  SF2Prim (binary_normalize prec emax z e negzero).

(** [math.Floor]: the greatest integer value not above [x]; zeros,
    infinities and NaN are returned unchanged. *)
Definition Floor (x : float64) : float64 :=
  match Prim2SF x with
  | S754_finite s m e =>
      if 0 <=? e then x
      else of_Z_scaled (Z.shiftr (if s then Z.neg m else Z.pos m) (- e)) 0 s
  | _ => x
  end.

(** *** [strconv.ParseFloat(s, 64)] on decimal literals

    The accepted grammar is [[+-]digits[.digits][(e|E)[+-]digits]] with at
    least one mantissa digit, and the special values [inf], [infinity]
    (signed or not) and [nan], in any letter case.  The result is the
    binary64 value nearest to the decimal, ties to even.  The pair is Go's
    [(f, err == nil)]: a syntax error is [(0, false)], a decimal beyond the
    largest finite value is [(±Inf, false)]. *)

Definition digit_of (c : ascii) : option Z :=
  let n := Z.of_nat (nat_of_ascii c) in
  if (48 <=? n) && (n <=? 57) then Some (n - 48) else None.

(** Reads a run of digits: the number read so far, how many digits were
    read, and the rest of the string. *)
Fixpoint read_digits (s : string) (acc cnt : Z) : Z * Z * string :=
  match s with
  | String c s' =>
      match digit_of c with
      | Some d => read_digits s' (10 * acc + d) (cnt + 1)
      | None => (acc, cnt, s)
      end
  | EmptyString => (acc, cnt, s)
  end.

Definition read_sign (s : string) : bool * string :=
  match s with
  | String "-" s' => (true, s')
  | String "+" s' => (false, s')
  | _ => (false, s)
  end.

(** The decimal [±m·10^e], rounded once. *)
Definition of_decimal (neg : bool) (m e : Z) : float64 :=
  if m =? 0 then (if neg then neg_zero else zero)
  else if 400 <? e then (if neg then neg_infinity else infinity)
  else if e + Z.log2 m <? -1200 then (if neg then neg_zero else zero)
  else
    let sgn (z : Z) := if neg then - z else z in
    if 0 <=? e then of_Z_scaled (sgn (m * 10 ^ e)) 0 neg
    else
      let d := 10 ^ (- e) in
      let s := Z.max 0 (66 + Z.log2 d - Z.log2 m) in
      let (q, r) := Z.div_eucl (m * 2 ^ s) d in
      let sticky := if r =? 0 then 0 else 1 in
      of_Z_scaled (sgn (2 * q + sticky)) (- (s + 1)) neg.

Definition ParseFloat (s : string) : float64 * bool :=
  let '(neg, body) := read_sign s in
  let low := GoStrings.ToLower body in
  if (String.eqb low "inf" || String.eqb low "infinity")%bool
  then (if neg then neg_infinity else infinity, true)
  else if String.eqb (GoStrings.ToLower s) "nan" then (nan, true)
  else
    let '(ip, ni, r1) := read_digits body 0 0 in
    let '(m, nf, r2) :=
      match r1 with
      | String "." r => let '(m, nf, r') := read_digits r ip 0 in (m, nf, r')
      | _ => (ip, 0, r1)
      end in
    if ni + nf =? 0 then (zero, false)
    else
      let finish (e : Z) : float64 * bool :=
        let f := of_decimal neg m (e - nf) in
        if is_infinity f then (f, false) else (f, true) in
      match r2 with
      | EmptyString => finish 0
      | String c r3 =>
          if (Ascii.eqb c "e" || Ascii.eqb c "E")%bool then
            let '(eneg, r4) := read_sign r3 in
            let '(ev, ne, r5) := read_digits r4 0 0 in
            if ne =? 0 then (zero, false)
            else match r5 with
                 | EmptyString => finish (if eneg then - ev else ev)
                 | _ => (zero, false)
                 end
          else (zero, false)
      end.

(** [strconv.ParseBool]: the pair is [(b, err == nil)]. *)
Definition ParseBool (s : string) : bool * bool :=
  if existsb (String.eqb s) ["1"; "t"; "T"; "TRUE"; "true"; "True"] then (true, true)
  else if existsb (String.eqb s) ["0"; "f"; "F"; "FALSE"; "false"; "False"] then (false, true)
  else (false, false).

End Float64.

Import Float64.

(** ** Outcomes of a Go call: a normal return or a run-time panic *)

Inductive result (A : Type) : Type :=
| Ret (a : A)
| Panic (msg : string).
Arguments Ret {A} a.
Arguments Panic {A} msg.

#[global] Instance result_ret : MRet result := @Ret.
#[global] Instance result_bind : MBind result :=
  fun A B k r => match r with Ret a => k a | Panic msg => Panic msg end.

(** ** Errors ([projection.go], [errors.New]) *)

Inductive error : Type :=
| ErrUnsupportedProj
| ErrUnknownDatum
| ErrInvalidParam
| errors_New (msg : string).

(** ** The functions of Go's [math] package the kernels call *)

Record MathLib : Type := {
  Sin : float64 -> float64;
  Cos : float64 -> float64;
  Tan : float64 -> float64;
  Atan : float64 -> float64;
  Exp : float64 -> float64;
  Log : float64 -> float64;
  Pow : float64 -> float64 -> float64
}.

(** ** Constants ([math.go], [projection.go]) *)

Module Const.
Local Open Scope float_scope.

(** [math.Pi], an untyped constant, converted to float64. *)
Definition Pi : float64 :=
  3.14159265358979323846264338327950288419716939937510582097494459.
Definition s_pi : float64 := 3.14159265359.
Definition two_pi : float64 := Pi * 2.
Definition half_pi : float64 := Pi / 2.
Definition fort_pi : float64 := Pi / 4.
Definition d2r : float64 := Pi / 180.

(** The five constants below are quotients of untyped integer constants:
    Go evaluates [1 / 6], [17 / 360], ... as integer divisions. *)
Definition sixth : float64 := 0.
Definition ra4 : float64 := 0.
Definition ra6 : float64 := 0.
Definition rv4 : float64 := 0.
Definition rv6 : float64 := 0.
Definition sec2rad : float64 := 4.84813681109535993589914102357e-6.
Definition epsln : float64 := 1.0e-10.

Definition hugeVal : float64 := Inf 1.
End Const.
Import Const.

(** The Go type [datumType] ([int]).  The constant block gives the first
    constant the value [0] and has no [iota], so each following constant
    repeats [datumType = 0]. *)
Abbreviation datumTypeT := Z.
Definition PJD_UNKNOWN : datumTypeT := 0.
Definition PJD_GRIDSHIFT : datumTypeT := 0.
Definition PJD_7PARAM : datumTypeT := 0.
Definition PJD_3PARAM : datumTypeT := 0.
Definition PJD_WGS84 : datumTypeT := 0.

(** ** Numeric helpers ([math.go]) *)

Section Helpers.
Context (libm : MathLib).
Local Open Scope float_scope.

Definition msfn (sinphi cosphi es : float64) : float64 :=
  cosphi / Sqrt (1 - es * sinphi * sinphi).

Definition tsfn (phi sinphi e : float64) : float64 :=
  Tan libm (0.5 * (half_pi - phi)) / Pow libm ((1 - sinphi) / (1 + sinphi)) (0.5 * e).

(** The body of the loop [for i := 0; i <= 15; i++] of [phi2]; [fuel] is
    the number of iterations left. *)
Fixpoint phi2_loop (fuel : nat) (e ts eth phi : float64) : float64 * option error :=
  match fuel with
  | O => (Inf (-1), Some (errors_New "phi2 has no convergence"))
  | S fuel' =>
      let con := e * Sin libm phi in
      let dphi := half_pi - 2 * Atan libm (ts * Pow libm ((1 - con) / (1 + con)) eth) - phi in
      let phi := phi + dphi in
      if Abs dphi <? epsln then (phi, None)
      else phi2_loop fuel' e ts eth phi
  end.

Definition phi2 (e ts : float64) : float64 * option error :=
  let eth := e * 0.5 in
  let phi := half_pi - 2 * Atan libm ts in
  phi2_loop 16 e ts eth phi.

End Helpers.

Section AdjLng.
Local Open Scope float_scope.

Definition adjLng (x : float64) : float64 :=
  if Abs x <=? s_pi then x
  else
    let x := x + Pi in
    let x := x - two_pi * Floor (x / two_pi) in
    let x := x - Pi in
    x.

Definition sign (x : float64) : float64 :=
  if Signbit x then -1 else 1.

End AdjLng.

(** ** The Parameter Set ([projection.go]) *)

Abbreviation paramset := (gmap string string).

Definition dquote : string := String "034" EmptyString.

Section Paramset.
Local Open Scope float_scope.

Definition parseDegreeString (ds : string) : float64 :=
  let res : float64 := 0 in
  let '(res, ds) :=
    match GoStrings.Index ds "d" with
    | Some idx =>
        let f := fst (ParseFloat (GoStrings.take idx ds)) in
        (res + f, GoStrings.drop (S idx) ds)
    | None => (fst (ParseFloat ds), ds)
    end in
  let '(res, ds) :=
    match GoStrings.Index ds "'" with
    | Some idx =>
        let f := fst (ParseFloat (GoStrings.take idx ds)) in
        (res + f / 60, GoStrings.drop (S idx) ds)
    | None => (res, ds)
    end in
  let '(res, ds) :=
    match GoStrings.Index ds "034" with
    | Some idx =>
        let f := fst (ParseFloat (GoStrings.take idx ds)) in
        (res + f / 360, GoStrings.drop (S idx) ds)
    | None => (res, ds)
    end in
  if (GoStrings.HasSuffix ds "W" || GoStrings.HasSuffix ds "S")%bool
  then res * -1
  else res.

Definition keyVal (s : string) : string * string :=
  match GoStrings.Split s "=" with
  | [key; val] => (key, val)
  | key :: _ => (key, "")
  | [] => ("", "")
  end.

(** The accessors return Go's [(value, ok)] pair. *)
Definition paramset_string (p : paramset) (s : string) : string * bool :=
  match p !! s with
  | Some v => (v, true)
  | None => ("", false)
  end.

Definition paramset_bool (p : paramset) (s : string) : bool * bool :=
  match p !! s with
  | Some v => if String.eqb v "" then (true, true) else ParseBool v
  | None => (false, false)
  end.

Definition paramset_float (p : paramset) (s : string) : float64 * bool :=
  match p !! s with
  | Some v => ParseFloat v
  | None => (0, false)
  end.

Definition paramset_degree (p : paramset) (s : string) : float64 * bool :=
  match p !! s with
  | Some v => (parseDegreeString v * d2r, true)
  | None => (0, false)
  end.

End Paramset.

(** ** Reference catalogs ([projection.go]) *)

Record datum : Type := {
  datum_id : string; definition : string; ellipse_name : string; comments : string
}.

Record ellipse : Type := {
  ellipse_id : string; major : string; ell : string; name : string
}.

Record unit : Type := {
  unit_id : string; unit_to_meter : float64; unit_name : string
}.

Record prime_meridian : Type := {
  pm_id : string; defn : string
}.

Section Catalogs.
Local Open Scope float_scope.
Local Open Scope string_scope.

Definition datums_list : gmap string datum := list_to_map [
("WGS84", Build_datum "WGS84" "towgs84=0,0,0" "WGS84" "");
("GGRS87", Build_datum "GGRS87" "towgs84=-199.87,74.79,246.62" "GRS80" "Greek_Geodetic_Reference_System_1987");
("NAD83", Build_datum "NAD83" "towgs84=0,0,0" "GRS80" "North_American_Datum_1983");
("NAD27", Build_datum "NAD27" "nadgrids=@conus,@alaska,@ntv2_0.gsb,@ntv1_can.dat" "clrk66" "North_American_Datum_1927");
("potsdam", Build_datum "potsdam" "towgs84=598.1,73.7,418.2,0.202,0.045,-2.455,6.7" "bessel" "Potsdam Rauenberg 1950 DHDN");
("carthage", Build_datum "carthage" "towgs84=-263.0,6.0,431.0" "clrk80ign" "Carthage 1934 Tunisia");
("hermannskogel", Build_datum "hermannskogel" "towgs84=577.326,90.129,463.919,5.137,1.474,5.297,2.4232" "bessel" "Hermannskogel");
("ire65", Build_datum "ire65" "towgs84=482.530,-130.596,564.557,-1.042,-0.214,-0.631,8.15" "mod_airy" "Ireland 1965");
("nzgd49", Build_datum "nzgd49" "towgs84=59.47,-5.04,187.44,0.47,-0.1,1.024,-4.5993" "intl" "New Zealand Geodetic Datum 1949");
("OSGB36", Build_datum "OSGB36" "towgs84=446.448,-125.157,542.060,0.1502,0.2470,0.8421,-20.4894" "airy" "Airy 1830")
].

Definition ellipse_list : gmap string ellipse := list_to_map [
("MERIT", Build_ellipse "MERIT" "a=6378137.0" "rf=298.257" "MERIT 1983");
("SGS85", Build_ellipse "SGS85" "a=6378136.0" "rf=298.257" "Soviet Geodetic System 85");
("GRS80", Build_ellipse "GRS80" "a=6378137.0" "rf=298.257222101" "GRS 1980(IUGG, 1980)");
("IAU76", Build_ellipse "IAU76" "a=6378140.0" "rf=298.257" "IAU 1976");
("airy", Build_ellipse "airy" "a=6377563.396" "b=6356256.910" "Airy 1830");
("APL4.9", Build_ellipse "APL4.9" "a=6378137.0." "rf=298.25" "Appl. Physics. 1965");
("NWL9D", Build_ellipse "NWL9D" "a=6378145.0." "rf=298.25" "Naval Weapons Lab., 1965");
("mod_airy", Build_ellipse "mod_airy" "a=6377340.189" "b=6356034.446" "Modified Airy");
("andrae", Build_ellipse "andrae" "a=6377104.43" "rf=300.0" "Andrae 1876 (Den., Iclnd.)");
("aust_SA", Build_ellipse "aust_SA" "a=6378160.0" "rf=298.25" "Australian Natl & S. Amer. 1969");
("GRS67", Build_ellipse "GRS67" "a=6378160.0" "rf=298.2471674270" "GRS 67(IUGG 1967)");
("bessel", Build_ellipse "bessel" "a=6377397.155" "rf=299.1528128" "Bessel 1841");
("bess_nam", Build_ellipse "bess_nam" "a=6377483.865" "rf=299.1528128" "Bessel 1841 (Namibia)");
("clrk66", Build_ellipse "clrk66" "a=6378206.4" "b=6356583.8" "Clarke 1866");
("clrk80", Build_ellipse "clrk80" "a=6378249.145" "rf=293.4663" "Clarke 1880 mod.");
("clrk80ign", Build_ellipse "clrk80ign" "a=6378249.2" "rf=293.4660212936269" "Clarke 1880 (IGN).");
("CPM", Build_ellipse "CPM" "a=6375738.7" "rf=334.29" "Comm. des Poids et Mesures 1799");
("delmbr", Build_ellipse "delmbr" "a=6376428." "rf=311.5" "Delambre 1810 (Belgium)");
("engelis", Build_ellipse "engelis" "a=6378136.05" "rf=298.2566" "Engelis 1985");
("evrst30", Build_ellipse "evrst30" "a=6377276.345" "rf=300.8017" "Everest 1830");
("evrst48", Build_ellipse "evrst48" "a=6377304.063" "rf=300.8017" "Everest 1948");
("evrst56", Build_ellipse "evrst56" "a=6377301.243" "rf=300.8017" "Everest 1956");
("evrst69", Build_ellipse "evrst69" "a=6377295.664" "rf=300.8017" "Everest 1969");
("evrstSS", Build_ellipse "evrstSS" "a=6377298.556" "rf=300.8017" "Everest (Sabah & Sarawak)");
("fschr60", Build_ellipse "fschr60" "a=6378166." "rf=298.3" "Fischer (Mercury Datum) 1960");
("fschr60m", Build_ellipse "fschr60m" "a=6378155." "rf=298.3" "Modified Fischer 1960");
("fschr68", Build_ellipse "fschr68" "a=6378150." "rf=298.3" "Fischer 1968");
("helmert", Build_ellipse "helmert" "a=6378200." "rf=298.3" "Helmert 1906");
("hough", Build_ellipse "hough" "a=6378270.0" "rf=297." "Hough");
("intl", Build_ellipse "intl" "a=6378388.0" "rf=297." "International 1909 (Hayford)");
("krass", Build_ellipse "krass" "a=6378245.0" "rf=298.3" "Krassovsky, 1942");
("kaula", Build_ellipse "kaula" "a=6378163." "rf=298.24" "Kaula 1961");
("lerch", Build_ellipse "lerch" "a=6378139." "rf=298.257" "Lerch 1979");
("mprts", Build_ellipse "mprts" "a=6397300." "rf=191." "Maupertius 1738");
("new_intl", Build_ellipse "new_intl" "a=6378157.5" "b=6356772.2" "New International 1967");
("plessis", Build_ellipse "plessis" "a=6376523." "b=6355863." "Plessis 1817 (France)");
("SEasia", Build_ellipse "SEasia" "a=6378155.0" "b=6356773.3205" "Southeast Asia");
("walbeck", Build_ellipse "walbeck" "a=6376896.0" "b=6355834.8467" "Walbeck");
("WGS60", Build_ellipse "WGS60" "a=6378165.0" "rf=298.3" "WGS 60");
("WGS66", Build_ellipse "WGS66" "a=6378145.0" "rf=298.25" "WGS 66");
("WGS72", Build_ellipse "WGS72" "a=6378135.0" "rf=298.26" "WGS 72");
("WGS84", Build_ellipse "WGS84" "a=6378137.0" "rf=298.257223563" "WGS 84");
("sphere", Build_ellipse "sphere" "a=6370997.0" "b=6370997.0" "Normal Sphere (r=6370997)")
].

Definition units_list : gmap string unit := list_to_map [
("km", Build_unit "km" 1000 "Kilometer");
("m", Build_unit "m" 1.0 "Meter");
("dm", Build_unit "dm" 0.1 "Decimeter");
("cm", Build_unit "cm" 0.01 "Centimeter");
("mm", Build_unit "mm" 0.001 "Millimeter");
("kmi", Build_unit "kmi" 1852.0 "International Nautical Mile");
("in", Build_unit "in" 0.0254 "International Inch");
("ft", Build_unit "ft" 0.3048 "International Foot");
("yd", Build_unit "yd" 0.9144 "International Yard");
("mi", Build_unit "mi" 1609.344 "International Statute Mile");
("fath", Build_unit "fath" 1.8288 "International Fathom");
("ch", Build_unit "ch" 20.1168 "International Chain");
("link", Build_unit "link" 0.201168 "International Link");
("us-in", Build_unit "us-in" 0.0254000508 "U.S. Surveyor's Inch");
("us-ft", Build_unit "us-ft" 0.304800609601219 "U.S. Surveyor's Foot");
("us-yd", Build_unit "us-yd" 0.914401828803658 "U.S. Surveyor's Yard");
("us-ch", Build_unit "us-ch" 20.11684023368047 "U.S. Surveyor's Chain");
("us-mi", Build_unit "us-mi" 1609.347218694437 "U.S. Surveyor's Statute Mile");
("ind-yd", Build_unit "ind-yd" 0.91439523 "Indian Yard");
("ind-ft", Build_unit "ind-ft" 0.30479841 "Indian Foot");
("ind-ch", Build_unit "ind-ch" 20.11669506 "Indian Chain")
].

Definition pm_list : gmap string prime_meridian := list_to_map [
("greenwich", Build_prime_meridian "greenwich" "0dE");
("lisbon", Build_prime_meridian "lisbon" ("9d07'54.862" ++ dquote ++ "W"));
("paris", Build_prime_meridian "paris" ("2d20'14.025" ++ dquote ++ "E"));
("bogota", Build_prime_meridian "bogota" ("74d04'51.3" ++ dquote ++ "W"));
("madrid", Build_prime_meridian "madrid" ("3d41'16.58" ++ dquote ++ "W"));
("rome", Build_prime_meridian "rome" ("12d27'8.4" ++ dquote ++ "E"));
("bern", Build_prime_meridian "bern" ("7d26'22.5" ++ dquote ++ "E"));
("jakarta", Build_prime_meridian "jakarta" ("106d48'27.79" ++ dquote ++ "E"));
("ferro", Build_prime_meridian "ferro" "17d40'W");
("brussels", Build_prime_meridian "brussels" ("4d22'4.71" ++ dquote ++ "E"));
("stockholm", Build_prime_meridian "stockholm" ("18d3'29.8" ++ dquote ++ "E"));
("athens", Build_prime_meridian "athens" ("23d42'58.815" ++ dquote ++ "E"));
("oslo", Build_prime_meridian "oslo" ("10d43'22.5" ++ dquote ++ "E"))
].

End Catalogs.

(** ** The resolved configuration ([projection.go], [type pj struct]) *)

Record pj : Type := {
  proj : string;
  axis : string;
  datumType : datumTypeT;
  datumParams : option (list float64);
  catalogName : string;
  a : float64;
  es : float64;
  e : float64;
  ra : float64;
  lam0 : float64;
  phi0 : float64;
  k0 : float64;
  x0 : float64;
  y0 : float64;
  oneEs : float64;
  rOneEs : float64;
  aOrig : float64;
  esOrig : float64;
  geoc : bool;
  over : bool;
  long_wrap_set : bool;
  long_wrap_center : float64;
  to_meter : float64;
  fr_meter : float64;
  vto_meter : float64;
  vfr_meter : float64;
  from_greenwich : float64
}.

(** Field assignments [p.f = v], one function per field. *)
Definition set_proj (v : string) (p : pj) : pj :=
  Build_pj v (axis p) (datumType p) (datumParams p) (catalogName p) (a p) (es p) (e p) (ra p) (lam0 p) (phi0 p) (k0 p) (x0 p) (y0 p) (oneEs p) (rOneEs p) (aOrig p) (esOrig p) (geoc p) (over p) (long_wrap_set p) (long_wrap_center p) (to_meter p) (fr_meter p) (vto_meter p) (vfr_meter p) (from_greenwich p).
Definition set_axis (v : string) (p : pj) : pj :=
  Build_pj (proj p) v (datumType p) (datumParams p) (catalogName p) (a p) (es p) (e p) (ra p) (lam0 p) (phi0 p) (k0 p) (x0 p) (y0 p) (oneEs p) (rOneEs p) (aOrig p) (esOrig p) (geoc p) (over p) (long_wrap_set p) (long_wrap_center p) (to_meter p) (fr_meter p) (vto_meter p) (vfr_meter p) (from_greenwich p).
Definition set_datumType (v : datumTypeT) (p : pj) : pj :=
  Build_pj (proj p) (axis p) v (datumParams p) (catalogName p) (a p) (es p) (e p) (ra p) (lam0 p) (phi0 p) (k0 p) (x0 p) (y0 p) (oneEs p) (rOneEs p) (aOrig p) (esOrig p) (geoc p) (over p) (long_wrap_set p) (long_wrap_center p) (to_meter p) (fr_meter p) (vto_meter p) (vfr_meter p) (from_greenwich p).
Definition set_datumParams (v : option (list float64)) (p : pj) : pj :=
  Build_pj (proj p) (axis p) (datumType p) v (catalogName p) (a p) (es p) (e p) (ra p) (lam0 p) (phi0 p) (k0 p) (x0 p) (y0 p) (oneEs p) (rOneEs p) (aOrig p) (esOrig p) (geoc p) (over p) (long_wrap_set p) (long_wrap_center p) (to_meter p) (fr_meter p) (vto_meter p) (vfr_meter p) (from_greenwich p).
Definition set_catalogName (v : string) (p : pj) : pj :=
  Build_pj (proj p) (axis p) (datumType p) (datumParams p) v (a p) (es p) (e p) (ra p) (lam0 p) (phi0 p) (k0 p) (x0 p) (y0 p) (oneEs p) (rOneEs p) (aOrig p) (esOrig p) (geoc p) (over p) (long_wrap_set p) (long_wrap_center p) (to_meter p) (fr_meter p) (vto_meter p) (vfr_meter p) (from_greenwich p).
Definition set_a (v : float64) (p : pj) : pj :=
  Build_pj (proj p) (axis p) (datumType p) (datumParams p) (catalogName p) v (es p) (e p) (ra p) (lam0 p) (phi0 p) (k0 p) (x0 p) (y0 p) (oneEs p) (rOneEs p) (aOrig p) (esOrig p) (geoc p) (over p) (long_wrap_set p) (long_wrap_center p) (to_meter p) (fr_meter p) (vto_meter p) (vfr_meter p) (from_greenwich p).
Definition set_es (v : float64) (p : pj) : pj :=
  Build_pj (proj p) (axis p) (datumType p) (datumParams p) (catalogName p) (a p) v (e p) (ra p) (lam0 p) (phi0 p) (k0 p) (x0 p) (y0 p) (oneEs p) (rOneEs p) (aOrig p) (esOrig p) (geoc p) (over p) (long_wrap_set p) (long_wrap_center p) (to_meter p) (fr_meter p) (vto_meter p) (vfr_meter p) (from_greenwich p).
Definition set_e (v : float64) (p : pj) : pj :=
  Build_pj (proj p) (axis p) (datumType p) (datumParams p) (catalogName p) (a p) (es p) v (ra p) (lam0 p) (phi0 p) (k0 p) (x0 p) (y0 p) (oneEs p) (rOneEs p) (aOrig p) (esOrig p) (geoc p) (over p) (long_wrap_set p) (long_wrap_center p) (to_meter p) (fr_meter p) (vto_meter p) (vfr_meter p) (from_greenwich p).
Definition set_ra (v : float64) (p : pj) : pj :=
  Build_pj (proj p) (axis p) (datumType p) (datumParams p) (catalogName p) (a p) (es p) (e p) v (lam0 p) (phi0 p) (k0 p) (x0 p) (y0 p) (oneEs p) (rOneEs p) (aOrig p) (esOrig p) (geoc p) (over p) (long_wrap_set p) (long_wrap_center p) (to_meter p) (fr_meter p) (vto_meter p) (vfr_meter p) (from_greenwich p).
Definition set_lam0 (v : float64) (p : pj) : pj :=
  Build_pj (proj p) (axis p) (datumType p) (datumParams p) (catalogName p) (a p) (es p) (e p) (ra p) v (phi0 p) (k0 p) (x0 p) (y0 p) (oneEs p) (rOneEs p) (aOrig p) (esOrig p) (geoc p) (over p) (long_wrap_set p) (long_wrap_center p) (to_meter p) (fr_meter p) (vto_meter p) (vfr_meter p) (from_greenwich p).
Definition set_phi0 (v : float64) (p : pj) : pj :=
  Build_pj (proj p) (axis p) (datumType p) (datumParams p) (catalogName p) (a p) (es p) (e p) (ra p) (lam0 p) v (k0 p) (x0 p) (y0 p) (oneEs p) (rOneEs p) (aOrig p) (esOrig p) (geoc p) (over p) (long_wrap_set p) (long_wrap_center p) (to_meter p) (fr_meter p) (vto_meter p) (vfr_meter p) (from_greenwich p).
Definition set_k0 (v : float64) (p : pj) : pj :=
  Build_pj (proj p) (axis p) (datumType p) (datumParams p) (catalogName p) (a p) (es p) (e p) (ra p) (lam0 p) (phi0 p) v (x0 p) (y0 p) (oneEs p) (rOneEs p) (aOrig p) (esOrig p) (geoc p) (over p) (long_wrap_set p) (long_wrap_center p) (to_meter p) (fr_meter p) (vto_meter p) (vfr_meter p) (from_greenwich p).
Definition set_x0 (v : float64) (p : pj) : pj :=
  Build_pj (proj p) (axis p) (datumType p) (datumParams p) (catalogName p) (a p) (es p) (e p) (ra p) (lam0 p) (phi0 p) (k0 p) v (y0 p) (oneEs p) (rOneEs p) (aOrig p) (esOrig p) (geoc p) (over p) (long_wrap_set p) (long_wrap_center p) (to_meter p) (fr_meter p) (vto_meter p) (vfr_meter p) (from_greenwich p).
Definition set_y0 (v : float64) (p : pj) : pj :=
  Build_pj (proj p) (axis p) (datumType p) (datumParams p) (catalogName p) (a p) (es p) (e p) (ra p) (lam0 p) (phi0 p) (k0 p) (x0 p) v (oneEs p) (rOneEs p) (aOrig p) (esOrig p) (geoc p) (over p) (long_wrap_set p) (long_wrap_center p) (to_meter p) (fr_meter p) (vto_meter p) (vfr_meter p) (from_greenwich p).
Definition set_oneEs (v : float64) (p : pj) : pj :=
  Build_pj (proj p) (axis p) (datumType p) (datumParams p) (catalogName p) (a p) (es p) (e p) (ra p) (lam0 p) (phi0 p) (k0 p) (x0 p) (y0 p) v (rOneEs p) (aOrig p) (esOrig p) (geoc p) (over p) (long_wrap_set p) (long_wrap_center p) (to_meter p) (fr_meter p) (vto_meter p) (vfr_meter p) (from_greenwich p).
Definition set_rOneEs (v : float64) (p : pj) : pj :=
  Build_pj (proj p) (axis p) (datumType p) (datumParams p) (catalogName p) (a p) (es p) (e p) (ra p) (lam0 p) (phi0 p) (k0 p) (x0 p) (y0 p) (oneEs p) v (aOrig p) (esOrig p) (geoc p) (over p) (long_wrap_set p) (long_wrap_center p) (to_meter p) (fr_meter p) (vto_meter p) (vfr_meter p) (from_greenwich p).
Definition set_aOrig (v : float64) (p : pj) : pj :=
  Build_pj (proj p) (axis p) (datumType p) (datumParams p) (catalogName p) (a p) (es p) (e p) (ra p) (lam0 p) (phi0 p) (k0 p) (x0 p) (y0 p) (oneEs p) (rOneEs p) v (esOrig p) (geoc p) (over p) (long_wrap_set p) (long_wrap_center p) (to_meter p) (fr_meter p) (vto_meter p) (vfr_meter p) (from_greenwich p).
Definition set_esOrig (v : float64) (p : pj) : pj :=
  Build_pj (proj p) (axis p) (datumType p) (datumParams p) (catalogName p) (a p) (es p) (e p) (ra p) (lam0 p) (phi0 p) (k0 p) (x0 p) (y0 p) (oneEs p) (rOneEs p) (aOrig p) v (geoc p) (over p) (long_wrap_set p) (long_wrap_center p) (to_meter p) (fr_meter p) (vto_meter p) (vfr_meter p) (from_greenwich p).
Definition set_geoc (v : bool) (p : pj) : pj :=
  Build_pj (proj p) (axis p) (datumType p) (datumParams p) (catalogName p) (a p) (es p) (e p) (ra p) (lam0 p) (phi0 p) (k0 p) (x0 p) (y0 p) (oneEs p) (rOneEs p) (aOrig p) (esOrig p) v (over p) (long_wrap_set p) (long_wrap_center p) (to_meter p) (fr_meter p) (vto_meter p) (vfr_meter p) (from_greenwich p).
Definition set_over (v : bool) (p : pj) : pj :=
  Build_pj (proj p) (axis p) (datumType p) (datumParams p) (catalogName p) (a p) (es p) (e p) (ra p) (lam0 p) (phi0 p) (k0 p) (x0 p) (y0 p) (oneEs p) (rOneEs p) (aOrig p) (esOrig p) (geoc p) v (long_wrap_set p) (long_wrap_center p) (to_meter p) (fr_meter p) (vto_meter p) (vfr_meter p) (from_greenwich p).
Definition set_long_wrap_set (v : bool) (p : pj) : pj :=
  Build_pj (proj p) (axis p) (datumType p) (datumParams p) (catalogName p) (a p) (es p) (e p) (ra p) (lam0 p) (phi0 p) (k0 p) (x0 p) (y0 p) (oneEs p) (rOneEs p) (aOrig p) (esOrig p) (geoc p) (over p) v (long_wrap_center p) (to_meter p) (fr_meter p) (vto_meter p) (vfr_meter p) (from_greenwich p).
Definition set_long_wrap_center (v : float64) (p : pj) : pj :=
  Build_pj (proj p) (axis p) (datumType p) (datumParams p) (catalogName p) (a p) (es p) (e p) (ra p) (lam0 p) (phi0 p) (k0 p) (x0 p) (y0 p) (oneEs p) (rOneEs p) (aOrig p) (esOrig p) (geoc p) (over p) (long_wrap_set p) v (to_meter p) (fr_meter p) (vto_meter p) (vfr_meter p) (from_greenwich p).
Definition set_to_meter (v : float64) (p : pj) : pj :=
  Build_pj (proj p) (axis p) (datumType p) (datumParams p) (catalogName p) (a p) (es p) (e p) (ra p) (lam0 p) (phi0 p) (k0 p) (x0 p) (y0 p) (oneEs p) (rOneEs p) (aOrig p) (esOrig p) (geoc p) (over p) (long_wrap_set p) (long_wrap_center p) v (fr_meter p) (vto_meter p) (vfr_meter p) (from_greenwich p).
Definition set_fr_meter (v : float64) (p : pj) : pj :=
  Build_pj (proj p) (axis p) (datumType p) (datumParams p) (catalogName p) (a p) (es p) (e p) (ra p) (lam0 p) (phi0 p) (k0 p) (x0 p) (y0 p) (oneEs p) (rOneEs p) (aOrig p) (esOrig p) (geoc p) (over p) (long_wrap_set p) (long_wrap_center p) (to_meter p) v (vto_meter p) (vfr_meter p) (from_greenwich p).
Definition set_vto_meter (v : float64) (p : pj) : pj :=
  Build_pj (proj p) (axis p) (datumType p) (datumParams p) (catalogName p) (a p) (es p) (e p) (ra p) (lam0 p) (phi0 p) (k0 p) (x0 p) (y0 p) (oneEs p) (rOneEs p) (aOrig p) (esOrig p) (geoc p) (over p) (long_wrap_set p) (long_wrap_center p) (to_meter p) (fr_meter p) v (vfr_meter p) (from_greenwich p).
Definition set_vfr_meter (v : float64) (p : pj) : pj :=
  Build_pj (proj p) (axis p) (datumType p) (datumParams p) (catalogName p) (a p) (es p) (e p) (ra p) (lam0 p) (phi0 p) (k0 p) (x0 p) (y0 p) (oneEs p) (rOneEs p) (aOrig p) (esOrig p) (geoc p) (over p) (long_wrap_set p) (long_wrap_center p) (to_meter p) (fr_meter p) (vto_meter p) v (from_greenwich p).
Definition set_from_greenwich (v : float64) (p : pj) : pj :=
  Build_pj (proj p) (axis p) (datumType p) (datumParams p) (catalogName p) (a p) (es p) (e p) (ra p) (lam0 p) (phi0 p) (k0 p) (x0 p) (y0 p) (oneEs p) (rOneEs p) (aOrig p) (esOrig p) (geoc p) (over p) (long_wrap_set p) (long_wrap_center p) (to_meter p) (fr_meter p) (vto_meter p) (vfr_meter p) v.

(** [&pj{axis: "enu"}]: every other field has its zero value; a [nil]
    slice is [None]. *)
Definition new_pj : pj :=
  {| proj := ""; axis := "enu"; datumType := 0; datumParams := None; catalogName := "";
     a := 0; es := 0; e := 0; ra := 0; lam0 := 0; phi0 := 0; k0 := 0; x0 := 0; y0 := 0;
     oneEs := 0; rOneEs := 0; aOrig := 0; esOrig := 0;
     geoc := false; over := false; long_wrap_set := false; long_wrap_center := 0;
     to_meter := 0; fr_meter := 0; vto_meter := 0; vfr_meter := 0; from_greenwich := 0 |}%float.

(** ** Datum and ellipsoid resolution ([projection.go]) *)

Section Resolver.
Local Open Scope float_scope.

(** The loop [for i, f := range parts { p.datumParams[i], _ = ParseFloat(f) }]
    of [setDatum], from index [i] on: a write past the end of the slice
    panics. *)
Fixpoint store_parts (dp : list float64) (i : nat) (parts : list string)
  : result (list float64) :=
  match parts with
  | [] => Ret dp
  | f :: rest =>
      if (i <? length dp)%nat
      then store_parts (<[i := fst (ParseFloat f)]> dp) (S i) rest
      else Panic "index out of range"
  end.

Definition setDatum (p : pj) (params : paramset)
  : result (pj * paramset * option error) :=
  let params :=
    match paramset_string params "datum" with
    | (name, true) =>
        match datums_list !! name with
        | Some datum =>
            let params := <["ellps" := ellipse_name datum]> params in
            let '(key, val) := keyVal (definition datum) in
            <[key := val]> params
        | None => params
        end
    | (_, false) => params
    end in
  if snd (paramset_string params "nadgrids") then
    Ret (set_datumType PJD_GRIDSHIFT p, params, None)
  else
    match paramset_string params "catalog" with
    | (catalog, true) =>
        Ret (set_catalogName catalog (set_datumType PJD_GRIDSHIFT p), params, None)
    | (_, false) =>
        match paramset_string params "towgs84" with
        | (towgs84, true) =>
            let parts := GoStrings.Split towgs84 "," in
            dp ← store_parts (replicate 7 0) 0 parts;
            if (length parts =? 7)%nat then
              let dp := alter (fun v => v * sec2rad) 3%nat dp in
              let dp := alter (fun v => v * sec2rad) 4%nat dp in
              let dp := alter (fun v => v * sec2rad) 5%nat dp in
              let dp := alter (fun v => (v / 1000000.0) + 1) 6%nat dp in
              Ret (set_datumParams (Some dp) (set_datumType PJD_7PARAM p), params, None)
            else
              Ret (set_datumParams (Some dp) (set_datumType PJD_3PARAM p), params, None)
        | (_, false) => Ret (p, params, None)
        end
    end.

(** [if _, ok = params[key]; !ok { params[key] = val }]. *)
Definition set_if_absent (key val : string) (params : paramset) : paramset :=
  match params !! key with
  | Some _ => params
  | None => <[key := val]> params
  end.

Definition setEllipse (p : pj) (params : paramset) : pj * paramset * option error :=
  let b : float64 := 0 in
  match paramset_float params "R" with
  | (r, true) => (set_a r p, params, None)
  | (_, false) =>
      let params :=
        match paramset_string params "ellps" with
        | (name, true) =>
            match ellipse_list !! name with
            | Some ellps =>
                let '(key, val) := keyVal (major ellps) in
                let params := set_if_absent key val params in
                let '(key, val) := keyVal (ell ellps) in
                set_if_absent key val params
            | None => params
            end
        | (_, false) => params
        end in
      let p := set_a (fst (paramset_float params "a")) p in
      let '(p, b) :=
        match paramset_float params "es" with
        | (es, true) => (set_es es p, b)
        | (_, false) =>
            match paramset_float params "e" with
            | (e, true) => (set_es (e * e) p, b)
            | (_, false) =>
                match paramset_float params "rf" with
                | (rf, true) =>
                    let p := set_es (1 / rf) p in
                    (set_es (es p * (2 - es p)) p, b)
                | (_, false) =>
                    match paramset_float params "f" with
                    | (f, true) => (set_es (f * (2 - f)) p, b)
                    | (_, false) =>
                        match paramset_float params "b" with
                        | (b, true) => (set_es (1 - (b * b) / (a p * a p)) p, b)
                        | (b, false) => (p, b)
                        end
                    end
                end
            end
        end in
      let b := if b =? 0 then a p * Sqrt (1 - es p) else b in
      let p :=
        match paramset_bool params "R_A" with
        | (true, true) =>
            set_es 0 (set_a (a p * (1 - es p * (sixth + es p * (ra4 + es p * ra6)))) p)
        | _ =>
            match paramset_bool params "R_V" with
            | (true, true) =>
                set_es 0 (set_a (a p * (1 - es p * (sixth + es p * (rv4 + es p * rv6)))) p)
            | _ =>
                match paramset_bool params "R_g" with
                | (true, true) => set_es 0 (set_a (Sqrt (a p * b)) p)
                | _ =>
                    match paramset_bool params "R_h" with
                    | (true, true) => set_es 0 (set_a (2 * a p * b / (a p + b)) p)
                    | _ => p
                    end
                end
            end
        end in
      (p, params, None)
  end.

End Resolver.

(** ** The transform wrapper ([projection.go]) *)

(** A kernel function: [type translator func(float64, float64) (float64, float64, error)]. *)
Abbreviation translator := (float64 -> float64 -> result (float64 * float64 * option error)).

Section Wrapper.
Context (libm : MathLib).
Local Open Scope float_scope.

Definition commonFwd (p : pj) (lam phi : float64) (tr : translator)
  : result (float64 * float64 * option error) :=
  let t := Abs phi - half_pi in
  if ((epsln <? t) || (10 <? Abs lam))%bool then
    Ret (hugeVal, hugeVal, Some (errors_New "this is way out of bounds"))
  else
    let phi :=
      if Abs t <=? epsln then Copysign half_pi phi
      else if geoc p then Atan libm (rOneEs p * Tan libm phi)
      else phi in
    let lam := lam - lam0 p in
    let lam := if negb (over p) then adjLng lam else lam in
    '(x, y, err) ← tr lam phi;
    match err with
    | Some _ => Ret (hugeVal, hugeVal, err)
    | None =>
        let x := fr_meter p * (a p * x + x0 p) in
        let y := fr_meter p * (a p * y + y0 p) in
        Ret (x, y, err)
    end.

(** The results are the named values [lam] and [phi]; the two statements
    [y += p.lam0] and [x = adjLng(x)] assign the parameters [y] and [x],
    which are not read afterwards. *)
Definition commonInv (p : pj) (x y : float64) (tr : translator)
  : result (float64 * float64 * option error) :=
  if ((x =? hugeVal) || (y =? hugeVal))%bool then
    Ret (hugeVal, hugeVal, Some (errors_New "this is way out of bounds"))
  else
    let x := (x * to_meter p - x0 p) * ra p in
    let y := (y * to_meter p - y0 p) * ra p in
    '(lam, phi, err) ← tr x y;
    match err with
    | Some _ => Ret (hugeVal, hugeVal, err)
    | None =>
        let y := y + lam0 p in
        let x := if negb (over p) then adjLng x else x in
        let phi :=
          if (geoc p && (epsln <? Abs (Abs phi - half_pi)))%bool
          then Atan libm (oneEs p * Tan libm phi)
          else phi in
        Ret (lam, phi, err)
    end.

End Wrapper.

(** ** Projection kernels *)

Record LngLat : Type := { LngLat_pj : pj }.
Record Mercator : Type := { Mercator_pj : pj }.
Record LCC : Type := {
  LCC_pj : pj;
  c : float64; n : float64; rho0 : float64;
  LCC_phi2 : float64; LCC_phi1 : float64;
  ellips : bool
}.
Record Equirectangular : Type := { Equirectangular_pj : pj; Equirectangular_phi1 : float64 }.

(** The values of the interface [impl]. *)
Inductive impl : Type :=
| impl_LngLat (ll : LngLat)
| impl_Mercator (m : Mercator)
| impl_LCC (ll : LCC)
| impl_Equirectangular (eqc : Equirectangular).

Definition lookupImpl (pin : pj) : option impl :=
  if existsb (String.eqb (proj pin)) ["latlong"; "longlat"; "latlon"; "lonlat"]
  then Some (impl_LngLat {| LngLat_pj := pin |})
  else if String.eqb (proj pin) "merc"
  then Some (impl_Mercator {| Mercator_pj := pin |})
  else if String.eqb (proj pin) "lcc"
  then Some (impl_LCC {| LCC_pj := pin; c := 0; n := 0; rho0 := 0;
                         LCC_phi2 := 0; LCC_phi1 := 0; ellips := false |})
  else if String.eqb (proj pin) "eqc"
  then Some (impl_Equirectangular {| Equirectangular_pj := pin; Equirectangular_phi1 := 0 |})
  else None.

Section Kernels.
Context (libm : MathLib).
Local Open Scope float_scope.

(** *** Geographic *)

Definition LngLat_init (ll : LngLat) (params : paramset) : LngLat * option error :=
  ({| LngLat_pj := set_y0 0 (set_x0 0 (LngLat_pj ll)) |}, None).

Definition LngLat_fwd (ll : LngLat) : translator := fun lam phi =>
  let x := lam / a (LngLat_pj ll) in
  let y := phi / a (LngLat_pj ll) in
  Ret (x, y, None).

Definition LngLat_inv (ll : LngLat) : translator := fun x y =>
  let lat := y * a (LngLat_pj ll) in
  let lng := x * a (LngLat_pj ll) in
  Ret (lng, lat, None).

Definition LngLat_Forward (ll : LngLat) (lng lat : float64) :=
  commonFwd libm (LngLat_pj ll) lng lat (LngLat_fwd ll).

Definition LngLat_Inverse (ll : LngLat) (x y : float64) :=
  commonInv libm (LngLat_pj ll) x y (LngLat_inv ll).

(** *** Mercator *)

Definition Mercator_init (m : Mercator) (params : paramset) : Mercator * option error :=
  let p := Mercator_pj m in
  let '(phits, isPhits) := paramset_degree params "lat_ts" in
  let phits := if isPhits then Abs phits else phits in
  let p :=
    if (negb (e p =? 0) && isPhits)%bool
    then set_k0 (msfn (Sin libm phits) (Cos libm phits) (es p)) p
    else if isPhits then set_k0 (Cos libm phits) p
    else p in
  ({| Mercator_pj := p |}, None).

Definition Mercator_fwd (m : Mercator) : translator := fun lam phi =>
  let p := Mercator_pj m in
  if negb (es p =? 0) then
    let x := k0 p * lam in
    let y := - k0 p * Log libm (tsfn libm phi (Sin libm phi) (e p)) in
    Ret (x, y, None)
  else
    let x := k0 p * lam in
    let y := k0 p * Log libm (Tan libm (fort_pi + 0.5 * phi)) in
    Ret (x, y, None).

Definition Mercator_inv (m : Mercator) : translator := fun x y =>
  let p := Mercator_pj m in
  if negb (es p =? 0) then
    let '(lat, err) := phi2 libm (Exp libm (- y / k0 p)) (e p) in
    let lng := x * k0 p in
    Ret (lng, lat, err)
  else
    let lng := x / k0 p in
    let lat := half_pi - 2 * Atan libm (Exp libm (- y / k0 p)) in
    Ret (lng, lat, None).

Definition Mercator_Forward (m : Mercator) (lng lat : float64) :=
  commonFwd libm (Mercator_pj m) lng lat (Mercator_fwd m).

Definition Mercator_Inverse (m : Mercator) (x y : float64) :=
  commonInv libm (Mercator_pj m) x y (Mercator_inv m).

End Kernels.

Section MoreKernels.
Context (libm : MathLib).
Local Open Scope float_scope.

(** *** Lambert Conformal Conic *)

Definition LCC_init (ll : LCC) (params : paramset) : LCC * option error :=
  let phi1 := fst (paramset_degree params "lat_1") in
  let '(phi2v, p) :=
    match paramset_degree params "lat_2" with
    | (phi2v, true) => (phi2v, LCC_pj ll)
    | (_, false) =>
        (phi1,
         if negb (snd (paramset_string params "lat_0"))
         then set_phi0 phi1 (LCC_pj ll)
         else LCC_pj ll)
    end in
  let ll := {| LCC_pj := p; c := c ll; n := n ll; rho0 := rho0 ll;
               LCC_phi2 := phi2v; LCC_phi1 := phi1; ellips := ellips ll |} in
  if Abs (phi1 + phi2v) <=? epsln then
    (ll, Some (errors_New "these can't be the same"))
  else
    let sinphi := Sin libm phi1 in
    let nv := sinphi in
    let cosphi := Cos libm phi1 in
    let secant := epsln <=? Abs (phi1 - phi2v) in
    let ellipsv := negb (es p =? 0) in
    if ellipsv then
      let p := set_e (Sqrt (es p)) p in
      let m1 := msfn sinphi cosphi (es p) in
      let ml1 := tsfn libm phi1 sinphi (e p) in
      let nv :=
        if secant then
          let sinphi := Sin libm phi2v in
          let nv := Log libm (m1 / msfn sinphi (Cos libm phi2v) (es p)) in
          nv / Log libm (ml1 / tsfn libm phi2v sinphi (e p))
        else nv in
      let cv := m1 * Pow libm ml1 (- nv) / nv in
      let rho0v :=
        if Abs (Abs (phi0 p) - half_pi) <? epsln then 0
        else cv * Pow libm (tsfn libm (phi0 p) (Sin libm (phi0 p)) (e p)) nv in
      ({| LCC_pj := p; c := cv; n := nv; rho0 := rho0v;
          LCC_phi2 := phi2v; LCC_phi1 := phi1; ellips := ellipsv |}, None)
    else
      let nv :=
        if secant then
          Log libm (cosphi / Cos libm phi2v) /
          Log libm (Tan libm (fort_pi + 0.5 * phi2v) / Tan libm (fort_pi + 0.5 * phi1))
        else nv in
      let cv := cosphi * Pow libm (Tan libm (fort_pi + 0.5 * phi1)) nv / nv in
      let rho0v :=
        if Abs (Abs (phi0 p) - half_pi) <? epsln then 0
        else cv * Pow libm (Tan libm (fort_pi + 0.5 * phi0 p)) (- nv) in
      ({| LCC_pj := p; c := cv; n := nv; rho0 := rho0v;
          LCC_phi2 := phi2v; LCC_phi1 := phi1; ellips := ellipsv |}, None).

Definition LCC_fwd (ll : LCC) : translator := fun lam phi =>
  let p := LCC_pj ll in
  let rho : float64 := 0 in
  let at_pole := Abs (Abs phi - half_pi) <? epsln in
  if (at_pole && (phi * n ll <=? 0))%bool then
    Ret (hugeVal, hugeVal, Some (errors_New "something"))
  else
    let rho :=
      if at_pole then rho
      else if ellips ll
      then c ll * Pow libm (tsfn libm phi (Sin libm phi) (e p)) (n ll)
      else c ll * Pow libm (Tan libm (fort_pi + 0.5 * phi)) (- n ll) in
    let lam := lam * n ll in
    let x := k0 p * (rho * Sin libm lam) in
    let y := k0 p * (rho0 ll - rho * Cos libm lam) in
    Ret (x, y, None).

Definition LCC_inv (ll : LCC) : translator := fun x y =>
  Panic "don't call this".

Definition LCC_Forward (ll : LCC) (lng lat : float64) :=
  commonFwd libm (LCC_pj ll) lng lat (LCC_fwd ll).

Definition LCC_Inverse (ll : LCC) (x y : float64) :=
  commonInv libm (LCC_pj ll) x y (LCC_inv ll).

(** *** Equirectangular *)

Definition Equirectangular_init (eqc : Equirectangular) (params : paramset)
  : Equirectangular * option error :=
  ({| Equirectangular_pj := Equirectangular_pj eqc;
      Equirectangular_phi1 := fst (paramset_degree params "lat_1") |}, None).

Definition Equirectangular_fwd (eqc : Equirectangular) : translator := fun lam phi =>
  let x := lam / a (Equirectangular_pj eqc) in
  let y := phi / a (Equirectangular_pj eqc) in
  Ret (x, y, None).

Definition Equirectangular_inv (eqc : Equirectangular) : translator := fun x y =>
  let lat := y * a (Equirectangular_pj eqc) in
  let lng := x * Cos libm (Equirectangular_phi1 eqc) * a (Equirectangular_pj eqc) in
  Ret (lng, lat, None).

Definition Equirectangular_Forward (eqc : Equirectangular) (lng lat : float64) :=
  commonFwd libm (Equirectangular_pj eqc) lng lat (Equirectangular_fwd eqc).

Definition Equirectangular_Inverse (eqc : Equirectangular) (x y : float64) :=
  commonInv libm (Equirectangular_pj eqc) x y (Equirectangular_inv eqc).

(** *** The interface [Projection], by dynamic dispatch on the kernel *)

Definition impl_pj (imp : impl) : pj :=
  match imp with
  | impl_LngLat ll => LngLat_pj ll
  | impl_Mercator m => Mercator_pj m
  | impl_LCC ll => LCC_pj ll
  | impl_Equirectangular eqc => Equirectangular_pj eqc
  end.

Definition init (imp : impl) (params : paramset) : impl * option error :=
  match imp with
  | impl_LngLat ll => let '(ll, err) := LngLat_init ll params in (impl_LngLat ll, err)
  | impl_Mercator m => let '(m, err) := Mercator_init libm m params in (impl_Mercator m, err)
  | impl_LCC ll => let '(ll, err) := LCC_init ll params in (impl_LCC ll, err)
  | impl_Equirectangular eqc =>
      let '(eqc, err) := Equirectangular_init eqc params in (impl_Equirectangular eqc, err)
  end.

Definition Forward (imp : impl) (lng lat : float64) : result (float64 * float64 * option error) :=
  match imp with
  | impl_LngLat ll => LngLat_Forward libm ll lng lat
  | impl_Mercator m => Mercator_Forward libm m lng lat
  | impl_LCC ll => LCC_Forward ll lng lat
  | impl_Equirectangular eqc => Equirectangular_Forward eqc lng lat
  end.

Definition Inverse (imp : impl) (x y : float64) : result (float64 * float64 * option error) :=
  match imp with
  | impl_LngLat ll => LngLat_Inverse libm ll x y
  | impl_Mercator m => Mercator_Inverse libm m x y
  | impl_LCC ll => LCC_Inverse ll x y
  | impl_Equirectangular eqc => Equirectangular_Inverse eqc x y
  end.

Definition IsLngLat (imp : impl) : bool :=
  match imp with
  | impl_LngLat _ => true
  | impl_Mercator _ => true
  | impl_LCC _ => false
  | impl_Equirectangular _ => false
  end.

Definition ToMeter (imp : impl) : float64 := to_meter (impl_pj imp).
Definition FromGreenwich (imp : impl) : float64 := from_greenwich (impl_pj imp).
Definition Radius (imp : impl) : float64 := a (impl_pj imp).

End MoreKernels.

(** ** [NewProjection] ([projection.go])

    The body of [NewProjection] is embedded block by block, in the order of
    the source; [resolve] chains the blocks between the parameter map and
    the choice of the kernel. *)

Section NewProjection.
Context (libm : MathLib).
Local Open Scope float_scope.

(** The loop over [strings.Split(str, "+")] that fills the parameter map. *)
Definition parse_params (str : string) : paramset :=
  fold_left
    (fun (parms : paramset) (part : string) =>
       let param := GoStrings.TrimSpace part in
       if String.eqb param "" then parms
       else
         let '(key, val) := keyVal param in
         <[key := val]> parms)
    (GoStrings.Split str "+") ∅.

(** [aOrig], [esOrig] and the quantities derived from [a] and [es]. *)
Definition resolve_derived (pin : pj) : pj :=
  let pin := set_aOrig (a pin) pin in
  let pin := set_esOrig (es pin) pin in
  let pin := set_e (Sqrt (es pin)) pin in
  let pin := set_ra (1 / a pin) pin in
  let pin := set_oneEs (1 - es pin) pin in
  let pin := set_rOneEs (1 / oneEs pin) pin in
  pin.

(** The WGS84/GRS80 test on the datum shift. *)
Definition resolve_wgs84 (pin : pj) : pj :=
  if ((datumType pin =? PJD_3PARAM)%Z
      && (match datumParams pin with
          | None => true
          | Some dp => (nth 0 dp 0 =? 0) && (nth 1 dp 0 =? 0) && (nth 2 dp 0 =? 0)
          end)
      && (a pin =? 6378137.0)
      && (Abs (es pin - 0.006694379990) <? 0.000000000050))%bool
  then set_datumType PJD_WGS84 pin
  else pin.

(** [geoc], [over] and [lon_wrap]. *)
Definition resolve_flags (pin : pj) (parms : paramset) : pj :=
  let pin := set_geoc (fst (paramset_bool parms "geoc")) pin in
  let pin := set_over (fst (paramset_bool parms "over")) pin in
  match paramset_degree parms "lon_wrap" with
  | (lwc, true) => set_long_wrap_center lwc (set_long_wrap_set true pin)
  | (_, false) => pin
  end.

(** [axis]: [inr] is the early return [nil, ErrInvalidParam]. *)
Definition resolve_axis (pin : pj) (parms : paramset) : pj + error :=
  match paramset_string parms "axis" with
  | (axisv, true) =>
      if negb (String.length axisv =? 3)%nat then inr ErrInvalidParam
      else inl (set_axis axisv pin)
  | (_, false) => inl pin
  end.

(** Central meridian and latitude, false easting and northing. *)
Definition resolve_placement (pin : pj) (parms : paramset) : pj :=
  let pin := set_lam0 (fst (paramset_degree parms "lon_0")) pin in
  let pin := set_phi0 (fst (paramset_degree parms "lat_0")) pin in
  let pin := set_x0 (fst (paramset_float parms "x_0")) pin in
  let pin := set_y0 (fst (paramset_float parms "y_0")) pin in
  pin.

(** General scaling. *)
Definition resolve_scale (pin : pj) (parms : paramset) : pj :=
  match paramset_float parms "k_0" with
  | (k0v, true) => set_k0 k0v pin
  | (_, false) =>
      match paramset_float parms "k" with
      | (k0v, true) => set_k0 k0v pin
      | (_, false) => set_k0 1 pin
      end
  end.

(** Units. *)
Definition resolve_units (pin : pj) (parms : paramset) : pj :=
  let s := "" in
  let '(pin, s) :=
    match paramset_string parms "units" with
    | (name, true) =>
        match units_list !! name with
        | Some unit =>
            (set_fr_meter (1 / unit_to_meter unit)
               (set_to_meter (unit_to_meter unit) pin), s)
        | None => (pin, s)
        end
    | (_, false) => (pin, fst (paramset_string parms "to_meter"))
    end in
  if negb (String.eqb s "") then pin
  else set_fr_meter 1 (set_to_meter 1 pin).

(** Vertical units. *)
Definition resolve_vunits (pin : pj) (parms : paramset) : pj :=
  let s := "" in
  let '(pin, s) :=
    match paramset_string parms "vunits" with
    | (name, true) =>
        match units_list !! name with
        | Some unit =>
            (set_fr_meter (unit_to_meter unit)
               (set_to_meter (unit_to_meter unit) pin), s)
        | None => (pin, s)
        end
    | (_, false) => (pin, fst (paramset_string parms "vto_meter"))
    end in
  if negb (String.eqb s "") then pin
  else set_vfr_meter (fr_meter pin) (set_vto_meter (to_meter pin) pin).

(** Prime meridian. *)
Definition resolve_pm (pin : pj) (parms : paramset) : pj :=
  match paramset_string parms "pm" with
  | (name, true) =>
      match pm_list !! name with
      | Some pm => set_from_greenwich (parseDegreeString (defn pm)) pin
      | None => pin
      end
  | (_, false) => pin
  end.

(** Everything between the parameter map and the choice of the kernel.
    The result is Go's early return [nil, err] ([inr]) or the resolved
    configuration, with the parameter map as the datum and ellipsoid
    steps left it ([inl]). *)
Definition resolve (parms : paramset) : result (pj * paramset + error) :=
  let pin := new_pj in
  match paramset_string parms "proj" with
  | (_, false) => Ret (inr ErrUnsupportedProj)
  | (projv, true) =>
      let pin := set_proj projv pin in
      '(pin, parms, _) ← setDatum pin parms;
      let '(pin, parms, _) := setEllipse pin parms in
      let pin := resolve_derived pin in
      let pin := resolve_wgs84 pin in
      let pin := resolve_flags pin parms in
      match resolve_axis pin parms with
      | inr err => Ret (inr err)
      | inl pin =>
          let pin := resolve_placement pin parms in
          let pin := resolve_scale pin parms in
          if k0 pin <=? 0 then Ret (inr ErrInvalidParam)
          else
            let pin := resolve_units pin parms in
            let pin := resolve_vunits pin parms in
            let pin := resolve_pm pin parms in
            Ret (inl (pin, parms))
      end
  end.

(** Go's [(Projection, error)]: a [nil] interface value or error is
    [None].  The value returned by [imp.init(parms)] is discarded. *)
Definition NewProjection (str : string) : result (option impl * option error) :=
  let parms := parse_params str in
  r ← resolve parms;
  match r with
  | inr err => Ret (None, Some err)
  | inl (pin, parms) =>
      match lookupImpl pin with
      | Some imp =>
          let '(imp, _) := init libm imp parms in
          Ret (Some imp, None)
      | None => Ret (None, Some ErrUnsupportedProj)
      end
  end.

End NewProjection.

(** ** The scale factor as the specification words it

    "[k0] from [k_0], else [k], else [1.0]": the first of the two parameters
    that is present and parses as a number. *)
Definition scale_param (parms : paramset) : float64 :=
  match paramset_float parms "k_0" with
  | (v, true) => v
  | (_, false) =>
      match paramset_float parms "k" with
      | (v, true) => v
      | (_, false) => 1%float
      end
  end.

(** [close] of [projection_test.go]: the tolerance of the round-trip tests. *)
Definition close (x y : float64) : bool :=
  (Abs (x - y) <? 1.0e-5)%float.

(** ** The real value of a binary64 number *)

(** The powers of two. *)
Definition bpow (e : Z) : R := powerRZ 2 e.

(** The real number a finite float64 stands for (0 for the others). *)
Definition SF2R (f : spec_float) : R :=
  match f with
  | S754_finite s m e => (IZR (cond_Zopp s (Zpos m)) * bpow e)%R
  | _ => 0%R
  end.

Definition SF_finite (f : spec_float) : bool :=
  match f with
  | S754_zero _ | S754_finite _ _ _ => true
  | _ => false
  end.

Definition F2R (x : float64) : R := SF2R (Prim2SF x).
Definition finite (x : float64) : bool := SF_finite (Prim2SF x).

(** Half a unit in the last place, relative: [2^-53]. *)
Definition u53 : R := (/ 9007199254740992)%R.

(** ** Shifting right with a round and a sticky bit

    [shr_inv mrs N D]: the record stands for the quotient [N / D], with
    mantissa the integer part and the two bits locating the remainder
    against the half. *)
Definition shr_inv (mrs : shr_record) (N D : Z) : Prop :=
  0 < D /\ 0 <= shr_m mrs /\
  exists rho, N = shr_m mrs * D + rho /\ 0 <= rho < D /\
    shr_r mrs = (D <=? 2 * rho) /\
    shr_s mrs = (negb (rho =? 0) && negb (2 * rho =? D))%bool.


(** The error of the two bounds checks of the transform wrapper. *)
Definition out_of_bounds : error := errors_New "this is way out of bounds".

(** An instance of [MathLib] for closed examples.  It is used only on
    inputs whose evaluation never calls a function of [math]; every
    statement that does depend on those functions quantifies over all
    instances. *)
Definition no_math : MathLib :=
  {| Sin := fun x => x; Cos := fun x => x; Tan := fun x => x; Atan := fun x => x;
     Exp := fun x => x; Log := fun x => x; Pow := fun x _ => x |}.

(** The keys the catalogs can add to a parameter map. *)
Definition catalog_keys : list string := ["ellps"; "towgs84"; "nadgrids"; "a"; "rf"; "b"].

(** * Properties *)

(** ** The rounding of binary64 operations

    Each operation of [SpecFloat] is related to the real operation it
    rounds: shifts and rounding bits on integers first, then values. *)

Section RoundingZ.
Local Open Scope Z_scope.

Lemma digits2_pos_size (m : positive) : digits2_pos m = Pos.size m.
Proof. induction m as [m IH | m IH |]; cbn; rewrite ?IH; reflexivity. Qed.

(** A positive number of [d] digits lies in [[2^(d-1), 2^d)]. *)
Lemma digits2_bounds (m : positive) :
  2 ^ (Zpos (digits2_pos m) - 1) <= Zpos m < 2 ^ Zpos (digits2_pos m).
Proof.
  rewrite digits2_pos_size. split.
  - pose proof (Pos.size_le m) as H.
    assert (H' : (2 ^ Zpos (Pos.size m) <= 2 * Zpos m)%Z).
    { change 2%Z with (Zpos 2). rewrite <- Pos2Z.inj_pow, <- Pos2Z.inj_mul.
      apply Pos2Z.pos_le_pos. exact H. }
    replace (Zpos (Pos.size m)) with (Zpos (Pos.size m) - 1 + 1) in H' by lia.
    rewrite Z.pow_add_r in H' by lia. lia.
  - pose proof (Pos.size_gt m) as H.
    change 2%Z with (Zpos 2). rewrite <- Pos2Z.inj_pow.
    apply Pos2Z.pos_lt_pos. exact H.
Qed.

(** The digit count is determined by such bounds. *)
Lemma digits2_unique (m : positive) (d : Z) :
  2 ^ (d - 1) <= Zpos m < 2 ^ d -> 0 < d -> Zpos (digits2_pos m) = d.
Proof.
  intros [Hlo Hhi] Hd.
  destruct (digits2_bounds m) as [Hlo' Hhi'].
  set (d' := Zpos (digits2_pos m)) in *.
  assert (Hd' : 0 < d') by (subst d'; lia).
  destruct (Z.lt_trichotomy d' d) as [Hlt | [Heq | Hgt]]; [| exact Heq |].
  - assert (2 ^ d' <= 2 ^ (d - 1)) by (apply Z.pow_le_mono_r; lia). lia.
  - assert (2 ^ d <= 2 ^ (d' - 1)) by (apply Z.pow_le_mono_r; lia). lia.
Qed.

Lemma shr_1_inv (mrs : shr_record) (N D : Z) :
  shr_inv mrs N D ->
  shr_inv (shr_1 mrs) N (2 * D) /\ shr_m (shr_1 mrs) = shr_m mrs / 2.
Proof.
  intros (HD & Hm & rho & HN & Hrho & Hr & Hs).
  destruct mrs as [m r s]. cbn [shr_m shr_r shr_s] in *.
  assert (Hrs : (r || s)%bool = negb (rho =? 0)).
  { rewrite Hr, Hs.
    destruct (Z.eqb_spec rho 0), (Z.eqb_spec (2 * rho) D), (Z.leb_spec D (2 * rho));
      cbn; try reflexivity; lia. }
  destruct m as [| p | p]; [| | lia].
  - cbn [shr_1]. split; [| reflexivity].
    split; [lia |]. split; [cbn; lia |]. exists rho. cbn [shr_m shr_r shr_s].
    split; [lia |]. split; [lia |]. rewrite Hrs.
    split.
    + symmetry. apply Z.leb_gt. lia.
    + destruct (Z.eqb_spec rho 0), (Z.eqb_spec (2 * rho) (2 * D)); cbn; try reflexivity; lia.
  - destruct p as [p | p |]; cbn [shr_1].
    + split; [| cbn [shr_m]; rewrite Pos2Z.inj_xI;
                 apply (Z.div_unique_pos _ 2 _ 1); lia].
      split; [lia |]. split; [cbn; lia |]. exists (D + rho). cbn [shr_m shr_r shr_s].
      split; [lia |]. split; [lia |]. rewrite Hrs.
      split.
      * symmetry. apply Z.leb_le. lia.
      * destruct (Z.eqb_spec rho 0), (Z.eqb_spec (D + rho) 0),
          (Z.eqb_spec (2 * (D + rho)) (2 * D)); cbn; try reflexivity; lia.
    + split; [| cbn [shr_m]; rewrite Pos2Z.inj_xO;
                 apply (Z.div_unique_pos _ 2 _ 0); lia].
      split; [lia |]. split; [cbn; lia |]. exists rho. cbn [shr_m shr_r shr_s].
      split; [lia |]. split; [lia |]. rewrite Hrs.
      split.
      * symmetry. apply Z.leb_gt. lia.
      * destruct (Z.eqb_spec rho 0), (Z.eqb_spec (2 * rho) (2 * D)); cbn; try reflexivity; lia.
    + split; [| reflexivity].
      split; [lia |]. split; [cbn; lia |]. exists (D + rho). cbn [shr_m shr_r shr_s].
      split; [lia |]. split; [lia |]. rewrite Hrs.
      split.
      * symmetry. apply Z.leb_le. lia.
      * destruct (Z.eqb_spec rho 0), (Z.eqb_spec (D + rho) 0),
          (Z.eqb_spec (2 * (D + rho)) (2 * D)); cbn; try reflexivity; lia.
Qed.

Lemma iter_pos_shr_1_inv (p : positive) (mrs : shr_record) (N D : Z) :
  shr_inv mrs N D ->
  shr_inv (SpecFloat.iter_pos shr_1 p mrs) N (D * 2 ^ Zpos p) /\
  shr_m (SpecFloat.iter_pos shr_1 p mrs) = shr_m mrs / 2 ^ Zpos p.
Proof.
  revert mrs D. induction p as [p IH | p IH |]; intros mrs D H; cbn [SpecFloat.iter_pos].
  - destruct (shr_1_inv _ _ _ H) as [H1 E1].
    destruct (IH _ _ H1) as [H2 E2]. destruct (IH _ _ H2) as [H3 E3].
    assert (Hp : 2 ^ Zpos p~1 = 2 * 2 ^ Zpos p * 2 ^ Zpos p).
    { rewrite Pos2Z.inj_xI.
      replace (2 * Zpos p + 1) with (Zpos p + Zpos p + 1) by lia.
      rewrite !Z.pow_add_r by lia. rewrite Z.pow_1_r. lia. }
    assert (0 < 2 ^ Zpos p) by (apply Z.pow_pos_nonneg; lia).
    split.
    + rewrite Hp. replace (D * (2 * 2 ^ Zpos p * 2 ^ Zpos p))
        with (2 * D * 2 ^ Zpos p * 2 ^ Zpos p) by lia. exact H3.
    + rewrite E3, E2, E1, Hp. rewrite !Z.div_div by lia. f_equal. lia.
  - destruct (IH _ _ H) as [H2 E2]. destruct (IH _ _ H2) as [H3 E3].
    assert (Hp : 2 ^ Zpos p~0 = 2 ^ Zpos p * 2 ^ Zpos p).
    { change (Zpos p~0) with (2 * Zpos p). apply Z.pow_twice_r. }
    assert (0 < 2 ^ Zpos p) by (apply Z.pow_pos_nonneg; lia).
    split.
    + rewrite Hp. replace (D * (2 ^ Zpos p * 2 ^ Zpos p))
        with (D * 2 ^ Zpos p * 2 ^ Zpos p) by lia. exact H3.
    + rewrite E3, E2, Hp. rewrite !Z.div_div by lia. reflexivity.
  - destruct (shr_1_inv _ _ _ H) as [H1 E1].
    change (2 ^ 1) with 2. split; [replace (D * 2) with (2 * D) by lia; exact H1 | exact E1].
Qed.

Lemma shr_record_of_loc_inv_exact (m : Z) :
  0 <= m -> shr_inv (shr_record_of_loc m loc_Exact) m 1.
Proof.
  intros Hm. split; [lia |]. split; [exact Hm |]. exists 0. cbn. repeat split; lia.
Qed.

(** Rounding to nearest: within half a unit of the quotient. *)
Lemma round_nearest_even_inv (mrs : shr_record) (N D : Z) :
  shr_inv mrs N D ->
  let mr := round_nearest_even (shr_m mrs) (loc_of_shr_record mrs) in
  2 * Z.abs (mr * D - N) <= D /\ shr_m mrs <= mr <= shr_m mrs + 1 /\
  (shr_r mrs = false -> shr_s mrs = false -> mr * D = N).
Proof.
  intros (HD & Hm & rho & HN & Hrho & Hr & Hs). cbv zeta.
  destruct mrs as [m r s]. cbn [shr_m shr_r shr_s loc_of_shr_record] in *.
  destruct (Z.eqb_spec rho 0) as [H0 | H0], (Z.eqb_spec (2 * rho) D) as [H2 | H2],
    (Z.leb_spec D (2 * rho)) as [Hh | Hh];
    cbn [negb andb] in Hs; subst r s; cbn [round_nearest_even];
    try (destruct (Z.even m));
    (split; [lia |]); (split; [lia |]); intros; try discriminate; lia.
Qed.

End RoundingZ.

Section RoundAux.
Local Open Scope Z_scope.

Lemma fexp_normal (z : Z) : -1074 <= z - 53 -> fexp prec emax z = z - 53.
Proof. intros H. unfold fexp, emin, prec, emax. lia. Qed.

Lemma fexp_ge_emin (z : Z) : -1074 <= fexp prec emax z.
Proof. unfold fexp, emin, prec, emax. lia. Qed.

Lemma fexp_cases (z : Z) :
  (fexp prec emax z = z - 53 /\ -1074 <= z - 53) \/
  (fexp prec emax z = -1074 /\ z - 53 < -1074).
Proof. unfold fexp, emin, prec, emax. lia. Qed.

(** No shift and nothing to round: the mantissa is kept. *)
Lemma binary_round_aux_exact (sx : bool) (m : positive) (ex : Z) :
  fexp prec emax (Zpos (digits2_pos m) + ex) = ex -> ex <= 971 ->
  binary_round_aux prec emax sx (Zpos m) ex loc_Exact = S754_finite sx m ex.
Proof.
  intros Hf He. unfold binary_round_aux, shr_fexp. cbn [Zdigits2].
  rewrite Hf, Z.sub_diag. cbn [shr shr_record_of_loc shr_m loc_of_shr_record
                               round_nearest_even Zdigits2].
  rewrite Hf, Z.sub_diag. cbn [shr shr_record_of_loc shr_m].
  replace (ex <=? emax - prec) with true; [reflexivity |].
  symmetry. apply Z.leb_le. unfold emax, prec. lia.
Qed.

(** The shift of [shr_fexp] when the mantissa has at least 53 digits and
    the result is in the normal range. *)
Lemma shr_fexp_normal (m : positive) (ex : Z) (lx : location) (N D : Z) :
  let d := Zpos (digits2_pos m) in
  53 <= d -> -1074 <= d + ex - 53 ->
  shr_inv (shr_record_of_loc (Zpos m) lx) N D ->
  exists mrs,
    shr_fexp prec emax (Zpos m) ex lx = (mrs, d + ex - 53) /\
    shr_inv mrs N (D * 2 ^ (d - 53)) /\
    2 ^ 52 <= shr_m mrs < 2 ^ 53.
Proof.
  intros d Hd He Hinv. unfold shr_fexp. cbn [Zdigits2]. fold d.
  rewrite (fexp_normal _ He).
  replace (d + ex - 53 - ex) with (d - 53) by lia.
  destruct (digits2_bounds m) as [Hlo Hhi]. fold d in Hlo, Hhi.
  assert (Hsplit : 2 ^ (d - 1) = 2 ^ 52 * 2 ^ (d - 53)).
  { rewrite <- Z.pow_add_r by lia. f_equal. lia. }
  assert (Hsplit' : 2 ^ d = 2 ^ 53 * 2 ^ (d - 53)).
  { rewrite <- Z.pow_add_r by lia. f_equal. lia. }
  assert (Hp : 0 < 2 ^ (d - 53)) by (apply Z.pow_pos_nonneg; lia).
  destruct (d - 53) as [| n | n] eqn:Hn; [| | lia].
  - exists (shr_record_of_loc (Zpos m) lx). cbn [shr].
    split; [f_equal; lia |].
    change (2 ^ 0) with 1 in *. rewrite Z.mul_1_r.
    split; [exact Hinv |].
    assert (shr_m (shr_record_of_loc (Zpos m) lx) = Zpos m) as ->
        by (destruct lx as [| []]; reflexivity).
    lia.
  - destruct (iter_pos_shr_1_inv n _ _ _ Hinv) as [Hinv' Hm'].
    exists (SpecFloat.iter_pos shr_1 n (shr_record_of_loc (Zpos m) lx)). cbn [shr].
    split; [f_equal; lia |]. split; [exact Hinv' |].
    rewrite Hm'.
    assert (shr_m (shr_record_of_loc (Zpos m) lx) = Zpos m) as ->
        by (destruct lx as [| []]; reflexivity).
    split.
    + apply Z.div_le_lower_bound; lia.
    + apply Z.div_lt_upper_bound; lia.
Qed.

(** Rounding in the normal range: the result is a 53-digit mantissa within
    half a unit of the last place of the quotient [N / D]. *)
Lemma binary_round_aux_normal (sx : bool) (m : positive) (ex : Z) (lx : location)
    (N D : Z) :
  let d := Zpos (digits2_pos m) in
  53 <= d -> -1074 <= d + ex - 53 -> d + ex <= 1023 ->
  shr_inv (shr_record_of_loc (Zpos m) lx) N D ->
  exists (m' : positive) (e' : Z),
    binary_round_aux prec emax sx (Zpos m) ex lx = S754_finite sx m' e' /\
    ex <= e' /\
    2 * Z.abs (Zpos m' * 2 ^ (e' - ex) * D - N) <= 2 ^ (d - 53) * D /\
    (lx = loc_Exact -> d = 53 -> m' = m /\ e' = ex).
Proof.
  intros d Hd He Hov Hinv.
  destruct (shr_fexp_normal m ex lx N D Hd He Hinv) as (mrs & Hshr & Hinv1 & Hm1).
  fold d in Hshr, Hinv1.
  destruct (round_nearest_even_inv _ _ _ Hinv1) as (Herr & Hmr & Hex).
  cbv zeta in Herr, Hmr, Hex.
  set (mr := round_nearest_even (shr_m mrs) (loc_of_shr_record mrs)) in *.
  unfold binary_round_aux. rewrite Hshr. fold mr.
  assert (Hp : 0 < 2 ^ (d - 53)) by (apply Z.pow_pos_nonneg; lia).
  assert (Hmrpos : 0 < mr) by lia.
  destruct mr as [| pr | pr] eqn:Hmreq; [lia | | lia].
  destruct (Z.eq_dec (Zpos pr) (2 ^ 53)) as [Hcarry | Hnocarry].
  - (* the rounding carried into a 54th digit *)
    assert (pr = 9007199254740992%positive) as -> by (apply Pos2Z.inj; exact Hcarry).
    unfold shr_fexp. cbn [Zdigits2].
    replace (Zpos (digits2_pos 9007199254740992)) with 54 by (vm_compute; reflexivity).
    rewrite fexp_normal by lia.
    replace (54 + (d + ex - 53) - 53 - (d + ex - 53)) with 1 by lia.
    cbn [shr shr_record_of_loc SpecFloat.iter_pos shr_1 shr_m].
    replace (d + ex - 53 + 1 <=? emax - prec) with true
      by (symmetry; apply Z.leb_le; unfold emax, prec; lia).
    eexists _, _. split; [reflexivity |]. split; [lia |].
    split.
    + replace (d + ex - 53 + 1 - ex) with (1 + (d - 53)) by lia.
      rewrite Z.pow_add_r by lia. change (2 ^ 1) with 2.
      replace (4503599627370496 * (2 * 2 ^ (d - 53)) * D - N)
        with (9007199254740992 * (D * 2 ^ (d - 53)) - N) by lia.
      replace (2 ^ (d - 53) * D) with (D * 2 ^ (d - 53)) by lia. exact Herr.
    + intros -> Hd53. exfalso.
      assert (Hz : d - 53 = 0) by lia. rewrite Hz in *. 
      change (2 ^ 0) with 1 in *. rewrite Z.mul_1_r in *.
      destruct Hinv1 as (_ & _ & rho & HN1 & Hrho1 & _).
      destruct Hinv as (_ & _ & rho0 & HN0 & Hrho0 & Hr0 & Hs0).
      cbn [shr_record_of_loc shr_m shr_r shr_s] in *.
      destruct (digits2_bounds m) as [_ Hhi]. fold d in Hhi.
      replace d with 53 in Hhi by lia.
      destruct (Z.eqb_spec rho0 0), (Z.leb_spec D (2 * rho0)); cbn in Hs0, Hr0;
        try discriminate; nia.
  - assert (Hdig : Zpos (digits2_pos pr) = 53).
    { apply digits2_unique; [| lia]. change (2 ^ (53 - 1)) with (2 ^ 52). lia. }
    unfold shr_fexp. cbn [Zdigits2]. rewrite Hdig.
    rewrite fexp_normal by lia.
    replace (53 + (d + ex - 53) - 53 - (d + ex - 53)) with 0 by lia.
    cbn [shr shr_record_of_loc shr_m].
    replace (d + ex - 53 <=? emax - prec) with true
      by (symmetry; apply Z.leb_le; unfold emax, prec; lia).
    exists pr, (d + ex - 53). split; [reflexivity |]. split; [lia |].
    split.
    + replace (d + ex - 53 - ex) with (d - 53) by lia.
      replace (Zpos pr * 2 ^ (d - 53) * D - N)
        with (Zpos pr * (D * 2 ^ (d - 53)) - N) by lia.
      replace (2 ^ (d - 53) * D) with (D * 2 ^ (d - 53)) by lia. exact Herr.
    + intros -> Hd53.
      assert (Hz : d - 53 = 0) by lia. rewrite Hz in *.
      change (2 ^ 0) with 1 in *. rewrite Z.mul_1_r in *.
      split; [| lia].
      destruct Hinv as (_ & _ & rho0 & HN0 & Hrho0 & Hr0 & Hs0).
      cbn [shr_record_of_loc shr_m shr_r shr_s] in *.
      assert (rho0 = 0) by lia. subst rho0.
      assert (Hmrs : mrs = shr_record_of_loc (Zpos m) loc_Exact).
      { unfold shr_fexp in Hshr. cbn [Zdigits2] in Hshr. fold d in Hshr.
        rewrite fexp_normal in Hshr by lia.
        replace (d + ex - 53 - ex) with 0 in Hshr by lia.
        cbn [shr] in Hshr. congruence. }
      subst mrs. cbn in Hmreq. congruence.
Qed.

(** [Pos.iter xO] is the multiplication by a power of two. *)
Lemma iter_xO_spec (m k : positive) :
  Zpos (Pos.iter xO m k) = Zpos m * 2 ^ Zpos k.
Proof.
  induction k as [| k IH] using Pos.peano_ind.
  - cbn. lia.
  - rewrite Pos.iter_succ, Pos2Z.inj_xO, IH, Pos2Z.inj_succ, Z.pow_succ_r by lia. lia.
Qed.

Lemma shl_align_spec (mx : positive) (ex ex' : Z) :
  let '(mz, ez) := shl_align mx ex ex' in
  ez = Z.min ex ex' /\ Zpos mz = Zpos mx * 2 ^ (ex - ez).
Proof.
  unfold shl_align.
  destruct (ex' - ex) as [| d | d] eqn:Hd.
  - split; [lia |]. rewrite Z.sub_diag. lia.
  - split; [lia |]. rewrite Z.sub_diag. lia.
  - split; [lia |]. rewrite iter_xO_spec. f_equal. f_equal. lia.
Qed.

Lemma digits2_shift (m mz : positive) (k : Z) :
  0 <= k -> Zpos mz = Zpos m * 2 ^ k ->
  Zpos (digits2_pos mz) = Zpos (digits2_pos m) + k.
Proof.
  intros Hk Hmz. apply digits2_unique; [| lia].
  destruct (digits2_bounds m) as [Hlo Hhi].
  assert (Hp : 0 < 2 ^ k) by (apply Z.pow_pos_nonneg; lia).
  replace (Zpos (digits2_pos m) + k - 1) with (Zpos (digits2_pos m) - 1 + k) by lia.
  rewrite !Z.pow_add_r by lia. rewrite Hmz. nia.
Qed.

End RoundAux.

Section RealValue.
Local Open Scope R_scope.

Lemma bpow_pos (e : Z) : 0 < bpow e.
Proof. apply powerRZ_lt. lra. Qed.

Lemma bpow_add (a b : Z) : bpow (a + b) = bpow a * bpow b.
Proof. apply powerRZ_add. lra. Qed.

Lemma bpow_IZR (k : Z) : (0 <= k)%Z -> bpow k = IZR (2 ^ k).
Proof.
  intros Hk. unfold bpow. destruct k as [| p | p]; [reflexivity | | lia].
  symmetry. apply Zpower_pos_powerRZ.
Qed.

Lemma bpow_1 : bpow 1 = 2.
Proof. exact (powerRZ_1 2). Qed.

Lemma bpow_m1 : bpow (-1) = / 2.
Proof.
  unfold bpow. change (-1)%Z with (- (1))%Z. rewrite powerRZ_neg'.
  f_equal. exact (powerRZ_1 2).
Qed.

Lemma bpow_le (a b : Z) : (a <= b)%Z -> bpow a <= bpow b.
Proof.
  intros H. replace b with (a + (b - a))%Z by lia. rewrite bpow_add.
  rewrite (bpow_IZR (b - a)) by lia.
  assert (1 <= IZR (2 ^ (b - a))).
  { apply IZR_le. assert (0 < 2 ^ (b - a))%Z by (apply Z.pow_pos_nonneg; lia). lia. }
  pose proof (bpow_pos a). nra.
Qed.

Lemma bpow_lt (a b : Z) : (a < b)%Z -> bpow a < bpow b.
Proof.
  intros H. replace b with (a + (b - a))%Z by lia. rewrite bpow_add.
  rewrite (bpow_IZR (b - a)) by lia.
  assert (2 <= IZR (2 ^ (b - a))).
  { apply IZR_le. replace (b - a)%Z with (1 + (b - a - 1))%Z by lia.
    rewrite Z.pow_add_r by lia.
    assert (0 < 2 ^ (b - a - 1))%Z by (apply Z.pow_pos_nonneg; lia). lia. }
  pose proof (bpow_pos a). nra.
Qed.

Lemma bpow_lt_inv (a b : Z) : bpow a < bpow b -> (a < b)%Z.
Proof.
  intros H. destruct (Z_lt_le_dec a b) as [Hlt | Hge]; [exact Hlt |].
  pose proof (bpow_le b a Hge). lra.
Qed.

Lemma bpow_shift (m : Z) (a b : Z) :
  (b <= a)%Z -> IZR (m * 2 ^ (a - b)) * bpow b = IZR m * bpow a.
Proof.
  intros H. rewrite mult_IZR, <- bpow_IZR by lia.
  replace a with ((a - b) + b)%Z at 2 by lia. rewrite bpow_add. ring.
Qed.

(** The magnitude of a number of [d] digits at exponent [e]. *)
Lemma digits_bpow (m : positive) (e : Z) :
  let d := Zpos (digits2_pos m) in
  bpow (d - 1 + e) <= IZR (Zpos m) * bpow e < bpow (d + e).
Proof.
  cbv zeta. destruct (digits2_bounds m) as [Hlo Hhi].
  rewrite !bpow_add. pose proof (bpow_pos e) as He.
  rewrite (bpow_IZR (Zpos (digits2_pos m) - 1)), (bpow_IZR (Zpos (digits2_pos m))) by lia.
  apply IZR_le in Hlo. apply IZR_lt in Hhi. split.
  - apply Rmult_le_compat_r; [lra | exact Hlo].
  - apply Rmult_lt_compat_r; [lra | exact Hhi].
Qed.

Lemma SF2R_cond_Zopp (s : bool) (m : positive) (e : Z) :
  Rabs (SF2R (S754_finite s m e)) = IZR (Zpos m) * bpow e.
Proof.
  cbn [SF2R]. rewrite Rabs_mult, (Rabs_pos_eq (bpow e)) by (left; apply bpow_pos).
  destruct s; cbn [cond_Zopp].
  - rewrite <- abs_IZR. reflexivity.
  - rewrite <- abs_IZR. reflexivity.
Qed.

Lemma u53_bpow : u53 = bpow (-53).
Proof.
  unfold u53, bpow. change (-53)%Z with (- (53))%Z. rewrite powerRZ_neg'.
  f_equal. change (powerRZ 2 53) with (bpow 53). rewrite bpow_IZR by lia. reflexivity.
Qed.

(** ** Rounding, in real terms *)

(** The result of rounding a quotient [N / D] of at least 53 digits, in
    the normal range: within the relative error [2^-53]. *)
Lemma binary_round_aux_rel (sx : bool) (m : positive) (ex : Z) (lx : location)
    (N D : Z) :
  let d := Zpos (digits2_pos m) in
  (53 <= d)%Z -> (-1074 <= d + ex - 53)%Z -> (d + ex <= 1023)%Z ->
  shr_inv (shr_record_of_loc (Zpos m) lx) N D ->
  exists (m' : positive) (e' : Z),
    binary_round_aux prec emax sx (Zpos m) ex lx = S754_finite sx m' e' /\
    Rabs (IZR (Zpos m') * bpow e' - IZR N / IZR D * bpow ex)
      <= u53 * (IZR N / IZR D * bpow ex) /\
    (lx = loc_Exact -> d = 53%Z -> m' = m /\ e' = ex).
Proof.
  intros d Hd He Hov Hinv.
  destruct (binary_round_aux_normal sx m ex lx N D Hd He Hov Hinv)
    as (m' & e' & Hres & Hee & Herr & Hex).
  fold d in Herr, Hex.
  exists m', e'. split; [exact Hres |]. split; [| exact Hex].
  destruct Hinv as (HD & _ & rho & HN & Hrho & _).
  cbn [shr_m] in HN.
  assert (Hm : shr_m (shr_record_of_loc (Zpos m) lx) = Zpos m)
    by (destruct lx as [| []]; reflexivity).
  rewrite Hm in HN.
  destruct (digits2_bounds m) as [Hlo _]. fold d in Hlo.
  assert (HDr : 0 < IZR D) by (apply IZR_lt; exact HD).
  pose proof (bpow_pos ex) as Hbe.
  (* everything in units of [bpow ex / D] *)
  replace (IZR (Zpos m') * bpow e' - IZR N / IZR D * bpow ex)
    with (IZR (Zpos m' * 2 ^ (e' - ex) * D - N) * (bpow ex / IZR D)).
  2:{ rewrite minus_IZR, mult_IZR. rewrite <- (bpow_shift (Zpos m') e' ex) by lia.
      field. lra. }
  rewrite Rabs_mult, <- abs_IZR.
  assert (Hq : 0 < bpow ex / IZR D) by (apply Rdiv_lt_0_compat; assumption).
  rewrite (Rabs_pos_eq (bpow ex / IZR D)) by lra.
  replace (u53 * (IZR N / IZR D * bpow ex))
    with (u53 * IZR N * (bpow ex / IZR D)) by (field; lra).
  apply Rmult_le_compat_r; [lra |].
  (* 2^53 * |...| <= N *)
  assert (HZ : (9007199254740992 * Z.abs (Zpos m' * 2 ^ (e' - ex) * D - N) <= N)%Z).
  { assert (Hs : (2 ^ (d - 1) = 4503599627370496 * 2 ^ (d - 53))%Z).
    { change 4503599627370496%Z with (2 ^ 52)%Z.
      rewrite <- Z.pow_add_r by lia. f_equal. lia. }
    assert (Hp : (0 < 2 ^ (d - 53))%Z) by (apply Z.pow_pos_nonneg; lia).
    nia. }
  apply IZR_le in HZ. rewrite mult_IZR in HZ. unfold u53. 
  set (A := IZR (Z.abs (Zpos m' * 2 ^ (e' - ex) * D - N))) in *.
  lra.
Qed.

End RealValue.

Section AddSub.
Local Open Scope R_scope.

Lemma valid_finite (s : bool) (m : positive) (e : Z) :
  SpecFloat.valid_binary prec emax (S754_finite s m e) = true ->
  (-1074 <= e <= 971)%Z /\ fexp prec emax (Zpos (digits2_pos m) + e) = e.
Proof.
  cbn [SpecFloat.valid_binary]. unfold SpecFloat.bounded, SpecFloat.canonical_mantissa.
  intros H. apply andb_true_iff in H. destruct H as [H1 H2].
  apply Z.eqb_eq in H1. apply Z.leb_le in H2. unfold emax, prec in H2.
  pose proof (fexp_ge_emin (Zpos (digits2_pos m) + e)). split; [lia | exact H1].
Qed.

Lemma binary_round_rel (sx : bool) (mx : positive) (ex : Z) :
  (-1074 <= ex)%Z -> (Zpos (digits2_pos mx) + ex <= 1023)%Z ->
  exists (m : positive) (e : Z),
    binary_round prec emax sx mx ex = S754_finite sx m e /\
    Rabs (IZR (Zpos m) * bpow e - IZR (Zpos mx) * bpow ex)
      <= u53 * (IZR (Zpos mx) * bpow ex).
Proof.
  intros Hex Hov. unfold binary_round.
  set (d := Zpos (digits2_pos mx)) in *.
  pose proof (shl_align_spec mx ex (fexp prec emax (d + ex))) as Hal.
  destruct (shl_align mx ex (fexp prec emax (d + ex))) as [mz ez].
  destruct Hal as [Hez Hmz].
  assert (Hpos : 0 <= u53 * (IZR (Zpos mx) * bpow ex)).
  { unfold u53. pose proof (bpow_pos ex).
    assert (0 < IZR (Zpos mx)) by (apply IZR_lt; lia).
    apply Rmult_le_pos; [lra |]. apply Rmult_le_pos; lra. }
  destruct (Z_le_gt_dec (fexp prec emax (d + ex)) ex) as [Hle | Hgt].
  - (* no rounding *)
    assert (Hdz : Zpos (digits2_pos mz) = (d + (ex - ez))%Z)
      by (apply digits2_shift; [lia | exact Hmz]).
    exists mz, ez. split.
    + apply binary_round_aux_exact.
      * rewrite Hdz. replace (d + (ex - ez) + ez)%Z with (d + ex)%Z by lia. lia.
      * destruct (fexp_cases (d + ex)) as [[Hf _] | [Hf _]]; lia.
    + rewrite Hmz, bpow_shift by lia.
      replace (IZR (Zpos mx) * bpow ex - IZR (Zpos mx) * bpow ex) with 0 by ring.
      rewrite Rabs_R0. exact Hpos.
  - assert (Hezx : ez = ex) by lia. clear Hez. subst ez.
    assert (mz = mx).
    { apply Pos2Z.inj. rewrite Hmz, Z.sub_diag. lia. }
    subst mz.
    destruct (fexp_cases (d + ex)) as [[Hf Hn] | [Hf Hn]]; [| lia].
    destruct (binary_round_aux_rel sx mx ex loc_Exact (Zpos mx) 1) as (m' & e' & Hres & Herr & _).
    + fold d. lia.
    + fold d. lia.
    + fold d. lia.
    + apply shr_record_of_loc_inv_exact. lia.
    + exists m', e'. split; [exact Hres |].
      replace (IZR (Zpos mx) / 1) with (IZR (Zpos mx)) in Herr by field. exact Herr.
Qed.

Lemma binary_normalize_rel (S : Z) (ez : Z) :
  (-1074 <= ez)%Z -> Rabs (IZR S * bpow ez) < bpow 1000 ->
  SF_finite (binary_normalize prec emax S ez false) = true /\
  Rabs (SF2R (binary_normalize prec emax S ez false) - IZR S * bpow ez)
    <= u53 * Rabs (IZR S * bpow ez).
Proof.
  intros Hez Hov. pose proof (bpow_pos ez) as Hbe.
  destruct S as [| p | p]; cbn [binary_normalize].
  - split; [reflexivity |]. cbn [SF2R]. rewrite Rmult_0_l, Rminus_0_r, Rabs_R0. lra.
  - assert (Hp : 0 < IZR (Zpos p)) by (apply IZR_lt; lia).
    rewrite (Rabs_pos_eq (IZR (Zpos p) * bpow ez)) in * by (apply Rmult_le_pos; lra).
    destruct (digits_bpow p ez) as [Hlo _]. cbv zeta in Hlo.
    assert (Hd : (Zpos (digits2_pos p) - 1 + ez < 1000)%Z) by (apply bpow_lt_inv; lra).
    destruct (binary_round_rel false p ez Hez ltac:(lia)) as (m & e & -> & Herr).
    split; [reflexivity |]. cbn [SF2R cond_Zopp]. exact Herr.
  - assert (Hp : 0 < IZR (Zpos p)) by (apply IZR_lt; lia).
    assert (HT : IZR (Zneg p) * bpow ez = - (IZR (Zpos p) * bpow ez)).
    { change (Zneg p) with (- Zpos p)%Z. rewrite opp_IZR. ring. }
    rewrite HT in *. rewrite Rabs_Ropp in *.
    rewrite (Rabs_pos_eq (IZR (Zpos p) * bpow ez)) in * by (apply Rmult_le_pos; lra).
    destruct (digits_bpow p ez) as [Hlo _]. cbv zeta in Hlo.
    assert (Hd : (Zpos (digits2_pos p) - 1 + ez < 1000)%Z) by (apply bpow_lt_inv; lra).
    destruct (binary_round_rel true p ez Hez ltac:(lia)) as (m & e & -> & Herr).
    split; [reflexivity |]. cbn [SF2R cond_Zopp].
    change (Zneg m) with (- Zpos m)%Z. rewrite opp_IZR.
    replace (- IZR (Zpos m) * bpow e - - (IZR (Zpos p) * bpow ez))
      with (- (IZR (Zpos m) * bpow e - IZR (Zpos p) * bpow ez)) by ring.
    rewrite Rabs_Ropp. exact Herr.
Qed.

(** The two mantissas of a sum, aligned on the smaller exponent. *)
Lemma aligned_value (s : bool) (m : positive) (e ez : Z) :
  (ez <= e)%Z ->
  IZR (cond_Zopp s (Zpos (fst (shl_align m e ez)))) * bpow ez
  = SF2R (S754_finite s m e).
Proof.
  intros H. pose proof (shl_align_spec m e ez) as Hal.
  destruct (shl_align m e ez) as [mz ez']. destruct Hal as [Hez Hmz]. cbn [fst SF2R].
  assert (Hezz : ez' = ez) by lia. clear Hez. subst ez'.
  destruct s; cbn [cond_Zopp].
  - change (Zneg mz) with (- Zpos mz)%Z. change (Zneg m) with (- Zpos m)%Z.
    rewrite !opp_IZR, Hmz.
    replace (- IZR (Zpos m * 2 ^ (e - ez)) * bpow ez)
      with (- (IZR (Zpos m * 2 ^ (e - ez)) * bpow ez)) by ring.
    rewrite bpow_shift by lia. ring.
  - rewrite Hmz, bpow_shift by lia. reflexivity.
Qed.

Lemma SFadd_rel (x y : spec_float) :
  SpecFloat.valid_binary prec emax x = true ->
  SpecFloat.valid_binary prec emax y = true ->
  SF_finite x = true -> SF_finite y = true ->
  Rabs (SF2R x + SF2R y) < bpow 1000 ->
  SF_finite (SFadd prec emax x y) = true /\
  Rabs (SF2R (SFadd prec emax x y) - (SF2R x + SF2R y)) <= u53 * Rabs (SF2R x + SF2R y).
Proof.
  intros Vx Vy Fx Fy Hov.
  assert (Hu : forall t, 0 <= u53 * Rabs t).
  { intros t. unfold u53. pose proof (Rabs_pos t). apply Rmult_le_pos; lra. }
  destruct x as [sx | sx | | sx mx ex], y as [sy | sy | | sy my ey]; try discriminate.
  - cbn [SFadd]. destruct sx, sy; cbn [SF_finite SF2R];
      (split; [reflexivity |]);
      rewrite Rplus_0_l, Rminus_0_r, Rabs_R0; lra.
  - cbn [SFadd]. split; [reflexivity |]. cbn [SF2R].
    rewrite Rplus_0_l, Rminus_diag_eq by reflexivity. rewrite Rabs_R0. apply Hu.
  - cbn [SFadd]. split; [reflexivity |]. cbn [SF2R].
    rewrite Rplus_0_r, Rminus_diag_eq by reflexivity. rewrite Rabs_R0. apply Hu.
  - destruct (valid_finite _ _ _ Vx) as [Hex _]. destruct (valid_finite _ _ _ Vy) as [Hey _].
    cbn [SFadd]. cbv zeta.
    set (ez := Z.min ex ey).
    assert (HT : SF2R (S754_finite sx mx ex) + SF2R (S754_finite sy my ey)
                 = IZR (cond_Zopp sx (Zpos (fst (shl_align mx ex ez))) +
                        cond_Zopp sy (Zpos (fst (shl_align my ey ez)))) * bpow ez).
    { rewrite plus_IZR, Rmult_plus_distr_r, !aligned_value by (subst ez; lia). reflexivity. }
    rewrite HT in *. apply binary_normalize_rel; [subst ez; lia | exact Hov].
Qed.

Lemma SFsub_rel (x y : spec_float) :
  SpecFloat.valid_binary prec emax x = true ->
  SpecFloat.valid_binary prec emax y = true ->
  SF_finite x = true -> SF_finite y = true ->
  Rabs (SF2R x - SF2R y) < bpow 1000 ->
  SF_finite (SFsub prec emax x y) = true /\
  Rabs (SF2R (SFsub prec emax x y) - (SF2R x - SF2R y)) <= u53 * Rabs (SF2R x - SF2R y).
Proof.
  intros Vx Vy Fx Fy Hov.
  assert (Hu : forall t, 0 <= u53 * Rabs t).
  { intros t. unfold u53. pose proof (Rabs_pos t). apply Rmult_le_pos; lra. }
  destruct x as [sx | sx | | sx mx ex], y as [sy | sy | | sy my ey]; try discriminate.
  - cbn [SFsub]. destruct sx, sy; cbn [SF_finite SF2R];
      (split; [reflexivity |]);
      rewrite Rminus_0_r, Rminus_0_r, Rabs_R0; lra.
  - cbn [SFsub]. split; [reflexivity |]. cbn [SF2R].
    replace (IZR (cond_Zopp (negb sy) (Zpos my)) * bpow ey -
             (0 - IZR (cond_Zopp sy (Zpos my)) * bpow ey)) with 0.
    + rewrite Rabs_R0. apply Hu.
    + destruct sy; cbn [negb cond_Zopp];
        change (Zneg my) with (- Zpos my)%Z; rewrite ?opp_IZR; ring.
  - cbn [SFsub]. split; [reflexivity |]. cbn [SF2R].
    rewrite Rminus_0_r, Rminus_diag_eq by reflexivity. rewrite Rabs_R0. apply Hu.
  - destruct (valid_finite _ _ _ Vx) as [Hex _]. destruct (valid_finite _ _ _ Vy) as [Hey _].
    cbn [SFsub]. cbv zeta.
    set (ez := Z.min ex ey).
    assert (HT : SF2R (S754_finite sx mx ex) - SF2R (S754_finite sy my ey)
                 = IZR (cond_Zopp sx (Zpos (fst (shl_align mx ex ez))) -
                        cond_Zopp sy (Zpos (fst (shl_align my ey ez)))) * bpow ez).
    { rewrite minus_IZR, Rmult_minus_distr_r, !aligned_value by (subst ez; lia).
      reflexivity. }
    rewrite HT in *. apply binary_normalize_rel; [subst ez; lia | exact Hov].
Qed.

End AddSub.

Section MulDiv.
Local Open Scope R_scope.

Lemma SF2R_sign (s : bool) (m : positive) (e : Z) :
  SF2R (S754_finite s m e) = (if s then -1 else 1) * (IZR (Zpos m) * bpow e).
Proof.
  cbn [SF2R]. destruct s; cbn [cond_Zopp].
  - change (Zneg m) with (- Zpos m)%Z. rewrite opp_IZR. ring.
  - ring.
Qed.

Lemma sign_xorb (sx sy : bool) :
  (if xorb sx sy then -1 else 1) = (if sx then -1 else 1) * (if sy then -1 else 1).
Proof. destruct sx, sy; cbn; ring. Qed.

Lemma Rabs_sign (s : bool) (t : R) : Rabs ((if s then -1 else 1) * t) = Rabs t.
Proof.
  destruct s.
  - replace (-1 * t) with (- t) by ring. apply Rabs_Ropp.
  - rewrite Rmult_1_l. reflexivity.
Qed.

Lemma digits_53_bounds (m : positive) :
  Zpos (digits2_pos m) = 53%Z -> (4503599627370496 <= Zpos m < 9007199254740992)%Z.
Proof.
  intros H. destruct (digits2_bounds m) as [Hlo Hhi]. rewrite H in Hlo, Hhi.
  change (2 ^ (53 - 1))%Z with 4503599627370496%Z in Hlo.
  change (2 ^ 53)%Z with 9007199254740992%Z in Hhi. lia.
Qed.

Lemma digits_ge (m : positive) (k : Z) :
  (2 ^ k <= Zpos m)%Z -> (0 <= k)%Z -> (k < Zpos (digits2_pos m))%Z.
Proof.
  intros H Hk. destruct (digits2_bounds m) as [_ Hhi].
  apply (Z.pow_lt_mono_r_iff 2); lia.
Qed.

Lemma digits_le (m : positive) (k : Z) :
  (Zpos m < 2 ^ k)%Z -> (0 <= k)%Z -> (Zpos (digits2_pos m) <= k)%Z.
Proof.
  intros H Hk. destruct (digits2_bounds m) as [Hlo _].
  assert (Hlt : (2 ^ (Zpos (digits2_pos m) - 1) < 2 ^ k)%Z) by lia.
  apply Z.pow_lt_mono_r_iff in Hlt; lia.
Qed.

Lemma SFmul_rel (sx sy : bool) (mx my : positive) (ex ey : Z) :
  Zpos (digits2_pos mx) = 53%Z -> Zpos (digits2_pos my) = 53%Z ->
  let x := S754_finite sx mx ex in
  let y := S754_finite sy my ey in
  bpow (-1000) <= Rabs (SF2R x * SF2R y) < bpow 1000 ->
  SF_finite (SFmul prec emax x y) = true /\
  Rabs (SF2R (SFmul prec emax x y) - SF2R x * SF2R y) <= u53 * Rabs (SF2R x * SF2R y).
Proof.
  intros Hdx Hdy x y Hmag. subst x y. cbn [SFmul].
  pose proof (digits_53_bounds _ Hdx) as Bx. pose proof (digits_53_bounds _ Hdy) as By.
  set (P := (mx * my)%positive).
  assert (HP : Zpos P = (Zpos mx * Zpos my)%Z) by reflexivity.
  assert (HT : SF2R (S754_finite sx mx ex) * SF2R (S754_finite sy my ey)
               = (if xorb sx sy then -1 else 1) * (IZR (Zpos P) * bpow (ex + ey))).
  { rewrite !SF2R_sign, sign_xorb, HP, mult_IZR, bpow_add. ring. }
  rewrite HT in *. rewrite Rabs_sign in *.
  assert (Hpos : 0 < IZR (Zpos P) * bpow (ex + ey)).
  { apply Rmult_lt_0_compat; [apply IZR_lt; lia | apply bpow_pos]. }
  rewrite (Rabs_pos_eq _ (Rlt_le _ _ Hpos)) in *.
  destruct (digits_bpow P (ex + ey)) as [Hlo Hhi]. cbv zeta in Hlo, Hhi.
  set (d := Zpos (digits2_pos P)) in *.
  assert (Hd : (104 < d)%Z).
  { apply digits_ge; [| lia].
    change (2 ^ 104)%Z with (4503599627370496 * 4503599627370496)%Z. nia. }
  assert (H1 : (-1000 < d + (ex + ey))%Z) by (apply bpow_lt_inv; lra).
  assert (H2 : (d - 1 + (ex + ey) < 1000)%Z) by (apply bpow_lt_inv; lra).
  destruct (binary_round_aux_rel (xorb sx sy) P (ex + ey) loc_Exact (Zpos P) 1)
    as (m' & e' & Hres & Herr & _).
  - fold d. lia.
  - fold d. lia.
  - fold d. lia.
  - apply shr_record_of_loc_inv_exact. lia.
  - rewrite Hres. split; [reflexivity |].
    replace (IZR (Zpos P) / 1) with (IZR (Zpos P)) in Herr by field.
    rewrite SF2R_sign, <- Rmult_minus_distr_l, Rabs_sign. exact Herr.
Qed.

Lemma new_location_inv (q r D : Z) :
  (0 < D)%Z -> (0 <= q)%Z -> (0 <= r < D)%Z ->
  shr_inv (shr_record_of_loc q (new_location D r)) (q * D + r) D.
Proof.
  intros HD Hq Hr.
  assert (Hm : forall l, shr_m (shr_record_of_loc q l) = q)
    by (intros [| []]; reflexivity).
  split; [exact HD |]. split; [rewrite Hm; exact Hq |].
  exists r. rewrite Hm. split; [reflexivity |]. split; [exact Hr |].
  unfold new_location, new_location_even, new_location_odd.
  destruct (Z.even D) eqn:Hev.
  - destruct (Z.eqb_spec r 0) as [-> | Hr0].
    + cbn. split; [symmetry; apply Z.leb_gt; lia |].
      destruct (Z.eqb_spec 0 D); [lia | reflexivity].
    + destruct (Z.compare_spec (2 * r) D) as [Hc | Hc | Hc]; cbn [shr_record_of_loc shr_r shr_s];
        destruct (Z.leb_spec D (2 * r)), (Z.eqb_spec (2 * r) D); cbn; try lia; split; reflexivity.
  - assert (Hodd : (2 * r <> D)%Z).
    { intros <-. rewrite Z.even_mul in Hev. discriminate. }
    destruct (Z.eqb_spec r 0) as [-> | Hr0].
    + cbn. split; [symmetry; apply Z.leb_gt; lia |].
      destruct (Z.eqb_spec 0 D); [lia | reflexivity].
    + destruct (Z.compare_spec (2 * r + 1) D) as [Hc | Hc | Hc]; cbn [shr_record_of_loc shr_r shr_s];
        destruct (Z.leb_spec D (2 * r)), (Z.eqb_spec (2 * r) D); cbn; try lia; split; reflexivity.
Qed.

Lemma SFdiv_rel (sx sy : bool) (mx my : positive) (ex ey : Z) :
  Zpos (digits2_pos mx) = 53%Z -> Zpos (digits2_pos my) = 53%Z ->
  let x := S754_finite sx mx ex in
  let y := S754_finite sy my ey in
  bpow (-1000) <= Rabs (SF2R x / SF2R y) < bpow 1000 ->
  SF_finite (SFdiv prec emax x y) = true /\
  Rabs (SF2R (SFdiv prec emax x y) - SF2R x / SF2R y) <= u53 * Rabs (SF2R x / SF2R y).
Proof.
  intros Hdx Hdy x y Hmag. subst x y. cbn [SFdiv].
  pose proof (digits_53_bounds _ Hdx) as Bx. pose proof (digits_53_bounds _ Hdy) as By.
  pose proof (bpow_pos ex) as Hbx. pose proof (bpow_pos ey) as Hby.
  assert (Hmx : 0 < IZR (Zpos mx)) by (apply IZR_lt; lia).
  assert (Hmy : 0 < IZR (Zpos my)) by (apply IZR_lt; lia).
  set (Q := IZR (Zpos mx) * bpow ex / (IZR (Zpos my) * bpow ey)).
  assert (HQpos : 0 < Q).
  { unfold Q. apply Rdiv_lt_0_compat; apply Rmult_lt_0_compat; assumption. }
  assert (HT : SF2R (S754_finite sx mx ex) / SF2R (S754_finite sy my ey)
               = (if xorb sx sy then -1 else 1) * Q).
  { rewrite !SF2R_sign, sign_xorb. unfold Q. destruct sx, sy; field; split; lra. }
  rewrite HT in *. rewrite Rabs_sign in *.
  rewrite (Rabs_pos_eq _ (Rlt_le _ _ HQpos)) in *.
  (* the exponent difference *)
  assert (HQe : Q = IZR (Zpos mx) / IZR (Zpos my) * bpow (ex - ey)).
  { unfold Q. replace ex with ((ex - ey) + ey)%Z at 1 by lia. rewrite bpow_add.
    field. split; lra. }
  assert (Hratio : / 2 < IZR (Zpos mx) / IZR (Zpos my) < 2).
  { assert (IZR (Zpos mx) < 9007199254740992) by (apply IZR_lt; lia).
    assert (4503599627370496 <= IZR (Zpos mx)) by (apply IZR_le; lia).
    assert (IZR (Zpos my) < 9007199254740992) by (apply IZR_lt; lia).
    assert (4503599627370496 <= IZR (Zpos my)) by (apply IZR_le; lia).
    split.
    - apply (Rmult_lt_reg_r (IZR (Zpos my))); [lra |].
      unfold Rdiv. rewrite Rmult_assoc, Rinv_l by lra. lra.
    - apply (Rmult_lt_reg_r (IZR (Zpos my))); [lra |].
      unfold Rdiv. rewrite Rmult_assoc, Rinv_l by lra. lra. }
  pose proof (bpow_pos (ex - ey)) as Hbd.
  assert (H1 : (-1000 < ex - ey + 1)%Z).
  { apply bpow_lt_inv. rewrite bpow_add, bpow_1. nra. }
  assert (H2 : (ex - ey - 1 < 1000)%Z).
  { apply bpow_lt_inv. replace (ex - ey - 1)%Z with (ex - ey + -1)%Z by lia.
    rewrite bpow_add, bpow_m1. nra. }
  unfold SFdiv_core_binary. cbn [Zdigits2]. rewrite Hdx, Hdy.
  replace (53 + ex - (53 + ey))%Z with (ex - ey)%Z by lia.
  rewrite fexp_normal by lia.
  replace (Z.min (ex - ey - 53) (ex - ey)) with (ex - ey - 53)%Z by lia.
  replace (ex - ey - (ex - ey - 53))%Z with 53%Z by lia.
  rewrite Z.shiftl_mul_pow2 by lia.
  set (M := (Zpos mx * 2 ^ 53)%Z).
  pose proof (Z_div_mod M (Zpos my) ltac:(lia)) as Hdm.
  destruct (Z.div_eucl M (Zpos my)) as [q r]. destruct Hdm as [HM Hr].
  assert (HMlo : (4503599627370496 * 9007199254740992 <= M)%Z).
  { subst M. change (2 ^ 53)%Z with 9007199254740992%Z. nia. }
  assert (HMhi : (M < 9007199254740992 * 9007199254740992)%Z).
  { subst M. change (2 ^ 53)%Z with 9007199254740992%Z. nia. }
  assert (Hqlo : (4503599627370496 <= q)%Z) by nia.
  assert (Hqhi : (q < 18014398509481984)%Z) by nia.
  destruct q as [| pq | pq]; [lia | | lia].
  assert (Hdq1 : (52 < Zpos (digits2_pos pq))%Z).
  { apply digits_ge; [| lia]. change (2 ^ 52)%Z with 4503599627370496%Z. lia. }
  assert (Hdq2 : (Zpos (digits2_pos pq) <= 54)%Z).
  { apply digits_le; [| lia]. change (2 ^ 54)%Z with 18014398509481984%Z. lia. }
  destruct (binary_round_aux_rel (xorb sx sy) pq (ex - ey - 53)
              (new_location (Zpos my) r) M (Zpos my))
    as (m' & e' & Hres & Herr & _).
  - lia.
  - lia.
  - lia.
  - rewrite HM. replace (Zpos my * Zpos pq + r)%Z with (Zpos pq * Zpos my + r)%Z by lia.
    apply new_location_inv; lia.
  - rewrite Hres. split; [reflexivity |].
    assert (HQM : IZR M / IZR (Zpos my) * bpow (ex - ey - 53) = Q).
    { rewrite HQe. subst M. rewrite mult_IZR, <- bpow_IZR by lia.
      replace (ex - ey)%Z with (53 + (ex - ey - 53))%Z at 2 by lia.
      rewrite bpow_add. field. lra. }
    rewrite HQM in Herr.
    rewrite SF2R_sign, <- Rmult_minus_distr_l, Rabs_sign. exact Herr.
Qed.

(** A finite number of magnitude at least [2^-1022] has a full mantissa. *)
Lemma normal_digits (s : bool) (m : positive) (e : Z) :
  SpecFloat.valid_binary prec emax (S754_finite s m e) = true ->
  bpow (-1022) <= Rabs (SF2R (S754_finite s m e)) ->
  Zpos (digits2_pos m) = 53%Z.
Proof.
  intros V Hmag. destruct (valid_finite _ _ _ V) as [He Hf].
  rewrite SF2R_cond_Zopp in Hmag.
  destruct (digits_bpow m e) as [_ Hhi]. cbv zeta in Hhi.
  assert (H1 : (-1022 < Zpos (digits2_pos m) + e)%Z) by (apply bpow_lt_inv; lra).
  rewrite fexp_normal in Hf by lia. lia.
Qed.

End MulDiv.

Section Comparisons.
Local Open Scope R_scope.

Lemma SF2R_pos (m : positive) (e : Z) : 0 < IZR (Zpos m) * bpow e.
Proof. apply Rmult_lt_0_compat; [apply IZR_lt; lia | apply bpow_pos]. Qed.

(** The order of two positive canonical numbers is the order of their
    exponents, then of their mantissas. *)
Lemma canonical_compare (m1 m2 : positive) (e1 e2 : Z) :
  SpecFloat.valid_binary prec emax (S754_finite false m1 e1) = true ->
  SpecFloat.valid_binary prec emax (S754_finite false m2 e2) = true ->
  let v1 := IZR (Zpos m1) * bpow e1 in
  let v2 := IZR (Zpos m2) * bpow e2 in
  match match Z.compare e1 e2 with
        | Lt => Lt
        | Gt => Gt
        | Eq => Pos.compare_cont Eq m1 m2
        end with
  | Lt => v1 < v2
  | Eq => v1 = v2
  | Gt => v2 < v1
  end.
Proof.
  intros V1 V2 v1 v2.
  destruct (valid_finite _ _ _ V1) as [He1 Hf1].
  destruct (valid_finite _ _ _ V2) as [He2 Hf2].
  destruct (digits_bpow m1 e1) as [Hlo1 Hhi1]. destruct (digits_bpow m2 e2) as [Hlo2 Hhi2].
  cbv zeta in Hlo1, Hhi1, Hlo2, Hhi2. fold v1 in Hlo1, Hhi1. fold v2 in Hlo2, Hhi2.
  destruct (Z.compare_spec e1 e2) as [Heq | Hlt | Hgt].
  - subst e2. change (Pos.compare_cont Eq m1 m2) with (Pos.compare m1 m2).
    pose proof (bpow_pos e1) as Hb.
    destruct (Pos.compare_spec m1 m2) as [Hm | Hm | Hm].
    + subst m2. reflexivity.
    + subst v1 v2. apply Rmult_lt_compat_r; [exact Hb | apply IZR_lt; lia].
    + subst v1 v2. apply Rmult_lt_compat_r; [exact Hb | apply IZR_lt; lia].
  - destruct (fexp_cases (Zpos (digits2_pos m2) + e2)) as [[Hf _] | [Hf _]]; [| lia].
    destruct (fexp_cases (Zpos (digits2_pos m1) + e1)) as [[Hf' _] | [Hf' Hs]].
    + assert (bpow (Zpos (digits2_pos m1) + e1) <= bpow (Zpos (digits2_pos m2) - 1 + e2))
        by (apply bpow_le; lia). lra.
    + assert (bpow (Zpos (digits2_pos m1) + e1) <= bpow (Zpos (digits2_pos m2) - 1 + e2))
        by (apply bpow_le; lia). lra.
  - destruct (fexp_cases (Zpos (digits2_pos m1) + e1)) as [[Hf _] | [Hf _]]; [| lia].
    destruct (fexp_cases (Zpos (digits2_pos m2) + e2)) as [[Hf' _] | [Hf' Hs]].
    + assert (bpow (Zpos (digits2_pos m2) + e2) <= bpow (Zpos (digits2_pos m1) - 1 + e1))
        by (apply bpow_le; lia). lra.
    + assert (bpow (Zpos (digits2_pos m2) + e2) <= bpow (Zpos (digits2_pos m1) - 1 + e1))
        by (apply bpow_le; lia). lra.
Qed.

Lemma valid_sign (s s' : bool) (m : positive) (e : Z) :
  SpecFloat.valid_binary prec emax (S754_finite s m e) = true ->
  SpecFloat.valid_binary prec emax (S754_finite s' m e) = true.
Proof. intros H. exact H. Qed.

Lemma SFleb_correct (x y : spec_float) :
  SpecFloat.valid_binary prec emax x = true ->
  SpecFloat.valid_binary prec emax y = true ->
  SF_finite x = true -> SF_finite y = true ->
  (SFleb x y = true <-> SF2R x <= SF2R y).
Proof.
  intros Vx Vy Fx Fy.
  destruct x as [sx | sx | | sx mx ex], y as [sy | sy | | sy my ey]; try discriminate;
    unfold SFleb; cbn [SFcompare].
  - cbn [SF2R]. split; [intros _; lra | reflexivity].
  - rewrite SF2R_sign. cbn [SF2R]. pose proof (SF2R_pos my ey).
    destruct sy; split; intros; try discriminate; try reflexivity; lra.
  - rewrite SF2R_sign. cbn [SF2R]. pose proof (SF2R_pos mx ex).
    destruct sx; split; intros; try discriminate; try reflexivity; lra.
  - rewrite !SF2R_sign. pose proof (SF2R_pos mx ex). pose proof (SF2R_pos my ey).
    destruct sx, sy.
    + pose proof (canonical_compare mx my ex ey (valid_sign _ false _ _ Vx)
                    (valid_sign _ false _ _ Vy)) as Hc. cbv zeta in Hc.
      destruct (ex ?= ey)%Z; [destruct (Pos.compare_cont Eq mx my) | |];
        cbn [CompOpp]; split; intros; try discriminate; try reflexivity; lra.
    + split; intros; [lra | reflexivity].
    + split; intros; [discriminate | lra].
    + pose proof (canonical_compare mx my ex ey Vx Vy) as Hc. cbv zeta in Hc.
      destruct (ex ?= ey)%Z; [destruct (Pos.compare_cont Eq mx my) | |];
        cbn [CompOpp]; split; intros; try discriminate; try reflexivity; lra.
Qed.

End Comparisons.

Section FloatLevel.
Local Open Scope R_scope.

Lemma leb_correct (x y : float64) :
  finite x = true -> finite y = true ->
  ((x <=? y)%float = true <-> F2R x <= F2R y).
Proof.
  intros Fx Fy. rewrite leb_spec. unfold F2R.
  apply SFleb_correct; auto using Prim2SF_valid.
Qed.

Lemma Abs_correct (x : float64) :
  finite (Abs x) = finite x /\ F2R (Abs x) = Rabs (F2R x).
Proof.
  unfold finite, F2R, Abs. rewrite abs_spec.
  destruct (Prim2SF x) as [s | s | | s m e]; cbn [SFabs SF_finite SF2R].
  - split; [reflexivity |]. rewrite Rabs_R0. reflexivity.
  - split; [reflexivity |]. rewrite Rabs_R0. reflexivity.
  - split; [reflexivity |]. rewrite Rabs_R0. reflexivity.
  - split; [reflexivity |].
    change (IZR (cond_Zopp s (Zpos m)) * bpow e) with (SF2R (S754_finite s m e)).
    rewrite SF2R_cond_Zopp. reflexivity.
Qed.

(** A number whose absolute value is below a finite bound is finite. *)
Lemma Abs_leb_finite (x c : float64) :
  finite c = true -> (Abs x <=? c)%float = true -> finite x = true.
Proof.
  unfold finite, Abs. rewrite leb_spec, abs_spec.
  destruct (Prim2SF x) as [s | s | | s m e], (Prim2SF c) as [sc | sc | | sc mc ec];
    cbn; try discriminate; try reflexivity.
Qed.

Lemma add_correct (x y : float64) :
  finite x = true -> finite y = true ->
  Rabs (F2R x + F2R y) < bpow 1000 ->
  finite (x + y)%float = true /\
  Rabs (F2R (x + y)%float - (F2R x + F2R y)) <= u53 * Rabs (F2R x + F2R y).
Proof.
  intros Fx Fy H. unfold finite, F2R. rewrite add_spec.
  apply SFadd_rel; auto using Prim2SF_valid.
Qed.

Lemma sub_correct (x y : float64) :
  finite x = true -> finite y = true ->
  Rabs (F2R x - F2R y) < bpow 1000 ->
  finite (x - y)%float = true /\
  Rabs (F2R (x - y)%float - (F2R x - F2R y)) <= u53 * Rabs (F2R x - F2R y).
Proof.
  intros Fx Fy H. unfold finite, F2R. rewrite sub_spec.
  apply SFsub_rel; auto using Prim2SF_valid.
Qed.

(** A finite number of magnitude at least [2^-1022] is a sign, a 53-digit
    mantissa and an exponent. *)
Lemma normal_form (x : float64) :
  finite x = true -> bpow (-1022) <= Rabs (F2R x) ->
  exists s m e, Prim2SF x = S754_finite s m e /\ Zpos (digits2_pos m) = 53%Z.
Proof.
  unfold finite, F2R. intros Fx Hmag. pose proof (Prim2SF_valid x) as V.
  destruct (Prim2SF x) as [s | s | | s m e]; try discriminate.
  - cbn [SF2R] in Hmag. rewrite Rabs_R0 in Hmag. pose proof (bpow_pos (-1022)). lra.
  - exists s, m, e. split; [reflexivity |]. apply (normal_digits s m e V Hmag).
Qed.

Lemma mul_correct (x y : float64) :
  finite x = true -> finite y = true ->
  bpow (-1022) <= Rabs (F2R x) -> bpow (-1022) <= Rabs (F2R y) ->
  bpow (-1000) <= Rabs (F2R x * F2R y) < bpow 1000 ->
  finite (x * y)%float = true /\
  Rabs (F2R (x * y)%float - F2R x * F2R y) <= u53 * Rabs (F2R x * F2R y).
Proof.
  intros Fx Fy Nx Ny H.
  destruct (normal_form x Fx Nx) as (sx & mx & ex & Ex & Dx).
  destruct (normal_form y Fy Ny) as (sy & my & ey & Ey & Dy).
  unfold finite, F2R in *. rewrite mul_spec, Ex, Ey in *.
  apply SFmul_rel; assumption.
Qed.

Lemma div_correct (x y : float64) :
  finite x = true -> finite y = true ->
  bpow (-1022) <= Rabs (F2R x) -> bpow (-1022) <= Rabs (F2R y) ->
  bpow (-1000) <= Rabs (F2R x / F2R y) < bpow 1000 ->
  finite (x / y)%float = true /\
  Rabs (F2R (x / y)%float - F2R x / F2R y) <= u53 * Rabs (F2R x / F2R y).
Proof.
  intros Fx Fy Nx Ny H.
  destruct (normal_form x Fx Nx) as (sx & mx & ex & Ex & Dx).
  destruct (normal_form y Fy Ny) as (sy & my & ey & Ey & Dy).
  unfold finite, F2R in *. rewrite div_spec, Ex, Ey in *.
  apply SFdiv_rel; assumption.
Qed.

(** A finite number of value 0 is a zero. *)
Lemma F2R_zero (x : float64) :
  finite x = true -> F2R x = 0 -> exists s, Prim2SF x = S754_zero s.
Proof.
  unfold finite, F2R. destruct (Prim2SF x) as [s | s | | s m e]; try discriminate.
  - intros _ _. exists s. reflexivity.
  - intros _ H. rewrite SF2R_sign in H. pose proof (SF2R_pos m e). destruct s; lra.
Qed.

Lemma mul_zero_r (x y : float64) :
  finite x = true -> finite y = true -> F2R y = 0 ->
  finite (x * y)%float = true /\ F2R (x * y)%float = 0.
Proof.
  intros Fx Fy Hy. destruct (F2R_zero y Fy Hy) as [sy Ey].
  unfold finite, F2R in *. rewrite mul_spec, Ey.
  destruct (Prim2SF x) as [s | s | | s m e]; try discriminate; cbn; split; reflexivity.
Qed.

End FloatLevel.

Section FloorFacts.
Local Open Scope R_scope.

(** A mantissa that needs no rounding is only normalised. *)
Lemma binary_round_small (sx : bool) (mx : positive) (ex : Z) :
  (fexp prec emax (Zpos (digits2_pos mx) + ex) <= ex)%Z ->
  (Zpos (digits2_pos mx) + ex <= 1023)%Z ->
  exists (m : positive) (e : Z),
    binary_round prec emax sx mx ex = S754_finite sx m e /\
    IZR (Zpos m) * bpow e = IZR (Zpos mx) * bpow ex /\
    SpecFloat.valid_binary prec emax (S754_finite sx m e) = true.
Proof.
  intros Hle Hov. unfold binary_round.
  set (d := Zpos (digits2_pos mx)) in *.
  pose proof (shl_align_spec mx ex (fexp prec emax (d + ex))) as Hal.
  destruct (shl_align mx ex (fexp prec emax (d + ex))) as [mz ez].
  destruct Hal as [Hez Hmz].
  assert (Hdz : Zpos (digits2_pos mz) = (d + (ex - ez))%Z)
    by (apply digits2_shift; [lia | exact Hmz]).
  assert (Hf : fexp prec emax (Zpos (digits2_pos mz) + ez) = ez).
  { rewrite Hdz. replace (d + (ex - ez) + ez)%Z with (d + ex)%Z by lia. lia. }
  assert (Hez' : (ez <= 971)%Z).
  { destruct (fexp_cases (d + ex)) as [[Hf' _] | [Hf' _]]; lia. }
  exists mz, ez. split; [apply binary_round_aux_exact; assumption |].
  split.
  - rewrite Hmz, bpow_shift by lia. reflexivity.
  - cbn [SpecFloat.valid_binary]. unfold SpecFloat.bounded, SpecFloat.canonical_mantissa.
    rewrite Hf, Z.eqb_refl. cbn [andb]. apply Z.leb_le. unfold emax, prec. lia.
Qed.

(** [Floor] of a finite number is the integer below it, exactly. *)
Lemma Floor_correct (x : float64) :
  finite x = true ->
  finite (Floor x) = true /\
  exists z : Z, F2R (Floor x) = IZR z /\ IZR z <= F2R x < IZR z + 1.
Proof.
  unfold finite, F2R, Floor. intros Fx. pose proof (Prim2SF_valid x) as V.
  destruct (Prim2SF x) as [s | s | | s m e] eqn:Ex; try discriminate.
  - rewrite Ex. split; [reflexivity |]. exists 0%Z. cbn [SF2R]. lra.
  - destruct (valid_finite _ _ _ V) as [He Hf].
    destruct (Z.leb_spec 0 e) as [Hpos | Hneg].
    + rewrite Ex. split; [reflexivity |].
      exists (cond_Zopp s (Zpos m) * 2 ^ e)%Z. cbn [SF2R].
      rewrite mult_IZR, <- bpow_IZR by lia. lra.
    + set (a := (if s then Zneg m else Zpos m)).
      assert (Ha : a = cond_Zopp s (Zpos m)) by (destruct s; reflexivity).
      set (b := (2 ^ (- e))%Z).
      assert (Hb : (0 < b)%Z) by (apply Z.pow_pos_nonneg; lia).
      rewrite Z.shiftr_div_pow2 by lia. fold b.
      pose proof (Z_div_mod a b ltac:(lia)) as Hdm.
      unfold Z.div. destruct (Z.div_eucl a b) as [z r]. destruct Hdm as [Hab Hr].
      (* the value of [x] is [a / b] *)
      assert (Hval : SF2R (S754_finite s m e) = IZR a / IZR b).
      { cbn [SF2R]. rewrite <- Ha. unfold b. rewrite <- bpow_IZR by lia.
        replace e with (- - e)%Z at 1 by lia. unfold bpow at 1.
        rewrite powerRZ_neg'. reflexivity. }
      assert (Hbr : 0 < IZR b) by (apply IZR_lt; exact Hb).
      assert (Hfl : IZR z <= IZR a / IZR b < IZR z + 1).
      { rewrite Hab, plus_IZR, mult_IZR.
        assert (0 <= IZR r < IZR b) by (split; [apply IZR_le | apply IZR_lt]; lia).
        split.
        - apply (Rmult_le_reg_r (IZR b)); [lra |].
          unfold Rdiv. rewrite Rmult_assoc, Rinv_l by lra. lra.
        - apply (Rmult_lt_reg_r (IZR b)); [lra |].
          unfold Rdiv. rewrite Rmult_assoc, Rinv_l by lra. lra. }
      (* the magnitude of the quotient *)
      assert (Hm53 : (Zpos m < 2 ^ 53)%Z).
      { destruct (digits2_bounds m) as [_ Hhi].
        assert (Zpos (digits2_pos m) <= 53)%Z.
        { destruct (fexp_cases (Zpos (digits2_pos m) + e)) as [[Hf' _] | [Hf' Hs]]; lia. }
        assert (2 ^ Zpos (digits2_pos m) <= 2 ^ 53)%Z by (apply Z.pow_le_mono_r; lia).
        lia. }
      assert (Hz : (Z.abs z <= Zpos m)%Z).
      { assert (Z.abs a = Zpos m) by (rewrite Ha; destruct s; reflexivity). nia. }
      unfold of_Z_scaled. rewrite Hval.
      destruct z as [| p | p]; cbn [binary_normalize].
      * rewrite Prim2SF_SF2Prim by reflexivity. split; [reflexivity |].
        exists 0%Z. cbn [SF2R]. split; [reflexivity | exact Hfl].
      * assert (Hdp : (Zpos (digits2_pos p) <= 53)%Z) by (apply digits_le; lia).
        destruct (binary_round_small false p 0) as (m' & e' & Hres & Hv & Hvalid).
        { destruct (fexp_cases (Zpos (digits2_pos p) + 0)) as [[Hf' _] | [Hf' _]]; lia. }
        { lia. }
        rewrite Hres, Prim2SF_SF2Prim by exact Hvalid.
        split; [reflexivity |]. exists (Zpos p). cbn [SF2R cond_Zopp].
        rewrite Hv. change (bpow 0) with 1. split; [ring | exact Hfl].
      * assert (Hdp : (Zpos (digits2_pos p) <= 53)%Z) by (apply digits_le; lia).
        destruct (binary_round_small true p 0) as (m' & e' & Hres & Hv & Hvalid).
        { destruct (fexp_cases (Zpos (digits2_pos p) + 0)) as [[Hf' _] | [Hf' _]]; lia. }
        { lia. }
        rewrite Hres, Prim2SF_SF2Prim by exact Hvalid.
        split; [reflexivity |]. exists (Zneg p). cbn [SF2R cond_Zopp].
        change (Zneg m') with (- Zpos m')%Z. change (Zneg p) with (- Zpos p)%Z.
        rewrite !opp_IZR.
        replace (- IZR (Zpos m') * bpow e') with (- (IZR (Zpos m') * bpow e')) by ring.
        rewrite Hv. change (bpow 0) with 1.
        change (Zneg p) with (- Zpos p)%Z in Hfl.
        rewrite opp_IZR in Hfl. split; [ring | exact Hfl].
Qed.

End FloorFacts.

Section AdjLngRange.
Local Open Scope R_scope.

Lemma Rabs_le_between (t b : R) : Rabs t <= b -> - b <= t <= b.
Proof. unfold Rabs. destruct (Rcase_abs t); lra. Qed.

(** A relative error turned into an absolute one. *)
Lemma rel_error_bound (v t M : R) :
  Rabs (v - t) <= u53 * Rabs t -> Rabs t <= M ->
  t - u53 * M <= v <= t + u53 * M.
Proof.
  intros H HM.
  assert (u53 * Rabs t <= u53 * M).
  { apply Rmult_le_compat_l; [unfold u53; lra | exact HM]. }
  apply Rabs_le_between in H. lra.
Qed.

Lemma bpow_small :
  bpow (-1000) <= / 1208925819614629174706176 /\
  bpow (-1022) <= / 1208925819614629174706176.
Proof.
  assert (H : bpow (-80) = / 1208925819614629174706176).
  { unfold bpow. change (-80)%Z with (- (80))%Z. rewrite powerRZ_neg'. f_equal.
    change (powerRZ 2 80) with (bpow 80). rewrite bpow_IZR by lia. reflexivity. }
  rewrite <- H. split; apply bpow_le; lia.
Qed.

Lemma bpow_large : 18446744073709551616 <= bpow 1000.
Proof.
  assert (H : bpow 64 = 18446744073709551616) by (rewrite bpow_IZR by lia; reflexivity).
  rewrite <- H. apply bpow_le. lia.
Qed.

Lemma F2R_Pi : F2R Pi = 7074237752028440 / 2251799813685248 /\ finite Pi = true.
Proof.
  unfold F2R, finite.
  replace (Prim2SF Pi) with (S754_finite false 7074237752028440 (-51))
    by (vm_compute; reflexivity).
  split; [| reflexivity]. cbn [SF2R cond_Zopp]. unfold bpow, powerRZ.
  replace (Pos.to_nat 51) with 51%nat by reflexivity. lra.
Qed.

Lemma F2R_s_pi : F2R s_pi = 7074237752028906 / 2251799813685248 /\ finite s_pi = true.
Proof.
  unfold F2R, finite.
  replace (Prim2SF s_pi) with (S754_finite false 7074237752028906 (-51))
    by (vm_compute; reflexivity).
  split; [| reflexivity]. cbn [SF2R cond_Zopp]. unfold bpow, powerRZ.
  replace (Pos.to_nat 51) with 51%nat by reflexivity. lra.
Qed.

Lemma F2R_two_pi : F2R two_pi = 7074237752028440 / 1125899906842624 /\ finite two_pi = true.
Proof.
  unfold F2R, finite.
  replace (Prim2SF two_pi) with (S754_finite false 7074237752028440 (-50))
    by (vm_compute; reflexivity).
  split; [| reflexivity]. cbn [SF2R cond_Zopp]. unfold bpow, powerRZ.
  replace (Pos.to_nat 50) with 50%nat by reflexivity. lra.
Qed.

Lemma F2R_512 : F2R 512%float = 512 /\ finite 512%float = true.
Proof.
  unfold F2R, finite.
  replace (Prim2SF 512%float) with (S754_finite false 4503599627370496 (-43))
    by (vm_compute; reflexivity).
  split; [| reflexivity]. cbn [SF2R cond_Zopp]. unfold bpow, powerRZ.
  replace (Pos.to_nat 43) with 43%nat by reflexivity. lra.
Qed.

(** The reduction branch of [adjLng], one rounded operation at a time,
    for an argument beyond [s_pi] and at most 512 in absolute value: the
    result is within [s_pi] of zero. *)
Lemma adjLng_reduce (x : float64) :
  finite x = true ->
  F2R s_pi < Rabs (F2R x) -> Rabs (F2R x) <= 512 ->
  let r := (x + Pi - two_pi * Floor ((x + Pi) / two_pi) - Pi)%float in
  finite r = true /\ Rabs (F2R r) <= F2R s_pi /\
  exists z : Z, Rabs (F2R r - (F2R x - IZR z * F2R two_pi)) <= / 4398046511104.
Proof.
  intros Fx Hlo Hhi. cbv zeta.
  destruct F2R_Pi as [VP FP]. destruct F2R_s_pi as [VS FS].
  destruct F2R_two_pi as [VT FT].
  destruct bpow_small as [Hs1 Hs2]. pose proof bpow_large as Hl.
  rewrite VS in *.
  set (X := F2R x) in *.
  assert (HX : (7074237752028906 / 2251799813685248 < X /\ X <= 512) \/
               (-512 <= X /\ X < - (7074237752028906 / 2251799813685248))).
  { unfold Rabs in Hlo, Hhi. destruct (Rcase_abs X); [right | left]; lra. }
  (* x + Pi *)
  destruct (add_correct x Pi Fx FP) as [F1 E1].
  { rewrite VP. fold X. apply Rabs_def1; lra. }
  rewrite VP in E1. fold X in E1.
  set (x1 := (x + Pi)%float) in *. set (X1 := F2R x1) in *.
  assert (B1 : Rabs (X + 7074237752028440 / 2251799813685248) <= 516)
    by (apply Rabs_le; lra).
  pose proof (rel_error_bound _ _ _ E1 B1) as A1. unfold u53 in A1.
  assert (L1 : / 18446744073709551616 <= Rabs X1).
  { apply Rabs_le_between in E1. unfold u53 in E1.
    unfold Rabs in E1 |- *.
    destruct (Rcase_abs (X + 7074237752028440 / 2251799813685248)),
      (Rcase_abs X1); lra. }
  assert (U1 : Rabs X1 <= 517) by (apply Rabs_le; lra).
  (* the quotient *)
  assert (HA : X1 / F2R two_pi = X1 * (1125899906842624 / 7074237752028440)).
  { rewrite VT. field. }
  pose proof (Rabs_pos X1) as HX1.
  assert (HRA : Rabs (X1 * (1125899906842624 / 7074237752028440))
                = Rabs X1 * (1125899906842624 / 7074237752028440)).
  { rewrite Rabs_mult. f_equal. apply Rabs_pos_eq. lra. }
  destruct (div_correct x1 two_pi F1 FT) as [F2 E2].
  { fold X1. lra. }
  { rewrite VT. rewrite Rabs_pos_eq; lra. }
  { fold X1. rewrite HA, HRA. lra. }
  fold X1 in E2. rewrite HA in E2.
  set (q := (x1 / two_pi)%float) in *. set (Q := F2R q) in *.
  set (A := X1 * (1125899906842624 / 7074237752028440)) in *.
  assert (BA : Rabs A <= 83) by (rewrite HRA; lra).
  pose proof (rel_error_bound _ _ _ E2 BA) as A2. unfold u53 in A2.
  (* its integer part *)
  destruct (Floor_correct q F2) as [F3 (z & Vk & Hz)].
  fold Q in Hz.
  set (k := Floor q) in *. set (K := IZR z) in *.
  (* the multiple of two_pi *)
  assert (BK : Rabs (7074237752028440 / 1125899906842624 * K) <= 524).
  { apply Rabs_le_between in U1. apply Rabs_le. unfold A in A2. lra. }
  assert (Hp : finite (two_pi * k)%float = true /\
               Rabs (F2R (two_pi * k)%float
                     - 7074237752028440 / 1125899906842624 * K)
               <= u53 * Rabs (7074237752028440 / 1125899906842624 * K)).
  { destruct (Z.eq_dec z 0%Z) as [Hz0 | Hz0]; [subst z |].
    - destruct (mul_zero_r two_pi k FT F3 Vk) as [Fp Vp].
      split; [exact Fp |]. rewrite Vp. unfold K.
      replace (0 - 7074237752028440 / 1125899906842624 * 0) with 0 by lra.
      rewrite Rabs_R0. unfold u53. pose proof (Rabs_pos (7074237752028440 / 1125899906842624 * 0)).
      apply Rmult_le_pos; lra.
    - assert (HK1 : 1 <= Rabs K).
      { unfold K. rewrite <- abs_IZR. apply IZR_le. lia. }
      destruct (mul_correct two_pi k FT F3) as [Fp Ep].
      + rewrite VT. rewrite Rabs_pos_eq; lra.
      + rewrite Vk. fold K. lra.
      + rewrite VT, Vk. fold K. split; [| lra].
        rewrite Rabs_mult. rewrite (Rabs_pos_eq (7074237752028440 / 1125899906842624)) by lra.
        nra.
      + rewrite VT, Vk in Ep. fold K in Ep. split; [exact Fp | exact Ep]. }
  destruct Hp as [F4 E4].
  set (p := (two_pi * k)%float) in *. set (P := F2R p) in *.
  pose proof (rel_error_bound _ _ _ E4 BK) as A4. unfold u53 in A4.
  (* x1 - p *)
  assert (B5 : Rabs (X1 - P) <= 7).
  { apply Rabs_le. unfold A in A2. lra. }
  destruct (sub_correct x1 p F1 F4) as [F5 E5].
  { fold X1 P. lra. }
  fold X1 P in E5.
  set (x2 := (x1 - p)%float) in *. set (X2 := F2R x2) in *.
  pose proof (rel_error_bound _ _ _ E5 B5) as A5. unfold u53 in A5.
  (* ... - Pi *)
  assert (B6 : Rabs (X2 - 7074237752028440 / 2251799813685248) <= 4).
  { apply Rabs_le. unfold A in A2. lra. }
  destruct (sub_correct x2 Pi F5 FP) as [F6 E6].
  { fold X2. rewrite VP. lra. }
  fold X2 in E6. rewrite VP in E6.
  pose proof (rel_error_bound _ _ _ E6 B6) as A6. unfold u53 in A6.
  split; [exact F6 |]. split.
  - apply Rabs_le. unfold A in A2. lra.
  - exists z. fold K. fold X. rewrite VT. apply Rabs_le. lra.
Qed.

(** On float64, within 512 of zero, the result of [adjLng] is within
    [s_pi] of zero. *)
Lemma adjLng_range (x : float64) :
  (Abs x <=? 512)%float = true -> (Abs (adjLng x) <=? s_pi)%float = true.
Proof.
  intros Hx. unfold adjLng.
  destruct (Abs x <=? s_pi)%float eqn:Hs; [exact Hs |]. cbv zeta.
  destruct F2R_512 as [V512 F512]. destruct F2R_s_pi as [VS FS].
  assert (Fx : finite x = true) by (apply (Abs_leb_finite x 512 F512 Hx)).
  destruct (Abs_correct x) as [FA VA].
  assert (Hhi : Rabs (F2R x) <= 512).
  { rewrite <- VA, <- V512. apply leb_correct; [rewrite FA; exact Fx | exact F512 | exact Hx]. }
  assert (Hlo : F2R s_pi < Rabs (F2R x)).
  { apply Rnot_le_lt. intros Hle. rewrite <- VA in Hle.
    apply leb_correct in Hle; [congruence | rewrite FA; exact Fx | exact FS]. }
  destruct (adjLng_reduce x Fx Hlo Hhi) as (Fr & Hr & _). cbv zeta in Fr, Hr.
  set (r := (x + Pi - two_pi * Floor ((x + Pi) / two_pi) - Pi)%float) in *.
  destruct (Abs_correct r) as [FAr VAr].
  apply leb_correct; [rewrite FAr; exact Fr | exact FS |].
  rewrite VAr. exact Hr.
Qed.

(** Within 512 of zero, the result differs from the argument by an
    integer multiple of [two_pi], up to [2^-42]. *)
Lemma adjLng_congruent (x : float64) :
  (Abs x <=? 512)%float = true ->
  exists z : Z, Rabs (F2R (adjLng x) - (F2R x - IZR z * F2R two_pi)) <= / 4398046511104.
Proof.
  intros Hx. unfold adjLng.
  destruct (Abs x <=? s_pi)%float eqn:Hs.
  { exists 0%Z. replace (F2R x - (F2R x - 0 * F2R two_pi)) with 0 by ring.
    rewrite Rabs_R0. lra. }
  cbv zeta.
  destruct F2R_512 as [V512 F512]. destruct F2R_s_pi as [VS FS].
  assert (Fx : finite x = true) by (apply (Abs_leb_finite x 512 F512 Hx)).
  destruct (Abs_correct x) as [FA VA].
  assert (Hhi : Rabs (F2R x) <= 512).
  { rewrite <- VA, <- V512. apply leb_correct; [rewrite FA; exact Fx | exact F512 | exact Hx]. }
  assert (Hlo : F2R s_pi < Rabs (F2R x)).
  { apply Rnot_le_lt. intros Hle. rewrite <- VA in Hle.
    apply leb_correct in Hle; [congruence | rewrite FA; exact Fx | exact FS]. }
  destruct (adjLng_reduce x Fx Hlo Hhi) as (_ & _ & Hz). exact Hz.
Qed.

End AdjLngRange.

(** ** Longitude normalisation *)

Section EqbFacts.
Local Open Scope R_scope.

Lemma SFeqb_correct (x y : spec_float) :
  SpecFloat.valid_binary prec emax x = true ->
  SpecFloat.valid_binary prec emax y = true ->
  SF_finite x = true -> SF_finite y = true ->
  SFeqb x y = true -> SF2R x = SF2R y.
Proof.
  intros Vx Vy Fx Fy.
  destruct x as [sx | sx | | sx mx ex], y as [sy | sy | | sy my ey]; try discriminate;
    unfold SFeqb; cbn [SFcompare].
  - reflexivity.
  - destruct sy; discriminate.
  - destruct sx; discriminate.
  - rewrite !SF2R_sign.
    pose proof (canonical_compare mx my ex ey (valid_sign _ false _ _ Vx)
                  (valid_sign _ false _ _ Vy)) as Hc. cbv zeta in Hc.
    destruct sx, sy; try discriminate;
      (destruct (ex ?= ey)%Z; [destruct (Pos.compare_cont Eq mx my) | |]);
      cbn [CompOpp]; intros; try discriminate; lra.
Qed.

Lemma eqb_correct (x y : float64) :
  finite x = true -> finite y = true ->
  (x =? y)%float = true -> F2R x = F2R y.
Proof.
  intros Fx Fy. rewrite FloatAxioms.eqb_spec. unfold F2R.
  apply SFeqb_correct; auto using Prim2SF_valid.
Qed.

Lemma eqb_refl_finite (x : float64) : finite x = true -> (x =? x)%float = true.
Proof.
  unfold finite. rewrite FloatAxioms.eqb_spec. unfold SFeqb.
  destruct (Prim2SF x) as [s | s | | s m e]; try discriminate; intros _; cbn [SFcompare].
  - reflexivity.
  - destruct s; rewrite Z.compare_refl, Pos.compare_cont_refl; reflexivity.
Qed.

End EqbFacts.

Section AdjLngClaims.
Local Open Scope float_scope.

Lemma adjLng_identity (x : float64) : (Abs x <=? s_pi) = true -> adjLng x = x.
Proof. intros Hx. unfold adjLng. rewrite Hx. reflexivity. Qed.

(** Beyond [s_pi], and within 512, the result differs from the argument,
    also for the comparison [==] of the program. *)
Lemma adjLng_moves (x : float64) :
  (Abs x <=? 512) = true -> (Abs x <=? s_pi) = false ->
  (adjLng x =? x) = false.
Proof.
  intros Hx Hs. pose proof (adjLng_range x Hx) as Hr.
  destruct F2R_512 as [V512 F512]. destruct F2R_s_pi as [VS FS].
  assert (Fx : finite x = true) by (apply (Abs_leb_finite x 512 F512 Hx)).
  assert (Fr : finite (adjLng x) = true) by (apply (Abs_leb_finite _ s_pi FS Hr)).
  destruct (adjLng x =? x) eqn:He; [| reflexivity]. exfalso.
  apply (eqb_correct _ _ Fr Fx) in He.
  destruct (Abs_correct x) as [FA VA]. destruct (Abs_correct (adjLng x)) as [FAr VAr].
  apply leb_correct in Hr; [| rewrite FAr; exact Fr | exact FS].
  rewrite VAr, He, <- VA in Hr.
  apply leb_correct in Hr; [congruence | rewrite FA; exact Fx | exact FS].
Qed.

(** C7, as stated, fails on float64.  [adjLng] returns [s_pi] unchanged,
    and [s_pi] lies above [math.Pi]: the result is outside (-pi, pi] and
    the identity holds beyond |x| <= pi.  At 1643.0529578274616 the
    rounding of the reduction leaves the result below [-s_pi], and a second
    call changes it: the function is not idempotent for every argument. *)
Lemma C7_adjLng_counterexample :
  adjLng s_pi = s_pi /\ (Pi <? s_pi) = true /\ (Pi <? Abs (adjLng s_pi)) = true /\
  adjLng 1643.0529578274616 = -3.1415926535900205 /\
  (Abs (adjLng 1643.0529578274616) <=? s_pi) = false /\
  adjLng (adjLng 1643.0529578274616) = 3.1415926535895657 /\
  (adjLng (adjLng 1643.0529578274616) =? adjLng 1643.0529578274616) = false.
Proof. vm_compute. repeat split; reflexivity. Qed.

(** C7, amended.  On float64, for every [x] with [|x| <= 512]: the
    result of [adjLng] is within [s_pi] of zero, [s_pi] being the rounded
    constant 3.14159265359 of the identity test; it is a finite number that
    differs from [x] by an integer multiple of [two_pi], up to [2^-42] (as
    real numbers, [F2R] being the value of a finite float64); a second call changes
    nothing; and the result is [x] itself exactly when [|x| <= s_pi], for
    the identity of values as for the comparison [==]. *)
Theorem C7_adjLng_amended (x : float64) :
  (Abs x <=? 512) = true ->
  (Abs (adjLng x) <=? s_pi) = true /\
  (finite x = true /\ finite (adjLng x) = true /\
   exists z : Z,
     Rabs (F2R (adjLng x) - (F2R x - IZR z * F2R two_pi)) <= / 4398046511104)%R /\
  adjLng (adjLng x) = adjLng x /\
  (adjLng x = x <-> (Abs x <=? s_pi) = true) /\
  ((adjLng x =? x) = true <-> (Abs x <=? s_pi) = true).
Proof.
  intros Hx. pose proof (adjLng_range x Hx) as Hr.
  destruct F2R_512 as [V512 F512]. destruct F2R_s_pi as [VS FS].
  assert (Fx : finite x = true) by (apply (Abs_leb_finite x 512 F512 Hx)).
  assert (Fr : finite (adjLng x) = true) by (apply (Abs_leb_finite _ s_pi FS Hr)).
  split; [exact Hr |].
  split; [split; [exact Fx |]; split; [exact Fr | exact (adjLng_congruent x Hx)] |].
  split; [apply adjLng_identity; exact Hr |].
  split.
  - split.
    + intros He. rewrite He in Hr. exact Hr.
    + apply adjLng_identity.
  - split.
    + intros He. destruct (Abs x <=? s_pi) eqn:Hs; [reflexivity |].
      rewrite (adjLng_moves x Hx Hs) in He. discriminate.
    + intros Hs. rewrite (adjLng_identity x Hs). apply eqb_refl_finite. exact Fx.
Qed.

(** The amended statement at [x = 400], more than 63 turns. *)
Lemma C7_adjLng_amended_witness :
  (Abs (adjLng 400) <=? s_pi) = true /\ adjLng (adjLng 400) = adjLng 400.
Proof.
  destruct (C7_adjLng_amended 400) as (H1 & _ & H2 & _).
  - vm_compute. reflexivity.
  - split; [exact H1 | exact H2].
Defined.

End AdjLngClaims.


(** ** The transform wrapper: bounds and the sentinel *)

Section WrapperClaims.
Local Open Scope float_scope.

Lemma hugeVal_eqb : (hugeVal =? hugeVal) = true.
Proof. reflexivity. Qed.

Lemma commonInv_sentinel (libm : MathLib) (p : pj) (inv : translator) (x y : float64) :
  x = hugeVal \/ y = hugeVal ->
  commonInv libm p x y inv = Ret (hugeVal, hugeVal, Some out_of_bounds).
Proof.
  intros [-> | ->]; unfold commonInv; rewrite hugeVal_eqb.
  - reflexivity.
  - rewrite orb_true_r. reflexivity.
Qed.

(** A failing forward call returns the sentinel pair, whatever failed. *)
Lemma commonFwd_failure_sentinel
    (libm : MathLib) (p : pj) (fwd : translator) (lam phi x y : float64) (err : error) :
  commonFwd libm p lam phi fwd = Ret (x, y, Some err) -> x = hugeVal /\ y = hugeVal.
Proof.
  unfold commonFwd.
  destruct ((epsln <? Abs phi - half_pi) || (10 <? Abs lam))%bool.
  { intros H. injection H as <- <- _. split; reflexivity. }
  cbv zeta.
  destruct (fwd _ _) as [[[x' y'] [err' |]] | msg]; cbn [mbind result_bind];
    intros H; try discriminate.
  injection H as <- <- _. split; reflexivity.
Qed.

(** C6.  An input with [|lat| - pi/2 > epsln] or [|lon| > 10] makes the
    forward pipeline return the pair (hugeVal, hugeVal) with the
    out-of-bounds error; the inverse pipeline returns the same failure as
    soon as one of its inputs is [hugeVal]; so the pair a failed forward
    call returns is rejected by the inverse call that follows it. *)
Theorem C6_out_of_range_sentinel
    (libm : MathLib) (p : pj) (fwd inv : translator) (lam phi : float64) :
  (((epsln <? Abs phi - half_pi) || (10 <? Abs lam))%bool = true ->
   commonFwd libm p lam phi fwd = Ret (hugeVal, hugeVal, Some out_of_bounds)) /\
  (forall x y : float64,
      x = hugeVal \/ y = hugeVal ->
      commonInv libm p x y inv = Ret (hugeVal, hugeVal, Some out_of_bounds)) /\
  (forall (x y : float64) (err : error),
      commonFwd libm p lam phi fwd = Ret (x, y, Some err) ->
      commonInv libm p x y inv = Ret (hugeVal, hugeVal, Some out_of_bounds)).
Proof.
  split.
  { intros Hout. unfold commonFwd. rewrite Hout. reflexivity. }
  split; [intros x y; apply commonInv_sentinel |].
  intros x y err Hret.
  destruct (commonFwd_failure_sentinel _ _ _ _ _ _ _ _ Hret) as [-> _].
  apply commonInv_sentinel. left. reflexivity.
Qed.

(** C6 at longitude 11 radians, and at latitude 2 radians. *)
Lemma C6_out_of_range_sentinel_witness :
  commonFwd no_math new_pj 11 0 (LngLat_fwd {| LngLat_pj := new_pj |})
    = Ret (hugeVal, hugeVal, Some out_of_bounds) /\
  commonFwd no_math new_pj 0 2 (LngLat_fwd {| LngLat_pj := new_pj |})
    = Ret (hugeVal, hugeVal, Some out_of_bounds).
Proof.
  split.
  - apply (proj1 (C6_out_of_range_sentinel no_math new_pj
                    (LngLat_fwd {| LngLat_pj := new_pj |})
                    (LngLat_inv {| LngLat_pj := new_pj |}) 11 0)).
    vm_compute. reflexivity.
  - apply (proj1 (C6_out_of_range_sentinel no_math new_pj
                    (LngLat_fwd {| LngLat_pj := new_pj |})
                    (LngLat_inv {| LngLat_pj := new_pj |}) 0 2)).
    vm_compute. reflexivity.
Defined.

(** Every kernel's [Forward] and [Inverse] go through the wrapper. *)
Lemma Forward_out_of_range (libm : MathLib) (imp : impl) (lam phi : float64) :
  ((epsln <? Abs phi - half_pi) || (10 <? Abs lam))%bool = true ->
  Forward libm imp lam phi = Ret (hugeVal, hugeVal, Some out_of_bounds).
Proof.
  intros Hout.
  destruct imp; cbn [Forward];
    unfold LngLat_Forward, Mercator_Forward, LCC_Forward, Equirectangular_Forward,
           commonFwd;
    rewrite Hout; reflexivity.
Qed.

Lemma Inverse_sentinel (libm : MathLib) (imp : impl) (x y : float64) :
  x = hugeVal \/ y = hugeVal ->
  Inverse libm imp x y = Ret (hugeVal, hugeVal, Some out_of_bounds).
Proof.
  intros H.
  destruct imp; cbn [Inverse];
    unfold LngLat_Inverse, Mercator_Inverse, LCC_Inverse, Equirectangular_Inverse;
    apply commonInv_sentinel; exact H.
Qed.

End WrapperClaims.

(** ** Degree strings *)

Section DegreeClaims.
Local Open Scope float_scope.

(** C9: the seconds are divided by 360.  For 0 degrees, 0 minutes, 36 seconds the accessor
    returns [0.1 * d2r] and not [(0 + 0/60 + 36/3600) * d2r]; for the
    catalog's Lisbon meridian it returns
    [- (9 + 7/60 + 54.862/360)] degrees. *)
Theorem C9_degree_seconds_divisor :
  parseDegreeString ("0d0'36" ++ dquote) = 0.1 /\
  paramset_degree {[ "lat_0" := "0d0'36" ++ dquote ]} "lat_0" = (0.1 * d2r, true) /\
  (0.1 * d2r =? (0 + 0 / 60 + 36 / 3600) * d2r) = false /\
  parseDegreeString ("9d07'54.862" ++ dquote ++ "W") = (0 + 9 + 7 / 60 + 54.862 / 360) * -1 /\
  close (parseDegreeString ("9d07'54.862" ++ dquote ++ "W"))
        (- (9 + 7 / 60 + 54.862 / 3600)) = false.
Proof. vm_compute. repeat split; reflexivity. Qed.

(** What the accessor does as the claim says: degrees and minutes, the
    [W]/[S] sign, and a bare number read as degrees. *)
Lemma degree_parts_as_specified :
  parseDegreeString "17d40'W" = (0 + 17 + 40 / 60) * -1 /\
  parseDegreeString "12d30'" = 12.5 /\
  parseDegreeString "18" = 18 /\
  parseDegreeString "-18.5" = -18.5 /\
  paramset_degree {[ "lon_0" := "90" ]} "lon_0" = (90 * d2r, true) /\
  paramset_degree ∅ "lon_0" = (0, false).
Proof. vm_compute. repeat split; reflexivity. Qed.

End DegreeClaims.

(** ** Datum resolution *)

Section DatumClaims.
Local Open Scope float_scope.

Lemma paramset_string_Some (params : paramset) (k v : string) :
  params !! k = Some v -> paramset_string params k = (v, true).
Proof. intros H. unfold paramset_string. rewrite H. reflexivity. Qed.

Lemma paramset_string_None (params : paramset) (k : string) :
  params !! k = None -> paramset_string params k = ("", false).
Proof. intros H. unfold paramset_string. rewrite H. reflexivity. Qed.

Lemma store_parts_in_bounds (parts : list string) (dp : list float64) (i : nat) :
  (i + length parts <= length dp)%nat ->
  exists dp', store_parts dp i parts = Ret dp' /\ length dp' = length dp.
Proof.
  revert dp i. induction parts as [| f rest IH]; intros dp i Hlen; cbn [store_parts].
  - exists dp. split; reflexivity.
  - cbn [length] in Hlen.
    destruct (Nat.ltb_spec i (length dp)) as [Hlt | Hge]; [| lia].
    destruct (IH (<[i := fst (ParseFloat f)]> dp) (S i)) as (dp' & Hret & Hl).
    + rewrite length_insert. lia.
    + exists dp'. split; [exact Hret |]. rewrite Hl. apply length_insert.
Qed.

Lemma store_parts_overflow (parts : list string) (dp : list float64) (i : nat) :
  (i <= length dp < i + length parts)%nat ->
  store_parts dp i parts = Panic "index out of range".
Proof.
  revert dp i. induction parts as [| f rest IH]; intros dp i Hlen; cbn [store_parts].
  - cbn [length] in Hlen. lia.
  - cbn [length] in Hlen.
    destruct (Nat.ltb_spec i (length dp)) as [Hlt | Hge]; [| reflexivity].
    apply IH. rewrite length_insert. lia.
Qed.

(** More than seven comma-separated values: the eighth write is out of
    bounds, whatever else the definition says. *)
Lemma setDatum_towgs84_overflow (p : pj) (params : paramset) (towgs84 : string) :
  params !! "datum" = None ->
  params !! "nadgrids" = None ->
  params !! "catalog" = None ->
  params !! "towgs84" = Some towgs84 ->
  (7 < length (GoStrings.Split towgs84 ","))%nat ->
  setDatum p params = Panic "index out of range".
Proof.
  intros Hd Hn Hc Ht Hlen. unfold setDatum.
  rewrite (paramset_string_None _ _ Hd), (paramset_string_None _ _ Hn),
    (paramset_string_None _ _ Hc), (paramset_string_Some _ _ _ Ht).
  cbn [snd].
  rewrite store_parts_overflow; [reflexivity |].
  rewrite length_replicate. lia.
Qed.

(** C10: eight values.  [NewProjection] panics on the write to
    [datumParams[7]]; seven values and three values resolve, with the
    rotations and the scale converted only for seven.  The two tags
    [PJD_7PARAM] and [PJD_3PARAM] are the same number. *)
Theorem C10_towgs84_eight_values (libm : MathLib) :
  NewProjection libm "+proj=longlat +towgs84=1,2,3,4,5,6,7,8"
    = Panic "index out of range" /\
  (exists imp,
      NewProjection libm "+proj=longlat +towgs84=1,2,3,4,5,6,7" = Ret (Some imp, None) /\
      datumParams (impl_pj imp)
        = Some [1; 2; 3; 4 * sec2rad; 5 * sec2rad; 6 * sec2rad; 7 / 1000000.0 + 1] /\
      datumType (impl_pj imp) = PJD_7PARAM) /\
  (exists imp,
      NewProjection libm "+proj=longlat +towgs84=1,2,3" = Ret (Some imp, None) /\
      datumParams (impl_pj imp) = Some [1; 2; 3; 0; 0; 0; 0] /\
      datumType (impl_pj imp) = PJD_3PARAM) /\
  PJD_7PARAM = PJD_3PARAM.
Proof.
  split; [vm_compute; reflexivity |].
  split; [eexists; vm_compute; repeat split; reflexivity |].
  split; [eexists; vm_compute; repeat split; reflexivity |].
  reflexivity.
Qed.

(** The datum step writes its two keys whether or not they are set. *)
Lemma setDatum_overwrites_ellps (p : pj) (params : paramset) (name : string) (d : datum) :
  params !! "datum" = Some name ->
  datums_list !! name = Some d ->
  fst (keyVal (definition d)) <> "ellps" ->
  forall p' params' err,
    setDatum p params = Ret (p', params', err) ->
    params' !! "ellps" = Some (ellipse_name d) /\
    params' !! fst (keyVal (definition d)) = Some (snd (keyVal (definition d))).
Proof.
  intros Hd Hl Hne p' params' err. unfold setDatum.
  rewrite (paramset_string_Some _ _ _ Hd), Hl.
  destruct (keyVal (definition d)) as [key val] eqn:Hkv. cbn [fst snd] in *.
  set (ps := <[key := val]> (<["ellps" := ellipse_name d]> params)).
  assert (Hps : ps !! "ellps" = Some (ellipse_name d) /\ ps !! key = Some val).
  { subst ps. split.
    - rewrite lookup_insert_ne by congruence. apply lookup_insert_eq.
    - apply lookup_insert_eq. }
  clearbody ps.
  destruct (snd (paramset_string ps "nadgrids")).
  { intros H. injection H as <- <- <-. exact Hps. }
  destruct (paramset_string ps "catalog") as [cat [|]].
  { intros H. injection H as <- <- <-. exact Hps. }
  destruct (paramset_string ps "towgs84") as [tw [|]].
  - destruct (store_parts _ _ _) as [dp |]; cbn -[alter]; [| discriminate].
    destruct (length (GoStrings.Split tw ",") =? 7)%nat;
      intros H; injection H as <- <- <-; exact Hps.
  - intros H. injection H as <- <- <-. exact Hps.
Qed.

(** C5: explicit [ellps=bessel] and [towgs84=1,2,3] with [datum=WGS84].
    After resolution the parameter map holds the datum's [ellps=WGS84] and
    [towgs84=0,0,0], and the configuration has the WGS84 axis and a zero
    shift instead of Bessel's axis 6377397.155 and the shift (1, 2, 3);
    the same definition without the datum keeps the explicit values. *)
Theorem C5_datum_overrides_explicit :
  (exists pin parms,
      resolve (parse_params "+proj=longlat +ellps=bessel +towgs84=1,2,3 +datum=WGS84")
        = Ret (inl (pin, parms)) /\
      parms !! "ellps" = Some "WGS84" /\
      parms !! "towgs84" = Some "0,0,0" /\
      a pin = 6378137 /\
      datumParams pin = Some [0; 0; 0; 0; 0; 0; 0]) /\
  (exists pin parms,
      resolve (parse_params "+proj=longlat +ellps=bessel +towgs84=1,2,3")
        = Ret (inl (pin, parms)) /\
      parms !! "ellps" = Some "bessel" /\
      parms !! "towgs84" = Some "1,2,3" /\
      a pin = 6377397.155 /\
      datumParams pin = Some [1; 2; 3; 0; 0; 0; 0]).
Proof.
  split; eexists _, _; (split; [vm_compute; reflexivity |]);
    vm_compute; repeat split; reflexivity.
Qed.

End DatumClaims.

(** ** Resolution, step by step *)

Section ResolveFacts.
Local Open Scope float_scope.

Lemma datums_list_keys :
  map_Forall (fun _ d => fst (keyVal (definition d)) ∈ catalog_keys) datums_list.
Proof. apply (bool_decide_unpack _). vm_compute. exact I. Qed.

Lemma ellipse_list_keys :
  map_Forall (fun _ el => fst (keyVal (major el)) ∈ catalog_keys /\
                          fst (keyVal (ell el)) ∈ catalog_keys) ellipse_list.
Proof. apply (bool_decide_unpack _). vm_compute. exact I. Qed.

Lemma set_if_absent_other (key val k : string) (params : paramset) :
  k <> key -> set_if_absent key val params !! k = params !! k.
Proof.
  intros Hne. unfold set_if_absent.
  destruct (params !! key); [reflexivity |].
  apply lookup_insert_ne. congruence.
Qed.

(** [setDatum] leaves every key outside the catalogs' as it was. *)
Lemma setDatum_other_keys (p p' : pj) (params params' : paramset) (err : option error)
    (k : string) :
  k ∉ catalog_keys ->
  setDatum p params = Ret (p', params', err) ->
  params' !! k = params !! k.
Proof.
  intros Hk. unfold setDatum.
  set (ps := match paramset_string params "datum" with
             | (name, true) => _ | (_, false) => params end).
  assert (Hps : ps !! k = params !! k).
  { subst ps. destruct (paramset_string params "datum") as [name [|]]; [| reflexivity].
    destruct (datums_list !! name) as [d |] eqn:Hd; [| reflexivity].
    pose proof (datums_list_keys name d Hd) as Hin. cbn beta in Hin.
    destruct (keyVal (definition d)) as [key val]. cbn [fst] in Hin.
    rewrite lookup_insert_ne by (intros ->; contradiction).
    apply lookup_insert_ne. intros <-. apply Hk. constructor. }
  clearbody ps.
  destruct (snd (paramset_string ps "nadgrids")).
  { intros H. injection H as <- <- <-. exact Hps. }
  destruct (paramset_string ps "catalog") as [cat [|]].
  { intros H. injection H as <- <- <-. exact Hps. }
  destruct (paramset_string ps "towgs84") as [tw [|]].
  - destruct (store_parts _ _ _) as [dp |]; cbn -[alter]; [| discriminate].
    destruct (length (GoStrings.Split tw ",") =? 7)%nat;
      intros H; injection H as <- <- <-; exact Hps.
  - intros H. injection H as <- <- <-. exact Hps.
Qed.

(** So does [setEllipse]. *)
Lemma setEllipse_other_keys (p p' : pj) (params params' : paramset) (err : option error)
    (k : string) :
  k ∉ catalog_keys ->
  setEllipse p params = (p', params', err) ->
  params' !! k = params !! k.
Proof.
  intros Hk. unfold setEllipse.
  destruct (paramset_float params "R") as [r [|]].
  { intros H. injection H as <- <- <-. reflexivity. }
  set (ps := match paramset_string params "ellps" with
             | (name, true) => _ | (_, false) => params end).
  assert (Hps : ps !! k = params !! k).
  { subst ps. destruct (paramset_string params "ellps") as [name [|]]; [| reflexivity].
    destruct (ellipse_list !! name) as [el |] eqn:Hel; [| reflexivity].
    pose proof (ellipse_list_keys name el Hel) as [Hin1 Hin2]. cbn beta in Hin1, Hin2.
    destruct (keyVal (major el)) as [key1 val1].
    destruct (keyVal (ell el)) as [key2 val2]. cbn [fst] in Hin1, Hin2.
    rewrite !set_if_absent_other by (intros ->; contradiction). reflexivity. }
  clearbody ps.
  match goal with
  | |- match ?X with (_, _) => _ end = _ -> _ => destruct X as [p0 b0]
  end.
  intros H. injection H as <- <- <-. exact Hps.
Qed.

End ResolveFacts.

Section ResolveSteps.
Local Open Scope float_scope.

Lemma not_catalog_key (k : string) :
  bool_decide (k ∈ catalog_keys) = false -> k ∉ catalog_keys.
Proof. intros H Hin. apply bool_decide_eq_false in H. contradiction. Qed.

Lemma paramset_float_ext (m1 m2 : paramset) (k : string) :
  m1 !! k = m2 !! k -> paramset_float m1 k = paramset_float m2 k.
Proof. intros H. unfold paramset_float. rewrite H. reflexivity. Qed.

Lemma paramset_string_ext (m1 m2 : paramset) (k : string) :
  m1 !! k = m2 !! k -> paramset_string m1 k = paramset_string m2 k.
Proof. intros H. unfold paramset_string. rewrite H. reflexivity. Qed.

(** A successful resolution, taken apart. *)
Lemma resolve_inl_inv (parms parms' : paramset) (pin : pj) :
  resolve parms = Ret (inl (pin, parms')) ->
  exists projv p1 parms1 e1 p2 e2 p3,
    parms !! "proj" = Some projv /\
    setDatum (set_proj projv new_pj) parms = Ret (p1, parms1, e1) /\
    setEllipse p1 parms1 = (p2, parms', e2) /\
    resolve_axis (resolve_flags (resolve_wgs84 (resolve_derived p2)) parms') parms' = inl p3 /\
    (k0 (resolve_scale (resolve_placement p3 parms') parms') <=? 0) = false /\
    pin = resolve_pm
            (resolve_vunits
               (resolve_units (resolve_scale (resolve_placement p3 parms') parms') parms')
               parms')
            parms'.
Proof.
  unfold resolve, paramset_string at 1.
  destruct (parms !! "proj") as [projv |] eqn:Hproj; [| discriminate].
  destruct (setDatum (set_proj projv new_pj) parms) as [[[p1 parms1] e1] |] eqn:Hd;
    [| discriminate].
  cbn [mbind result_bind].
  destruct (setEllipse p1 parms1) as [[p2 parms2] e2] eqn:He.
  destruct (resolve_axis _ parms2) as [p3 | err] eqn:Hax; [| discriminate].
  destruct (k0 _ <=? 0) eqn:Hk; [discriminate |].
  intros H. injection H as <- <-.
  exists projv, p1, parms1, e1, p2, e2, p3. repeat split; assumption.
Qed.

Lemma k0_resolve_scale (p : pj) (parms : paramset) :
  k0 (resolve_scale p parms) = scale_param parms.
Proof.
  unfold resolve_scale, scale_param.
  destruct (paramset_float parms "k_0") as [v [|]]; [reflexivity |].
  destruct (paramset_float parms "k") as [v' [|]]; reflexivity.
Qed.

Lemma k0_resolve_units (p : pj) (parms : paramset) :
  k0 (resolve_units p parms) = k0 p.
Proof.
  unfold resolve_units.
  destruct (paramset_string parms "units") as [name [|]].
  - destruct (units_list !! name); reflexivity.
  - destruct (negb _); reflexivity.
Qed.

Lemma k0_resolve_vunits (p : pj) (parms : paramset) :
  k0 (resolve_vunits p parms) = k0 p.
Proof.
  unfold resolve_vunits.
  destruct (paramset_string parms "vunits") as [name [|]].
  - destruct (units_list !! name); reflexivity.
  - destruct (negb _); reflexivity.
Qed.

Lemma k0_resolve_pm (p : pj) (parms : paramset) :
  k0 (resolve_pm p parms) = k0 p.
Proof.
  unfold resolve_pm.
  destruct (paramset_string parms "pm") as [name [|]]; [| reflexivity].
  destruct (pm_list !! name); reflexivity.
Qed.

(** The datum and ellipsoid steps do not touch a key outside the
    catalogs'. *)
Lemma resolve_other_keys (parms parms' : paramset) (pin : pj) (k : string) :
  k ∉ catalog_keys ->
  resolve parms = Ret (inl (pin, parms')) ->
  parms' !! k = parms !! k.
Proof.
  intros Hk Hres.
  destruct (resolve_inl_inv _ _ _ Hres)
    as (projv & p1 & parms1 & e1 & p2 & e2 & p3 & _ & Hd & He & _).
  rewrite (setEllipse_other_keys _ _ _ _ _ _ Hk He).
  apply (setDatum_other_keys _ _ _ _ _ _ Hk Hd).
Qed.

Lemma scale_param_ext (m1 m2 : paramset) :
  m1 !! "k_0" = m2 !! "k_0" -> m1 !! "k" = m2 !! "k" ->
  scale_param m1 = scale_param m2.
Proof.
  intros H0 H1. unfold scale_param.
  rewrite (paramset_float_ext _ _ _ H0), (paramset_float_ext _ _ _ H1). reflexivity.
Qed.

Lemma resolve_k0 (parms parms' : paramset) (pin : pj) :
  resolve parms = Ret (inl (pin, parms')) ->
  k0 pin = scale_param parms /\ (k0 pin <=? 0) = false.
Proof.
  intros Hres.
  assert (Hsc : scale_param parms' = scale_param parms).
  { apply scale_param_ext.
    - apply (resolve_other_keys _ _ _ "k_0" (not_catalog_key "k_0" eq_refl) Hres).
    - apply (resolve_other_keys _ _ _ "k" (not_catalog_key "k" eq_refl) Hres). }
  destruct (resolve_inl_inv _ _ _ Hres)
    as (projv & p1 & parms1 & e1 & p2 & e2 & p3 & _ & _ & _ & _ & Hk & ->).
  rewrite k0_resolve_pm, k0_resolve_vunits, k0_resolve_units.
  split; [| exact Hk].
  rewrite k0_resolve_scale. exact Hsc.
Qed.

Lemma resolve_axis_error (p : pj) (parms : paramset) (err : error) :
  resolve_axis p parms = inr err -> err = ErrInvalidParam.
Proof.
  unfold resolve_axis.
  destruct (paramset_string parms "axis") as [ax [|]]; [| discriminate].
  destruct (negb _); [| discriminate].
  intros H. injection H as <-. reflexivity.
Qed.

Lemma resolve_scale_not_positive (parms : paramset) :
  is_Some (parms !! "proj") ->
  (scale_param parms <=? 0) = true ->
  resolve parms = Ret (inr ErrInvalidParam) \/ exists msg, resolve parms = Panic msg.
Proof.
  intros [projv Hproj] Hsc.
  destruct (resolve parms) as [[[pin parms'] | err] | msg] eqn:Hres.
  - destruct (resolve_k0 _ _ _ Hres) as [Hk Hpos].
    rewrite Hk, Hsc in Hpos. discriminate.
  - left. f_equal. f_equal.
    revert Hres. unfold resolve, paramset_string at 1. rewrite Hproj.
    destruct (setDatum (set_proj projv new_pj) parms) as [[[p1 parms1] e1] |] eqn:Hd;
      [| discriminate].
    cbn [mbind result_bind].
    destruct (setEllipse p1 parms1) as [[p2 parms2] e2] eqn:He.
    destruct (resolve_axis _ parms2) as [p3 | err'] eqn:Hax.
    + destruct (k0 _ <=? 0); intros H; [| discriminate].
      injection H as <-. reflexivity.
    + intros H. injection H as <-. apply (resolve_axis_error _ _ _ Hax).
  - right. exists msg. reflexivity.
Qed.

Lemma resolve_no_proj (parms : paramset) :
  parms !! "proj" = None -> resolve parms = Ret (inr ErrUnsupportedProj).
Proof.
  intros H. unfold resolve, paramset_string at 1. rewrite H. reflexivity.
Qed.

(** Units: with [units] present, [to_meter] and [fr_meter] end as 1. *)
Lemma resolve_units_present (p : pj) (parms : paramset) (name : string) :
  parms !! "units" = Some name ->
  to_meter (resolve_units p parms) = 1 /\ fr_meter (resolve_units p parms) = 1.
Proof.
  intros H. unfold resolve_units. rewrite (paramset_string_Some _ _ _ H).
  destruct (units_list !! name); split; reflexivity.
Qed.

Lemma resolve_vunits_not_in_catalog (p : pj) (parms : paramset) :
  (forall v u, parms !! "vunits" = Some v -> units_list !! v = Some u -> False) ->
  to_meter (resolve_vunits p parms) = to_meter p /\
  fr_meter (resolve_vunits p parms) = fr_meter p.
Proof.
  intros Hv. unfold resolve_vunits.
  destruct (parms !! "vunits") as [v |] eqn:Hvu.
  - rewrite (paramset_string_Some _ _ _ Hvu).
    destruct (units_list !! v) as [u |] eqn:Hu; [exfalso; eauto |].
    split; reflexivity.
  - rewrite (paramset_string_None _ _ Hvu).
    destruct (negb _); split; reflexivity.
Qed.

Lemma resolve_pm_to_meter (p : pj) (parms : paramset) :
  to_meter (resolve_pm p parms) = to_meter p /\ fr_meter (resolve_pm p parms) = fr_meter p.
Proof.
  unfold resolve_pm.
  destruct (paramset_string parms "pm") as [name [|]]; [| split; reflexivity].
  destruct (pm_list !! name); split; reflexivity.
Qed.

(** Whatever the catalog says about the unit, a definition with [units]
    and without a catalogued [vunits] resolves to the factor 1. *)
Lemma units_catalog_value_not_kept (parms parms' : paramset) (pin : pj) (name : string) :
  parms !! "units" = Some name ->
  (forall v u, parms !! "vunits" = Some v -> units_list !! v = Some u -> False) ->
  resolve parms = Ret (inl (pin, parms')) ->
  to_meter pin = 1 /\ fr_meter pin = 1.
Proof.
  intros Hu Hv Hres.
  pose proof (resolve_other_keys _ _ _ "units" (not_catalog_key "units" eq_refl) Hres) as Hu'.
  pose proof (resolve_other_keys _ _ _ "vunits" (not_catalog_key "vunits" eq_refl) Hres) as Hv'.
  rewrite Hu in Hu'. rewrite <- Hv' in Hv.
  destruct (resolve_inl_inv _ _ _ Hres)
    as (projv & p1 & parms1 & e1 & p2 & e2 & p3 & _ & _ & _ & _ & _ & ->).
  destruct (resolve_pm_to_meter
              (resolve_vunits
                 (resolve_units (resolve_scale (resolve_placement p3 parms') parms') parms')
                 parms') parms') as [-> ->].
  destruct (resolve_vunits_not_in_catalog
              (resolve_units (resolve_scale (resolve_placement p3 parms') parms') parms')
              parms' Hv) as [-> ->].
  apply (resolve_units_present _ _ _ Hu').
Qed.

End ResolveSteps.

(** ** Construction: kernel initialisation and units *)

Section ConstructionClaims.
Local Open Scope float_scope.

(** C2: the standard parallels 18 and -18.  The kernel initialiser
    returns its error, having stored the two parallels only, and
    [NewProjection] returns that half-initialised handle with a [nil]
    error. *)
Theorem C2_lcc_degenerate_parallels (libm : MathLib) :
  exists (pin : pj) (parms : paramset) (ll ll' : LCC),
    resolve (parse_params "+proj=lcc +ellps=WGS84 +lat_1=18 +lat_2=-18")
      = Ret (inl (pin, parms)) /\
    lookupImpl pin = Some (impl_LCC ll) /\
    (Abs (18 * d2r + -18 * d2r) <=? epsln) = true /\
    LCC_init libm ll parms = (ll', Some (errors_New "these can't be the same")) /\
    n ll' = 0 /\ c ll' = 0 /\ rho0 ll' = 0 /\
    NewProjection libm "+proj=lcc +ellps=WGS84 +lat_1=18 +lat_2=-18"
      = Ret (Some (impl_LCC ll'), None).
Proof.
  eexists _, _, _, _.
  split; [vm_compute; reflexivity |].
  split; [vm_compute; reflexivity |].
  split; [vm_compute; reflexivity |].
  split; [vm_compute; reflexivity |].
  vm_compute. repeat split; reflexivity.
Qed.

(** C3: [+units=km].  The catalog gives 1000 meters per unit;
    the resolved [to_meter] and [fr_meter] are 1 and [ToMeter()] reports 1,
    as it does without any [units] and for a name the catalog lacks. *)
Theorem C3_units_km_to_meter (libm : MathLib) :
  unit_to_meter <$> units_list !! "km" = Some 1000 /\
  (exists imp,
      NewProjection libm "+proj=longlat +ellps=WGS84 +units=km" = Ret (Some imp, None) /\
      ToMeter imp = 1 /\ to_meter (impl_pj imp) = 1 /\ fr_meter (impl_pj imp) = 1) /\
  (exists imp,
      NewProjection libm "+proj=longlat +ellps=WGS84" = Ret (Some imp, None) /\
      ToMeter imp = 1) /\
  (exists imp,
      NewProjection libm "+proj=longlat +ellps=WGS84 +units=degrees" = Ret (Some imp, None) /\
      ToMeter imp = 1).
Proof.
  split; [vm_compute; reflexivity |].
  repeat split; eexists; (split; [vm_compute; reflexivity |]);
    vm_compute; repeat split; reflexivity.
Qed.

End ConstructionClaims.

(** ** Round trips *)

Section RoundTripClaims.
Local Open Scope float_scope.

(** The first end-to-end scenario, as [TestProjString] runs it. *)
Lemma longlat_scenario (libm : MathLib) :
  exists imp x y lng lat,
    NewProjection libm
      "+title=WGS 84 (long/lat) +proj=longlat +ellps=WGS84 +datum=WGS84 +units=degrees"
      = Ret (Some imp, None) /\
    Forward libm imp (18.5 * d2r) (54.2 * d2r) = Ret (x, y, None) /\
    close (18.5 * d2r) x = true /\ close (54.2 * d2r) y = true /\
    Inverse libm imp x y = Ret (lng, lat, None) /\
    close (18.5 * d2r) lng = true /\ close (54.2 * d2r) lat = true.
Proof.
  eexists _, _, _, _, _.
  split; [vm_compute; reflexivity |].
  split; [vm_compute; reflexivity |].
  split; [vm_compute; reflexivity |].
  split; [vm_compute; reflexivity |].
  split; [vm_compute; reflexivity |].
  vm_compute. split; reflexivity.
Qed.

(** C4: the Geographic kernel with a central meridian,
    [+proj=longlat +ellps=WGS84 +lon_0=90], at longitude 1 and latitude
    0.5.  [Forward] subtracts the meridian; [Inverse] returns the
    longitude still relative to it, [1 - 90 * d2r], not the original 1. *)
Theorem C4_longlat_central_meridian (libm : MathLib) :
  exists imp x y lng lat,
    NewProjection libm "+proj=longlat +ellps=WGS84 +lon_0=90" = Ret (Some imp, None) /\
    lam0 (impl_pj imp) = 90 * d2r /\
    Forward libm imp 1 0.5 = Ret (x, y, None) /\
    Inverse libm imp x y = Ret (lng, lat, None) /\
    close lng 1 = false /\
    close lng (1 - 90 * d2r) = true /\
    close lat 0.5 = true.
Proof.
  eexists _, _, _, _, _.
  split; [vm_compute; reflexivity |].
  split; [vm_compute; reflexivity |].
  split; [vm_compute; reflexivity |].
  split; [vm_compute; reflexivity |].
  vm_compute. repeat split; reflexivity.
Qed.

End RoundTripClaims.


(** ** Mercator *)

Section MercatorClaims.
Local Open Scope float_scope.

(** On an ellipsoid, [Mercator.inv] passes [exp(-y/k0)] as the first
    argument of [phi2] (its parameter [e]) and the eccentricity as the
    second (its parameter [ts]), and multiplies [x] by [k0]. *)
Lemma Mercator_inv_ellipsoidal (libm : MathLib) (m : Mercator) (x y : float64) :
  (es (Mercator_pj m) =? 0) = false ->
  Mercator_inv libm m x y =
    Ret (x * k0 (Mercator_pj m),
         fst (phi2 libm (Exp libm (- y / k0 (Mercator_pj m))) (e (Mercator_pj m))),
         snd (phi2 libm (Exp libm (- y / k0 (Mercator_pj m))) (e (Mercator_pj m)))).
Proof.
  intros Hes. unfold Mercator_inv. rewrite Hes. cbn [negb].
  destruct (phi2 libm _ _) as [lat err]. reflexivity.
Qed.

(** The longitude [Inverse] returns on an ellipsoid: the sentinel, or the
    unscaled [x] times [k0]. *)
Lemma Mercator_Inverse_ellipsoidal_lng (libm : MathLib) (m : Mercator) (x y : float64) :
  (es (Mercator_pj m) =? 0) = false ->
  exists lng lat err,
    Mercator_Inverse libm m x y = Ret (lng, lat, err) /\
    (lng = hugeVal \/
     lng = (x * to_meter (Mercator_pj m) - x0 (Mercator_pj m)) * ra (Mercator_pj m)
           * k0 (Mercator_pj m)).
Proof.
  intros Hes. unfold Mercator_Inverse, commonInv.
  destruct ((x =? hugeVal) || (y =? hugeVal))%bool.
  { eexists _, _, _. split; [reflexivity | left; reflexivity]. }
  rewrite (Mercator_inv_ellipsoidal _ _ _ _ Hes). cbn [mbind result_bind].
  destruct (snd (phi2 libm _ _)) as [err |].
  - eexists _, _, _. split; [reflexivity | left; reflexivity].
  - eexists _, _, _. split; [reflexivity | right; reflexivity].
Qed.

(** C1: the ellipsoidal Mercator [+proj=merc +ellps=WGS84 +k_0=2] at
    longitude 0.5 and latitude 0.5, for any [math] library.  [Forward]
    returns [x = 6378137]; [Inverse] of that [x] with any [y] returns a
    longitude that is not within 1e-5 of 0.5: the sentinel, or
    [x / a * k0 = 2].  The latitude comes from [phi2] called with
    [exp(-y/k0)] in the place of the eccentricity and the eccentricity in
    the place of [ts]. *)
Theorem C1_mercator_ellipsoidal_inverse (libm : MathLib) :
  exists (m : Mercator) (y : float64),
    NewProjection libm "+proj=merc +ellps=WGS84 +k_0=2" = Ret (Some (impl_Mercator m), None) /\
    (es (Mercator_pj m) =? 0) = false /\
    Forward libm (impl_Mercator m) 0.5 0.5 = Ret (6378137, y, None) /\
    (forall y' : float64,
        exists lng lat err,
          Inverse libm (impl_Mercator m) 6378137 y' = Ret (lng, lat, err) /\
          close lng 0.5 = false) /\
    (forall x' y' : float64,
        Mercator_inv libm m x' y' =
          Ret (x' * 2,
               fst (phi2 libm (Exp libm (- y' / 2)) (e (Mercator_pj m))),
               snd (phi2 libm (Exp libm (- y' / 2)) (e (Mercator_pj m))))).
Proof.
  eexists _, _.
  split; [vm_compute; reflexivity |].
  split; [vm_compute; reflexivity |].
  split; [vm_compute; reflexivity |].
  split.
  - intros y'. cbn [Inverse].
    match goal with
    | |- context [Mercator_Inverse libm ?m _ _] =>
        destruct (Mercator_Inverse_ellipsoidal_lng libm m 6378137 y' eq_refl)
          as (lng & lat & err & Hinv & Hlng)
    end.
    exists lng, lat, err. split; [exact Hinv |].
    destruct Hlng as [-> | ->]; vm_compute; reflexivity.
  - intros x' y'.
    match goal with
    | |- Mercator_inv libm ?m _ _ = _ =>
        exact (Mercator_inv_ellipsoidal libm m x' y' eq_refl)
    end.
Qed.

End MercatorClaims.


(** * Further properties *)

(** ** Tokens of a definition string *)

Section StringFacts.

Lemma append_empty_l (s : string) : "" ++ s = s.
Proof. reflexivity. Qed.

Lemma append_String (c : ascii) (a s : string) : String c a ++ s = String c (a ++ s).
Proof. reflexivity. Qed.

Lemma Split_nonempty (s : string) (sep : ascii) : GoStrings.Split s sep <> [].
Proof.
  destruct s as [| c s]; cbn [GoStrings.Split]; [discriminate |].
  destruct (Ascii.eqb c sep); [discriminate |].
  destruct (GoStrings.Split s sep); discriminate.
Qed.

(** Splitting distributes over a separator in the middle. *)
Lemma Split_app (a b : string) (sep : ascii) :
  GoStrings.Split (a ++ String sep b) sep
  = (GoStrings.Split a sep ++ GoStrings.Split b sep)%list.
Proof.
  induction a as [| c a IH]; rewrite ?append_empty_l, ?append_String; cbn [GoStrings.Split].
  - rewrite Ascii.eqb_refl. reflexivity.
  - destruct (Ascii.eqb c sep).
    + rewrite IH. reflexivity.
    + rewrite IH.
      destruct (GoStrings.Split a sep) as [| w ws] eqn:Hs; [| reflexivity].
      exfalso. exact (Split_nonempty _ _ Hs).
Qed.

Lemma Split_no_sep (s : string) (sep : ascii) :
  GoStrings.Index s sep = None -> GoStrings.Split s sep = [s].
Proof.
  induction s as [| c s IH]; cbn [GoStrings.Index GoStrings.Split]; [reflexivity |].
  destruct (Ascii.eqb c sep); [discriminate |].
  destruct (GoStrings.Index s sep); [discriminate |].
  intros _. rewrite IH by reflexivity. reflexivity.
Qed.

Lemma Index_app_None (a b : string) (c : ascii) :
  GoStrings.Index a c = None -> GoStrings.Index b c = None ->
  GoStrings.Index (a ++ b) c = None.
Proof.
  induction a as [| x a IH]; rewrite ?append_empty_l, ?append_String; cbn [GoStrings.Index];
    [intros _ H; exact H |].
  destruct (Ascii.eqb x c); [discriminate |].
  destruct (GoStrings.Index a c) eqn:Ha; [discriminate |].
  intros _ Hb. rewrite IH by (reflexivity || assumption). reflexivity.
Qed.

Lemma Index_app_here (a b : string) (c : ascii) :
  GoStrings.Index a c = None ->
  GoStrings.Index (a ++ String c b) c = Some (String.length a).
Proof.
  induction a as [| x a IH]; rewrite ?append_empty_l, ?append_String;
    cbn [GoStrings.Index String.length].
  - rewrite Ascii.eqb_refl. reflexivity.
  - destruct (Ascii.eqb x c); [discriminate |].
    destruct (GoStrings.Index a c) eqn:Ha; [discriminate |].
    intros _. rewrite IH by reflexivity. reflexivity.
Qed.

Lemma take_app (a b : string) : GoStrings.take (String.length a) (a ++ b) = a.
Proof.
  induction a as [| x a IH]; rewrite ?append_empty_l, ?append_String;
    cbn [GoStrings.take String.length].
  - destruct b; reflexivity.
  - rewrite IH. reflexivity.
Qed.

Lemma drop_app (a b : string) (c : ascii) :
  GoStrings.drop (S (String.length a)) (a ++ String c b) = b.
Proof.
  induction a as [| x a IH]; rewrite ?append_empty_l, ?append_String;
    cbn [GoStrings.drop String.length].
  - reflexivity.
  - exact IH.
Qed.

Lemma append_nonempty (a b : string) (c : ascii) : a ++ String c b <> "".
Proof. destruct a; discriminate. Qed.

End StringFacts.

Section TokenFacts.

Lemma keyVal_pair (k v : string) :
  GoStrings.Index k "=" = None -> GoStrings.Index v "=" = None ->
  keyVal (k ++ "=" ++ v) = (k, v).
Proof.
  intros Hk Hv. unfold keyVal.
  change (k ++ "=" ++ v) with (k ++ String "=" v).
  rewrite Split_app, (Split_no_sep _ _ Hk), (Split_no_sep _ _ Hv). reflexivity.
Qed.

Lemma keyVal_bare (k : string) :
  GoStrings.Index k "=" = None -> keyVal k = (k, "").
Proof. intros Hk. unfold keyVal. rewrite (Split_no_sep _ _ Hk). reflexivity. Qed.

(** With a second [=] the value is dropped. *)
Lemma keyVal_two_separators (k v w : string) :
  GoStrings.Index k "=" = None ->
  keyVal (k ++ "=" ++ v ++ "=" ++ w) = (k, "").
Proof.
  intros Hk. unfold keyVal.
  change (k ++ "=" ++ v ++ "=" ++ w) with (k ++ String "=" (v ++ String "=" w)).
  rewrite !Split_app, (Split_no_sep _ _ Hk).
  destruct (GoStrings.Split v "=") as [| v1 vs] eqn:Hv; [destruct (Split_nonempty _ _ Hv) |].
  destruct (GoStrings.Split w "=") as [| w1 ws] eqn:Hw; [destruct (Split_nonempty _ _ Hw) |].
  cbn [app]. destruct vs; reflexivity.
Qed.

(** X1.  [keyVal] undoes the writing of a token: [key=value] gives the pair
    (key, value) and a bare [key] gives (key, empty string), for a key and a
    value without [=]; a token with two or more [=] keeps its first field as
    the key and loses its value. *)
Theorem X1_keyVal_token (k v w : string) :
  GoStrings.Index k "=" = None ->
  (GoStrings.Index v "=" = None -> keyVal (k ++ "=" ++ v) = (k, v)) /\
  keyVal k = (k, "") /\
  keyVal (k ++ "=" ++ v ++ "=" ++ w) = (k, "").
Proof.
  intros Hk. split; [intros Hv; apply keyVal_pair; assumption |].
  split; [apply keyVal_bare; assumption | apply keyVal_two_separators; assumption].
Qed.

Lemma X1_keyVal_token_witness :
  keyVal ("lat_0" ++ "=" ++ "12d30'") = ("lat_0", "12d30'") /\
  keyVal "geoc" = ("geoc", "") /\
  keyVal ("a" ++ "=" ++ "b" ++ "=" ++ "c") = ("a", "").
Proof.
  destruct (X1_keyVal_token "lat_0" "12d30'" "" eq_refl) as [H1 _].
  destruct (X1_keyVal_token "geoc" "" "" eq_refl) as [_ [H2 _]].
  destruct (X1_keyVal_token "a" "b" "c" eq_refl) as [_ [_ H3]].
  split; [exact (H1 eq_refl) |]. split; [exact H2 | exact H3].
Defined.

(** One turn of the loop of [NewProjection] over the tokens. *)
Lemma parse_params_app (str tok : string) :
  GoStrings.Index tok "+" = None ->
  parse_params (str ++ "+" ++ tok) =
    (let param := GoStrings.TrimSpace tok in
     if String.eqb param "" then parse_params str
     else let '(key, val) := keyVal param in <[key := val]> (parse_params str)).
Proof.
  intros Htok. unfold parse_params.
  change (str ++ "+" ++ tok) with (str ++ String "+" tok).
  rewrite Split_app, (Split_no_sep _ _ Htok), fold_left_app. reflexivity.
Qed.

Lemma parse_params_token (str k v : string) :
  GoStrings.Index k "+" = None -> GoStrings.Index v "+" = None ->
  GoStrings.Index k "=" = None -> GoStrings.Index v "=" = None ->
  GoStrings.TrimSpace (k ++ "=" ++ v) = k ++ "=" ++ v ->
  parse_params (str ++ "+" ++ k ++ "=" ++ v) = <[k := v]> (parse_params str).
Proof.
  intros Hkp Hvp Hk Hv Htrim.
  rewrite parse_params_app.
  - cbv zeta. rewrite Htrim.
    destruct (String.eqb_spec (k ++ "=" ++ v) "") as [He | _].
    + exfalso. exact (append_nonempty k v "=" He).
    + rewrite (keyVal_pair _ _ Hk Hv). reflexivity.
  - apply Index_app_None; [exact Hkp |].
    change ("=" ++ v) with (String "=" v). cbn [GoStrings.Index].
    change (Ascii.eqb "=" "+") with false. cbv iota. rewrite Hvp. reflexivity.
Qed.

Lemma parse_params_flag (str k : string) :
  GoStrings.Index k "+" = None -> GoStrings.Index k "=" = None ->
  GoStrings.TrimSpace k = k -> k <> "" ->
  parse_params (str ++ "+" ++ k) = <[k := ""]> (parse_params str).
Proof.
  intros Hkp Hk Htrim Hne.
  rewrite (parse_params_app _ _ Hkp). cbv zeta. rewrite Htrim.
  destruct (String.eqb_spec k "") as [He | _]; [contradiction |].
  rewrite (keyVal_bare _ Hk). reflexivity.
Qed.

Lemma parse_params_blank (str ws : string) :
  GoStrings.Index ws "+" = None -> GoStrings.TrimSpace ws = "" ->
  parse_params (str ++ "+" ++ ws) = parse_params str.
Proof.
  intros Hp Htrim. rewrite (parse_params_app _ _ Hp). cbv zeta. rewrite Htrim. reflexivity.
Qed.

End TokenFacts.

Section TokenClaims.

(** X2.  A token [+key=value] written after a definition sets [key] to
    [value] in the parameter map, replacing what an earlier token gave it,
    and leaves every other key as the definition had it.  The key and the
    value contain no [+] and no [=], and the token has no white space at
    its ends. *)
Theorem X2_parse_params_last_token (str k v : string) :
  GoStrings.Index k "+" = None -> GoStrings.Index v "+" = None ->
  GoStrings.Index k "=" = None -> GoStrings.Index v "=" = None ->
  GoStrings.TrimSpace (k ++ "=" ++ v) = k ++ "=" ++ v ->
  parse_params (str ++ "+" ++ k ++ "=" ++ v) !! k = Some v /\
  (forall k', k' <> k ->
     parse_params (str ++ "+" ++ k ++ "=" ++ v) !! k' = parse_params str !! k').
Proof.
  intros Hkp Hvp Hk Hv Htrim.
  rewrite (parse_params_token _ _ _ Hkp Hvp Hk Hv Htrim).
  split; [apply lookup_insert_eq |].
  intros k' Hne. apply lookup_insert_ne. congruence.
Qed.

Lemma X2_parse_params_last_token_witness :
  parse_params ("+proj=merc +k_0=1" ++ "+" ++ "k_0" ++ "=" ++ "2") !! "k_0" = Some "2" /\
  (forall k', k' <> "k_0" ->
     parse_params ("+proj=merc +k_0=1" ++ "+" ++ "k_0" ++ "=" ++ "2") !! k'
     = parse_params "+proj=merc +k_0=1" !! k').
Proof.
  exact (X2_parse_params_last_token "+proj=merc +k_0=1" "k_0" "2"
           eq_refl eq_refl eq_refl eq_refl eq_refl).
Defined.

(** X3.  A bare token [+name] (no [=], no [+], no white space at its ends,
    not empty) is stored with the empty string as its value, which the
    boolean accessor reads as true; a token of white space only is skipped
    and changes nothing. *)
Theorem X3_parse_params_flag_and_blank (str k ws : string) :
  GoStrings.Index k "+" = None -> GoStrings.Index k "=" = None ->
  GoStrings.TrimSpace k = k -> k <> "" ->
  GoStrings.Index ws "+" = None -> GoStrings.TrimSpace ws = "" ->
  paramset_bool (parse_params (str ++ "+" ++ k)) k = (true, true) /\
  paramset_string (parse_params (str ++ "+" ++ k)) k = ("", true) /\
  parse_params (str ++ "+" ++ ws) = parse_params str.
Proof.
  intros Hkp Hk Htrim Hne Hwp Hws.
  rewrite (parse_params_flag _ _ Hkp Hk Htrim Hne).
  unfold paramset_bool, paramset_string. rewrite lookup_insert_eq.
  split; [reflexivity |]. split; [reflexivity |].
  apply parse_params_blank; assumption.
Qed.

Lemma X3_parse_params_flag_and_blank_witness :
  paramset_bool (parse_params ("+proj=merc" ++ "+" ++ "geoc")) "geoc" = (true, true) /\
  paramset_string (parse_params ("+proj=merc" ++ "+" ++ "geoc")) "geoc" = ("", true) /\
  parse_params ("+proj=merc" ++ "+" ++ "  ") = parse_params "+proj=merc".
Proof.
  apply (X3_parse_params_flag_and_blank "+proj=merc" "geoc" "  ");
    try reflexivity.
  discriminate.
Defined.

End TokenClaims.


(** ** Proof steps shared below *)

(** Case analysis on every [match] and [if] of the goal. *)
Ltac case_matches :=
  repeat match goal with
         | |- context [match ?X with _ => _ end] => destruct X
         end.

(** Evaluation of the field assignments on a record written out. *)
Ltac norm_pj :=
  cbv beta iota zeta delta
    [set_proj set_axis set_datumType set_datumParams set_catalogName set_a set_es set_e set_ra set_lam0 set_phi0 set_k0 set_x0 set_y0 set_oneEs set_rOneEs set_aOrig set_esOrig set_geoc set_over set_long_wrap_set set_long_wrap_center set_to_meter set_fr_meter set_vto_meter set_vfr_meter set_from_greenwich
     proj axis datumType datumParams catalogName a es e ra lam0 phi0 k0 x0 y0 oneEs rOneEs aOrig esOrig geoc over long_wrap_set long_wrap_center to_meter fr_meter vto_meter vfr_meter from_greenwich
     new_pj resolve_derived resolve_placement].
Ltac norm_pj_in H :=
  cbv beta iota zeta delta
    [set_proj set_axis set_datumType set_datumParams set_catalogName set_a set_es set_e set_ra set_lam0 set_phi0 set_k0 set_x0 set_y0 set_oneEs set_rOneEs set_aOrig set_esOrig set_geoc set_over set_long_wrap_set set_long_wrap_center set_to_meter set_fr_meter set_vto_meter set_vfr_meter set_from_greenwich
     proj axis datumType datumParams catalogName a es e ra lam0 phi0 k0 x0 y0 oneEs rOneEs aOrig esOrig geoc over long_wrap_set long_wrap_center to_meter fr_meter vto_meter vfr_meter from_greenwich
     new_pj resolve_derived resolve_placement] in H.


(** ** What each step of the resolution assigns *)

Section StepFrames.
Local Open Scope float_scope.

Lemma store_parts_length (parts : list string) (dp dp' : list float64) (i : nat) :
  store_parts dp i parts = Ret dp' -> length dp' = length dp.
Proof.
  revert dp i. induction parts as [| f rest IH]; intros dp i; cbn [store_parts].
  - intros H. injection H as <-. reflexivity.
  - destruct (i <? length dp)%nat; [| discriminate].
    intros H. rewrite (IH _ _ H). apply length_insert.
Qed.

(** [setDatum] assigns the datum tag, the shift vector and the catalog
    name and nothing else; the tag it assigns is 0 and the vector it
    assigns has seven elements. *)
Lemma setDatum_fields (p p' : pj) (params params' : paramset) (err : option error) :
  setDatum p params = Ret (p', params', err) ->
  exists dt dp cn,
    p' = set_catalogName cn (set_datumParams dp (set_datumType dt p)) /\
    (dt = datumType p \/ dt = 0%Z) /\
    (dp = datumParams p \/ exists l, dp = Some l /\ length l = 7%nat) /\
    err = None.
Proof.
  unfold setDatum.
  set (ps := match paramset_string params "datum" with
             | (name, true) => _ | (_, false) => params end).
  clearbody ps.
  destruct (snd (paramset_string ps "nadgrids")).
  { intros H. injection H as <- <- <-.
    exists 0%Z, (datumParams p), (catalogName p).
    split; [destruct p; reflexivity |]. repeat split; auto. }
  destruct (paramset_string ps "catalog") as [cat [|]].
  { intros H. injection H as <- <- <-.
    exists 0%Z, (datumParams p), cat.
    split; [destruct p; reflexivity |]. repeat split; auto. }
  destruct (paramset_string ps "towgs84") as [tw [|]].
  - destruct (store_parts _ _ _) as [dp |] eqn:Hst; cbn -[alter]; [| discriminate].
    apply store_parts_length in Hst. rewrite length_replicate in Hst.
    destruct (length (GoStrings.Split tw ",") =? 7)%nat;
      intros H; injection H as <- <- <-.
    + match goal with
      | |- context [set_datumParams ?d _] => exists 0%Z, d, (catalogName p)
      end.
      split; [destruct p; reflexivity |]. split; [auto |]. split; [| reflexivity].
      right. eexists. split; [reflexivity |].
      rewrite !length_alter. exact Hst.
    + exists 0%Z, (Some dp), (catalogName p).
      split; [destruct p; reflexivity |]. split; [auto |]. split; [| reflexivity].
      right. exists dp. split; [reflexivity | exact Hst].
  - intros H. injection H as <- <- <-.
    exists (datumType p), (datumParams p), (catalogName p).
    split; [destruct p; reflexivity |]. repeat split; auto.
Qed.

(** [setEllipse] assigns [a] and [es] and nothing else. *)
Lemma setEllipse_fields (p p' : pj) (params params' : paramset) (err : option error) :
  setEllipse p params = (p', params', err) ->
  exists a' es', p' = set_es es' (set_a a' p) /\ err = None.
Proof.
  unfold setEllipse.
  destruct (paramset_float params "R") as [r [|]].
  { intros H. injection H as <- <- <-. exists r, (es p).
    split; [destruct p; reflexivity | reflexivity]. }
  set (ps := match paramset_string params "ellps" with
             | (name, true) => _ | (_, false) => params end).
  clearbody ps.
  set (p1 := set_a (fst (paramset_float ps "a")) p).
  match goal with
  | |- match ?X with (_, _) => _ end = _ -> _ => destruct X as [p2 b] eqn:Hc
  end.
  assert (H2 : exists es', p2 = set_es es' p1).
  { revert Hc. case_matches; intros Hc; injection Hc as <- _;
      eexists; destruct p; reflexivity. }
  destruct H2 as [es2 ->].
  set (b' := if b =? 0 then _ else b). clearbody b'.
  intros H. injection H as <- <- <-.
  subst p1. case_matches; eexists _, _; (split; [destruct p; reflexivity | reflexivity]).
Qed.

Lemma resolve_wgs84_fields (p : pj) :
  resolve_wgs84 p = p \/ resolve_wgs84 p = set_datumType 0 p.
Proof. unfold resolve_wgs84. destruct (_ && _)%bool; [right | left]; reflexivity. Qed.

Lemma resolve_flags_fields (p : pj) (parms : paramset) :
  long_wrap_set p = false -> long_wrap_center p = 0 ->
  resolve_flags p parms =
    set_long_wrap_center (fst (paramset_degree parms "lon_wrap"))
      (set_long_wrap_set (snd (paramset_degree parms "lon_wrap"))
         (set_over (fst (paramset_bool parms "over"))
            (set_geoc (fst (paramset_bool parms "geoc")) p))).
Proof.
  intros Hs Hc. unfold resolve_flags, paramset_degree.
  destruct (parms !! "lon_wrap"); cbn [fst snd]; [reflexivity |].
  destruct p; cbn in Hs, Hc; subst; reflexivity.
Qed.

Lemma resolve_axis_fields (p p' : pj) (parms : paramset) :
  String.length (axis p) = 3%nat ->
  resolve_axis p parms = inl p' ->
  exists ax, p' = set_axis ax p /\ String.length ax = 3%nat.
Proof.
  intros Hlen. unfold resolve_axis.
  destruct (paramset_string parms "axis") as [ax [|]].
  - destruct (Nat.eqb_spec (String.length ax) 3) as [Heq | Hne]; cbn [negb]; [| discriminate].
    intros H. injection H as <-. exists ax. split; [reflexivity | exact Heq].
  - intros H. injection H as <-. exists (axis p). split; [destruct p; reflexivity | exact Hlen].
Qed.

Lemma resolve_scale_fields (p : pj) (parms : paramset) :
  resolve_scale p parms = set_k0 (scale_param parms) p.
Proof.
  unfold resolve_scale, scale_param.
  destruct (paramset_float parms "k_0") as [v [|]]; [reflexivity |].
  destruct (paramset_float parms "k") as [v' [|]]; reflexivity.
Qed.

(** The units block leaves the two factors equal: both 1, or both as
    they were. *)
Lemma resolve_units_fields (p : pj) (parms : paramset) :
  exists t,
    resolve_units (set_fr_meter 0 (set_to_meter 0 p)) parms
      = set_fr_meter t (set_to_meter t p) /\
    (t = 1 \/
     (t = 0 /\ parms !! "units" = None /\
      exists s, parms !! "to_meter" = Some s /\ s <> "")).
Proof.
  unfold resolve_units, paramset_string.
  destruct (parms !! "units") as [name |] eqn:Hu.
  - exists 1. split; [| left; reflexivity].
    destruct (units_list !! name); destruct p; reflexivity.
  - destruct (parms !! "to_meter") as [s |] eqn:Ht; cbn [fst].
    + destruct (String.eqb_spec s "") as [-> | Hne]; cbn [negb].
      * exists 1. split; [destruct p; reflexivity | left; reflexivity].
      * exists 0. split; [reflexivity |]. right. repeat split. exists s. split; auto.
    + exists 1. split; [destruct p; reflexivity | left; reflexivity].
Qed.

(** The vertical-units block assigns a catalogued [vunits] value to both
    linear factors, and copies the linear factors to the vertical ones
    unless [vto_meter] is given. *)
Lemma resolve_vunits_fields (p : pj) (parms : paramset) (t : float64) :
  exists t' vt,
    resolve_vunits
      (set_vfr_meter 0 (set_vto_meter 0 (set_fr_meter t (set_to_meter t p)))) parms
      = set_vfr_meter vt (set_vto_meter vt (set_fr_meter t' (set_to_meter t' p))) /\
    (t' = t \/
     exists v u, parms !! "vunits" = Some v /\ units_list !! v = Some u /\
                 t' = unit_to_meter u) /\
    (vt = t' \/ vt = 0).
Proof.
  unfold resolve_vunits, paramset_string.
  destruct (parms !! "vunits") as [v |] eqn:Hv.
  - destruct (units_list !! v) as [u |] eqn:Hu.
    + exists (unit_to_meter u), (unit_to_meter u).
      split; [destruct p; reflexivity |].
      split; [right; exists v, u; auto | left; reflexivity].
    + exists t, t. split; [destruct p; reflexivity |]. split; left; reflexivity.
  - destruct (parms !! "vto_meter") as [s |]; cbn [fst].
    + destruct (String.eqb s ""); cbn [negb].
      * exists t, t. split; [destruct p; reflexivity |]. split; left; reflexivity.
      * exists t, 0. split; [destruct p; reflexivity |]. split; [left | right]; reflexivity.
    + exists t, t. split; [destruct p; reflexivity |]. split; left; reflexivity.
Qed.

Lemma resolve_pm_fields (p : pj) (parms : paramset) :
  from_greenwich p = 0 ->
  resolve_pm p parms =
    set_from_greenwich
      (match parms !! "pm" with
       | Some name =>
           match pm_list !! name with
           | Some pm => parseDegreeString (defn pm)
           | None => 0
           end
       | None => 0
       end) p.
Proof.
  intros H0. unfold resolve_pm, paramset_string.
  destruct (parms !! "pm") as [name |].
  - destruct (pm_list !! name); [reflexivity |].
    destruct p; cbn in H0; subst; reflexivity.
  - destruct p; cbn in H0; subst; reflexivity.
Qed.

End StepFrames.


Section NormalForm.
Local Open Scope float_scope.

(** A configuration that resolves, field by field. *)
Lemma resolve_normal_form (parms parms' : paramset) (pin : pj) :
  resolve parms = Ret (inl (pin, parms')) ->
  exists (projv ax : string) (dp : option (list float64)) (cn : string)
         (a' es' t vt : float64),
    parms !! "proj" = Some projv /\
    String.length ax = 3%nat /\
    (dp = None \/ exists l, dp = Some l /\ length l = 7%nat) /\
    (t = 1 \/
     (t = 0 /\ parms' !! "units" = None /\
      exists s, parms' !! "to_meter" = Some s /\ s <> "") \/
     exists v u, parms' !! "vunits" = Some v /\ units_list !! v = Some u /\
                 t = unit_to_meter u) /\
    (vt = t \/ vt = 0) /\
    pin = {| proj := projv; axis := ax; datumType := 0%Z; datumParams := dp;
             catalogName := cn;
             a := a'; es := es'; e := Sqrt es'; ra := 1 / a';
             lam0 := fst (paramset_degree parms' "lon_0");
             phi0 := fst (paramset_degree parms' "lat_0");
             k0 := scale_param parms';
             x0 := fst (paramset_float parms' "x_0");
             y0 := fst (paramset_float parms' "y_0");
             oneEs := 1 - es'; rOneEs := 1 / (1 - es');
             aOrig := a'; esOrig := es';
             geoc := fst (paramset_bool parms' "geoc");
             over := fst (paramset_bool parms' "over");
             long_wrap_set := snd (paramset_degree parms' "lon_wrap");
             long_wrap_center := fst (paramset_degree parms' "lon_wrap");
             to_meter := t; fr_meter := t; vto_meter := vt; vfr_meter := vt;
             from_greenwich :=
               match parms' !! "pm" with
               | Some name =>
                   match pm_list !! name with
                   | Some pm => parseDegreeString (defn pm)
                   | None => 0
                   end
               | None => 0
               end |}.
Proof.
  intros Hres.
  destruct (resolve_inl_inv _ _ _ Hres)
    as (projv & p1 & parms1 & e1 & p2 & e2 & p3 & Hproj & Hd & He & Hax & _ & ->).
  destruct (setDatum_fields _ _ _ _ _ Hd) as (dt & dp & cn & -> & Hdt & Hdp & _).
  destruct (setEllipse_fields _ _ _ _ _ He) as (a' & es' & -> & _).
  assert (dt = 0%Z) as -> by (destruct Hdt as [-> | ->]; reflexivity).
  assert (Hdp' : dp = None \/ exists l, dp = Some l /\ length l = 7%nat).
  { destruct Hdp as [-> | H]; [left; reflexivity | right; exact H]. }
  clear Hdt Hdp Hd He Hres.
  norm_pj_in Hax.
  set (q2 := Build_pj _ _ _ _ _ _ _ _ _ _ _ _ _ _ _ _ _ _ _ _ _ _ _ _ _ _ _) in Hax.
  assert (Hw : resolve_wgs84 q2 = q2).
  { destruct (resolve_wgs84_fields q2) as [H | H]; rewrite H; reflexivity. }
  rewrite Hw, resolve_flags_fields in Hax by reflexivity.
  subst q2. norm_pj_in Hax.
  apply resolve_axis_fields in Hax; [| reflexivity].
  destruct Hax as (ax & -> & Hax3).
  rewrite resolve_scale_fields. norm_pj.
  match goal with
  | |- context [resolve_units ?Q parms'] =>
      destruct (resolve_units_fields Q parms') as (t & Hu & Ht);
      change (resolve_units Q parms')
        with (resolve_units (set_fr_meter 0 (set_to_meter 0 Q)) parms');
      rewrite Hu
  end.
  norm_pj.
  match goal with
  | |- context [resolve_vunits ?Q parms'] =>
      destruct (resolve_vunits_fields Q parms' t) as (t' & vt & Hv & Ht' & Hvt);
      change (resolve_vunits Q parms')
        with (resolve_vunits
                (set_vfr_meter 0 (set_vto_meter 0 (set_fr_meter t (set_to_meter t Q))))
                parms');
      rewrite Hv
  end.
  norm_pj.
  rewrite resolve_pm_fields by reflexivity.
  norm_pj.
  exists projv, ax, dp, cn, a', es', t', vt.
  split; [exact Hproj |]. split; [exact Hax3 |]. split; [exact Hdp' |].
  split.
  { destruct Ht' as [-> | Hcat]; [| right; right; exact Hcat].
    destruct Ht as [-> | H0]; [left; reflexivity | right; left; exact H0]. }
  split; [exact Hvt |].
  reflexivity.
Qed.

End NormalForm.


(** ** From the resolved configuration to the handle *)

Section HandleFacts.
Local Open Scope float_scope.

Lemma NewProjection_Some_inv (libm : MathLib) (str : string) (imp : impl)
    (err : option error) :
  NewProjection libm str = Ret (Some imp, err) ->
  err = None /\
  exists pin parms' imp0,
    resolve (parse_params str) = Ret (inl (pin, parms')) /\
    lookupImpl pin = Some imp0 /\
    imp = fst (init libm imp0 parms').
Proof.
  unfold NewProjection.
  destruct (resolve (parse_params str)) as [[[pin parms'] | e0] | msg];
    cbn [mbind result_bind]; try discriminate.
  destruct (lookupImpl pin) as [imp0 |] eqn:Hl; [| discriminate].
  destruct (init libm imp0 parms') as [imp' e'] eqn:Hi.
  intros H. injection H as <- <-.
  split; [reflexivity |]. exists pin, parms', imp0.
  rewrite Hi. repeat split; assumption.
Qed.

(** The kernel chosen for a configuration, by its [proj] code. *)
Lemma lookupImpl_cases (pin : pj) (imp0 : impl) :
  lookupImpl pin = Some imp0 ->
  (imp0 = impl_LngLat {| LngLat_pj := pin |} /\
   In (proj pin) ["latlong"; "longlat"; "latlon"; "lonlat"]) \/
  (imp0 = impl_Mercator {| Mercator_pj := pin |} /\ proj pin = "merc") \/
  (imp0 = impl_LCC {| LCC_pj := pin; c := 0; n := 0; rho0 := 0;
                      LCC_phi2 := 0; LCC_phi1 := 0; ellips := false |} /\
   proj pin = "lcc") \/
  (imp0 = impl_Equirectangular {| Equirectangular_pj := pin; Equirectangular_phi1 := 0 |} /\
   proj pin = "eqc").
Proof.
  unfold lookupImpl.
  destruct (existsb (String.eqb (proj pin)) _) eqn:Hex.
  { intros H. injection H as <-. left. split; [reflexivity |].
    apply existsb_exists in Hex. destruct Hex as (x & Hin & Heq).
    apply String.eqb_eq in Heq. subst x. exact Hin. }
  destruct (String.eqb_spec (proj pin) "merc") as [Hm | _].
  { intros H. injection H as <-. right. left. split; [reflexivity | exact Hm]. }
  destruct (String.eqb_spec (proj pin) "lcc") as [Hm | _].
  { intros H. injection H as <-. right. right. left. split; [reflexivity | exact Hm]. }
  destruct (String.eqb_spec (proj pin) "eqc") as [Hm | _]; [| discriminate].
  intros H. injection H as <-. right. right. right. split; [reflexivity | exact Hm].
Qed.

(** The conic initialiser changes the origin latitude and the eccentricity
    of the shared configuration, nothing else in it. *)
Lemma LCC_init_pj (libm : MathLib) (ll : LCC) (parms : paramset) :
  exists ph ev,
    LCC_pj (fst (LCC_init libm ll parms)) = set_e ev (set_phi0 ph (LCC_pj ll)) /\
    (ev = e (LCC_pj ll) \/ ev = Sqrt (es (LCC_pj ll))).
Proof.
  unfold LCC_init. destruct ll as [p cv nv rv p2 p1 el]. cbn [LCC_pj c n rho0 ellips].
  destruct (paramset_degree parms "lat_2") as [v [|]];
    [| destruct (negb (snd (paramset_string parms "lat_0")))];
    cbv beta iota zeta;
    case_matches; cbn [fst LCC_pj];
    match goal with
    | |- exists ph ev, ?P = _ /\ _ => exists (phi0 P), (e P)
    end;
    (split; [destruct p; reflexivity |]); destruct p; cbn; auto.
Qed.

(** What the initialisers assign in the shared configuration: the
    Geographic kernel the false origin, Mercator the scale, the conic the
    origin latitude and the eccentricity (again the square root of [es]),
    Equirectangular nothing. *)
Lemma init_pj_fields (libm : MathLib) (pin : pj) (imp0 : impl) (parms : paramset) :
  lookupImpl pin = Some imp0 ->
  exists xv yv kv phv ev,
    impl_pj (fst (init libm imp0 parms))
      = set_e ev (set_phi0 phv (set_k0 kv (set_y0 yv (set_x0 xv pin)))) /\
    (ev = e pin \/ ev = Sqrt (es pin)) /\
    match fst (init libm imp0 parms) with
    | impl_LngLat _ => xv = 0 /\ yv = 0 /\ kv = k0 pin /\ phv = phi0 pin
    | impl_Mercator _ =>
        xv = x0 pin /\ yv = y0 pin /\ phv = phi0 pin /\
        (parms !! "lat_ts" = None -> kv = k0 pin)
    | impl_LCC _ => xv = x0 pin /\ yv = y0 pin /\ kv = k0 pin
    | impl_Equirectangular _ =>
        xv = x0 pin /\ yv = y0 pin /\ kv = k0 pin /\ phv = phi0 pin
    end.
Proof.
  intros Hl.
  destruct (lookupImpl_cases _ _ Hl) as [[-> _] | [[-> _] | [[-> _] | [-> _]]]].
  - exists 0, 0, (k0 pin), (phi0 pin), (e pin). cbn.
    split; [destruct pin; reflexivity |]. split; [left; reflexivity |]. repeat split.
  - unfold init, Mercator_init, paramset_degree. cbn [Mercator_pj].
    destruct (parms !! "lat_ts") as [v |].
    + cbv beta iota zeta.
      destruct (negb (e pin =? 0) && true)%bool; cbn [fst impl_pj Mercator_pj];
        match goal with
        | |- exists xv yv kv phv ev, set_k0 ?K pin = _ /\ _ =>
            exists (x0 pin), (y0 pin), K, (phi0 pin), (e pin)
        end;
        (split; [destruct pin; reflexivity |]); (split; [left; reflexivity |]);
        repeat split; discriminate.
    + exists (x0 pin), (y0 pin), (k0 pin), (phi0 pin), (e pin).
      rewrite andb_false_r. cbn.
      split; [destruct pin; reflexivity |]. split; [left; reflexivity |]. repeat split.
  - cbn [init].
    destruct (LCC_init_pj libm
                {| LCC_pj := pin; c := 0; n := 0; rho0 := 0;
                   LCC_phi2 := 0; LCC_phi1 := 0; ellips := false |} parms)
      as (ph & ev & Hp & Hev).
    destruct (LCC_init libm _ parms) as [ll' err'].
    cbn [fst impl_pj LCC_pj] in *.
    exists (x0 pin), (y0 pin), (k0 pin), ph, ev.
    split; [rewrite Hp; destruct pin; reflexivity |].
    split; [exact Hev |]. repeat split.
  - exists (x0 pin), (y0 pin), (k0 pin), (phi0 pin), (e pin). cbn.
    split; [destruct pin; reflexivity |]. split; [left; reflexivity |]. repeat split.
Qed.

End HandleFacts.


(** ** Invariants of a constructed handle *)

Section HandleClaims.
Local Open Scope float_scope.

Lemma paramset_degree_ext (m1 m2 : paramset) (k : string) :
  m1 !! k = m2 !! k -> paramset_degree m1 k = paramset_degree m2 k.
Proof. intros H. unfold paramset_degree. rewrite H. reflexivity. Qed.

Lemma paramset_bool_ext (m1 m2 : paramset) (k : string) :
  m1 !! k = m2 !! k -> paramset_bool m1 k = paramset_bool m2 k.
Proof. intros H. unfold paramset_bool. rewrite H. reflexivity. Qed.

(** The configuration inside a handle, field by field: the resolved
    configuration with the initialiser's assignments on top. *)
Lemma handle_normal_form (libm : MathLib) (str : string) (imp : impl) :
  NewProjection libm str = Ret (Some imp, None) ->
  exists (pin : pj) (parms' : paramset) (imp0 : impl) (xv yv kv phv ev : float64),
    resolve (parse_params str) = Ret (inl (pin, parms')) /\
    lookupImpl pin = Some imp0 /\
    imp = fst (init libm imp0 parms') /\
    impl_pj imp = set_e ev (set_phi0 phv (set_k0 kv (set_y0 yv (set_x0 xv pin)))) /\
    (ev = e pin \/ ev = Sqrt (es pin)) /\
    match imp with
    | impl_LngLat _ => xv = 0 /\ yv = 0 /\ kv = k0 pin /\ phv = phi0 pin
    | impl_Mercator _ =>
        xv = x0 pin /\ yv = y0 pin /\ phv = phi0 pin /\
        (parms' !! "lat_ts" = None -> kv = k0 pin)
    | impl_LCC _ => xv = x0 pin /\ yv = y0 pin /\ kv = k0 pin
    | impl_Equirectangular _ =>
        xv = x0 pin /\ yv = y0 pin /\ kv = k0 pin /\ phv = phi0 pin
    end.
Proof.
  intros H.
  destruct (NewProjection_Some_inv _ _ _ _ H) as (_ & pin & parms' & imp0 & Hres & Hl & ->).
  destruct (init_pj_fields libm pin imp0 parms' Hl) as (xv & yv & kv & phv & ev & Hp & Hev & Hk).
  exists pin, parms', imp0, xv, yv, kv, phv, ev. repeat split; assumption.
Qed.

(** X4.  In every handle [NewProjection] returns, the axis string has
    three bytes and the derived ellipsoid quantities agree with [a] and
    [es]: [e = sqrt es], [ra = 1/a], [oneEs = 1 - es], [rOneEs = 1/oneEs],
    [aOrig = a], [esOrig = es]. *)
Theorem X4_handle_ellipsoid_invariants (libm : MathLib) (str : string) (imp : impl) :
  NewProjection libm str = Ret (Some imp, None) ->
  String.length (axis (impl_pj imp)) = 3%nat /\
  e (impl_pj imp) = Sqrt (es (impl_pj imp)) /\
  ra (impl_pj imp) = 1 / a (impl_pj imp) /\
  oneEs (impl_pj imp) = 1 - es (impl_pj imp) /\
  rOneEs (impl_pj imp) = 1 / oneEs (impl_pj imp) /\
  aOrig (impl_pj imp) = a (impl_pj imp) /\
  esOrig (impl_pj imp) = es (impl_pj imp).
Proof.
  intros H.
  destruct (handle_normal_form _ _ _ H)
    as (pin & parms' & imp0 & xv & yv & kv & phv & ev & Hres & _ & _ & -> & Hev & _).
  destruct (resolve_normal_form _ _ _ Hres)
    as (projv & ax & dp & cn & a' & es' & t & vt & _ & Hax & _ & _ & _ & ->).
  norm_pj. norm_pj_in Hev.
  split; [exact Hax |].
  split; [destruct Hev as [-> | ->]; reflexivity |].
  repeat split.
Qed.

Lemma X4_handle_ellipsoid_invariants_witness :
  exists imp,
    NewProjection no_math "+proj=longlat +ellps=WGS84" = Ret (Some imp, None) /\
    ra (impl_pj imp) = 1 / a (impl_pj imp) /\
    e (impl_pj imp) = Sqrt (es (impl_pj imp)).
Proof.
  eexists. split; [vm_compute; reflexivity |].
  split;
    apply (X4_handle_ellipsoid_invariants no_math "+proj=longlat +ellps=WGS84");
    vm_compute; reflexivity.
Defined.

(** X5.  In every handle the datum tag is 0, the value of [PJD_UNKNOWN]
    and of every other tag, whatever datum parameters were given; and the
    shift vector is [nil] or has exactly seven elements. *)
Theorem X5_handle_datum_invariants (libm : MathLib) (str : string) (imp : impl) :
  NewProjection libm str = Ret (Some imp, None) ->
  datumType (impl_pj imp) = PJD_UNKNOWN /\
  (datumParams (impl_pj imp) = None \/
   exists l, datumParams (impl_pj imp) = Some l /\ length l = 7%nat).
Proof.
  intros H.
  destruct (handle_normal_form _ _ _ H)
    as (pin & parms' & imp0 & xv & yv & kv & phv & ev & Hres & _ & _ & -> & _ & _).
  destruct (resolve_normal_form _ _ _ Hres)
    as (projv & ax & dp & cn & a' & es' & t & vt & _ & _ & Hdp & _ & _ & ->).
  norm_pj. split; [reflexivity | exact Hdp].
Qed.

Lemma X5_handle_datum_invariants_witness :
  exists imp,
    NewProjection no_math "+proj=longlat +towgs84=1,2,3,4,5,6,7" = Ret (Some imp, None) /\
    datumType (impl_pj imp) = PJD_UNKNOWN /\
    (datumParams (impl_pj imp) = None \/
     exists l, datumParams (impl_pj imp) = Some l /\ length l = 7%nat).
Proof.
  eexists. split; [vm_compute; reflexivity |].
  apply (X5_handle_datum_invariants no_math "+proj=longlat +towgs84=1,2,3,4,5,6,7").
  vm_compute. reflexivity.
Defined.

(** X6.  In every handle the linear factor and its reciprocal are the same
    number, and so are the vertical ones.  [ToMeter()] is 1, or 0 when the
    definition has no [units] and a non-empty [to_meter], or the catalog
    value of [vunits]. *)
Theorem X6_handle_unit_factors (libm : MathLib) (str : string) (imp : impl) :
  NewProjection libm str = Ret (Some imp, None) ->
  to_meter (impl_pj imp) = fr_meter (impl_pj imp) /\
  vto_meter (impl_pj imp) = vfr_meter (impl_pj imp) /\
  (ToMeter imp = 1 \/
   (ToMeter imp = 0 /\ parse_params str !! "units" = None /\
    exists s, parse_params str !! "to_meter" = Some s /\ s <> "") \/
   exists v u, parse_params str !! "vunits" = Some v /\ units_list !! v = Some u /\
               ToMeter imp = unit_to_meter u).
Proof.
  intros H.
  destruct (handle_normal_form _ _ _ H)
    as (pin & parms' & imp0 & xv & yv & kv & phv & ev & Hres & _ & _ & Hp & _ & _).
  pose proof (resolve_other_keys _ _ _ "units" (not_catalog_key "units" eq_refl) Hres) as Ku.
  pose proof (resolve_other_keys _ _ _ "to_meter" (not_catalog_key "to_meter" eq_refl) Hres)
    as Kt.
  pose proof (resolve_other_keys _ _ _ "vunits" (not_catalog_key "vunits" eq_refl) Hres)
    as Kv.
  unfold ToMeter. rewrite Hp.
  destruct (resolve_normal_form _ _ _ Hres)
    as (projv & ax & dp & cn & a' & es' & t & vt & _ & _ & _ & Ht & _ & ->).
  norm_pj. rewrite <- Ku, <- Kt, <- Kv.
  split; [reflexivity |]. split; [reflexivity | exact Ht].
Qed.

Lemma X6_handle_unit_factors_witness :
  exists imp,
    NewProjection no_math "+proj=longlat +to_meter=0.3048" = Ret (Some imp, None) /\
    to_meter (impl_pj imp) = fr_meter (impl_pj imp) /\
    ToMeter imp = 0.
Proof.
  eexists. split; [vm_compute; reflexivity |].
  split.
  - apply (X6_handle_unit_factors no_math "+proj=longlat +to_meter=0.3048").
    vm_compute. reflexivity.
  - vm_compute. reflexivity.
Defined.

(** X7.  [FromGreenwich()] of a handle is the catalog's offset of the
    prime meridian named by [pm], as [parseDegreeString] reads it, in
    degrees: it is not multiplied by [d2r].  It is 0 without [pm] and for a
    name the catalog lacks. *)
Theorem X7_handle_prime_meridian (libm : MathLib) (str : string) (imp : impl) :
  NewProjection libm str = Ret (Some imp, None) ->
  FromGreenwich imp =
    match parse_params str !! "pm" with
    | Some name =>
        match pm_list !! name with
        | Some pm => parseDegreeString (defn pm)
        | None => 0
        end
    | None => 0
    end.
Proof.
  intros H.
  destruct (handle_normal_form _ _ _ H)
    as (pin & parms' & imp0 & xv & yv & kv & phv & ev & Hres & _ & _ & Hp & _ & _).
  pose proof (resolve_other_keys _ _ _ "pm" (not_catalog_key "pm" eq_refl) Hres) as Kp.
  unfold FromGreenwich. rewrite Hp.
  destruct (resolve_normal_form _ _ _ Hres)
    as (projv & ax & dp & cn & a' & es' & t & vt & _ & _ & _ & _ & _ & ->).
  norm_pj. rewrite Kp. reflexivity.
Qed.

Lemma X7_handle_prime_meridian_witness :
  exists imp,
    NewProjection no_math "+proj=longlat +pm=ferro" = Ret (Some imp, None) /\
    FromGreenwich imp = (0 + 17 + 40 / 60) * -1.
Proof.
  eexists. split; [vm_compute; reflexivity |].
  rewrite (X7_handle_prime_meridian no_math "+proj=longlat +pm=ferro")
    by (vm_compute; reflexivity).
  vm_compute. reflexivity.
Defined.

End HandleClaims.


Section PlacementClaims.
Local Open Scope float_scope.

(** X8.  In every handle the central meridian is [lon_0] read as degrees
    and converted to radians (0 when absent), and the flags [geoc] and
    [over] are those of the definition.  The Geographic kernel has the
    false origin (0, 0) whatever [x_0] and [y_0] say; in every other kernel
    [x0] and [y0] are 0 when the parameter is absent and otherwise the
    number [ParseFloat] returns for it, its error ignored: the parsed value,
    0 for a syntax error, an infinity for a literal out of range. *)
Theorem X8_handle_placement (libm : MathLib) (str : string) (imp : impl) :
  NewProjection libm str = Ret (Some imp, None) ->
  lam0 (impl_pj imp) = fst (paramset_degree (parse_params str) "lon_0") /\
  geoc (impl_pj imp) = fst (paramset_bool (parse_params str) "geoc") /\
  over (impl_pj imp) = fst (paramset_bool (parse_params str) "over") /\
  match imp with
  | impl_LngLat _ => x0 (impl_pj imp) = 0 /\ y0 (impl_pj imp) = 0
  | _ =>
      x0 (impl_pj imp) = match parse_params str !! "x_0" with
                         | Some v => fst (ParseFloat v)
                         | None => 0
                         end /\
      y0 (impl_pj imp) = match parse_params str !! "y_0" with
                         | Some v => fst (ParseFloat v)
                         | None => 0
                         end
  end.
Proof.
  intros H.
  assert (Hpf : forall k, match parse_params str !! k with
                          | Some v => fst (ParseFloat v)
                          | None => 0
                          end = fst (paramset_float (parse_params str) k)).
  { intros k. unfold paramset_float. destruct (parse_params str !! k); reflexivity. }
  rewrite !Hpf. clear Hpf.
  destruct (handle_normal_form _ _ _ H)
    as (pin & parms' & imp0 & xv & yv & kv & phv & ev & Hres & _ & _ & Hp & _ & Hk).
  rewrite <- (paramset_degree_ext _ _ "lon_0"
                (resolve_other_keys _ _ _ "lon_0" (not_catalog_key "lon_0" eq_refl) Hres)).
  rewrite <- (paramset_bool_ext _ _ "geoc"
                (resolve_other_keys _ _ _ "geoc" (not_catalog_key "geoc" eq_refl) Hres)).
  rewrite <- (paramset_bool_ext _ _ "over"
                (resolve_other_keys _ _ _ "over" (not_catalog_key "over" eq_refl) Hres)).
  rewrite <- (paramset_float_ext _ _ "x_0"
                (resolve_other_keys _ _ _ "x_0" (not_catalog_key "x_0" eq_refl) Hres)).
  rewrite <- (paramset_float_ext _ _ "y_0"
                (resolve_other_keys _ _ _ "y_0" (not_catalog_key "y_0" eq_refl) Hres)).
  rewrite Hp.
  destruct (resolve_normal_form _ _ _ Hres)
    as (projv & ax & dp & cn & a' & es' & t & vt & _ & _ & _ & _ & _ & ->).
  norm_pj. norm_pj_in Hk.
  split; [reflexivity |]. split; [reflexivity |]. split; [reflexivity |].
  destruct imp.
  - destruct Hk as (-> & -> & _). split; reflexivity.
  - destruct Hk as (-> & -> & _). split; reflexivity.
  - destruct Hk as (-> & -> & _). split; reflexivity.
  - destruct Hk as (-> & -> & _). split; reflexivity.
Qed.

Lemma X8_handle_placement_witness :
  (exists imp,
     NewProjection no_math "+proj=longlat +x_0=500000 +lon_0=90" = Ret (Some imp, None) /\
     lam0 (impl_pj imp) = 90 * d2r /\ x0 (impl_pj imp) = 0) /\
  (exists imp,
     NewProjection no_math "+proj=eqc +a=1 +x_0=1e999 +y_0=east" = Ret (Some imp, None) /\
     x0 (impl_pj imp) = infinity /\ y0 (impl_pj imp) = 0).
Proof.
  split.
  - eexists. split; [vm_compute; reflexivity |].
    split.
    + rewrite (proj1 (X8_handle_placement no_math "+proj=longlat +x_0=500000 +lon_0=90" _
                        ltac:(vm_compute; reflexivity))).
      vm_compute. reflexivity.
    + vm_compute. reflexivity.
  - eexists. split; [vm_compute; reflexivity |].
    pose proof (X8_handle_placement no_math "+proj=eqc +a=1 +x_0=1e999 +y_0=east" _
                  ltac:(vm_compute; reflexivity)) as (_ & _ & _ & Hx & Hy).
    rewrite Hx, Hy. vm_compute. split; reflexivity.
Defined.

(** The kernel of a handle and the [proj] parameter. *)
Lemma handle_kernel_of_proj (libm : MathLib) (str : string) (imp : impl) :
  NewProjection libm str = Ret (Some imp, None) ->
  exists projv,
    parse_params str !! "proj" = Some projv /\
    proj (impl_pj imp) = projv /\
    match imp with
    | impl_LngLat _ => In projv ["latlong"; "longlat"; "latlon"; "lonlat"]
    | impl_Mercator _ => projv = "merc"
    | impl_LCC _ => projv = "lcc"
    | impl_Equirectangular _ => projv = "eqc"
    end.
Proof.
  intros H.
  destruct (handle_normal_form _ _ _ H)
    as (pin & parms' & imp0 & xv & yv & kv & phv & ev & Hres & Hl & Hi & Hp & _ & _).
  destruct (resolve_normal_form _ _ _ Hres)
    as (projv & ax & dp & cn & a' & es' & t & vt & Hproj & _ & _ & _ & _ & Hpin).
  exists projv. split; [exact Hproj |].
  assert (Hpr : proj pin = projv) by (rewrite Hpin; reflexivity).
  split; [rewrite Hp; destruct pin; exact Hpr |].
  rewrite <- Hpr. clear Hpin Hp.
  destruct (lookupImpl_cases _ _ Hl) as [[-> Hc] | [[-> Hc] | [[-> Hc] | [-> Hc]]]];
    subst imp; cbn [init].
  - exact Hc.
  - destruct (Mercator_init libm _ parms'). exact Hc.
  - destruct (LCC_init libm _ parms'). exact Hc.
  - exact Hc.
Qed.

(** X9.  The kernel of a handle is the one the [proj] parameter names:
    Geographic for [latlong], [longlat], [latlon], [lonlat]; Mercator for
    [merc]; the conic for [lcc]; Equirectangular for [eqc].  So a
    definition with any other [proj] value never yields a handle. *)
Theorem X9_handle_kernel_of_proj (libm : MathLib) (str : string) (imp : impl) :
  NewProjection libm str = Ret (Some imp, None) ->
  exists projv,
    parse_params str !! "proj" = Some projv /\
    proj (impl_pj imp) = projv /\
    match imp with
    | impl_LngLat _ => In projv ["latlong"; "longlat"; "latlon"; "lonlat"]
    | impl_Mercator _ => projv = "merc"
    | impl_LCC _ => projv = "lcc"
    | impl_Equirectangular _ => projv = "eqc"
    end.
Proof. exact (handle_kernel_of_proj libm str imp). Qed.

Lemma X9_handle_kernel_of_proj_witness :
  exists imp,
    NewProjection no_math "+proj=merc +a=6378137 +b=6378137" = Ret (Some imp, None) /\
    exists projv,
      parse_params "+proj=merc +a=6378137 +b=6378137" !! "proj" = Some projv /\
      proj (impl_pj imp) = projv /\
      match imp with
      | impl_LngLat _ => In projv ["latlong"; "longlat"; "latlon"; "lonlat"]
      | impl_Mercator _ => projv = "merc"
      | impl_LCC _ => projv = "lcc"
      | impl_Equirectangular _ => projv = "eqc"
      end.
Proof.
  eexists. split; [vm_compute; reflexivity |].
  apply (X9_handle_kernel_of_proj no_math "+proj=merc +a=6378137 +b=6378137").
  vm_compute. reflexivity.
Defined.

(** X10.  Except for Mercator with [lat_ts], the scale
    of a handle is the scale of the definition ([k_0], else [k], else 1.0),
    and [k0 <= 0] is false for it. *)
Theorem X10_handle_scale (libm : MathLib) (str : string) (imp : impl) :
  NewProjection libm str = Ret (Some imp, None) ->
  (forall m, imp = impl_Mercator m -> parse_params str !! "lat_ts" = None) ->
  k0 (impl_pj imp) = scale_param (parse_params str) /\
  (k0 (impl_pj imp) <=? 0) = false.
Proof.
  intros H Hts.
  destruct (handle_normal_form _ _ _ H)
    as (pin & parms' & imp0 & xv & yv & kv & phv & ev & Hres & _ & _ & Hp & _ & Hk).
  destruct (resolve_k0 _ _ _ Hres) as [Hk0 Hpos].
  pose proof (resolve_other_keys _ _ _ "lat_ts" (not_catalog_key "lat_ts" eq_refl) Hres)
    as Kts.
  assert (Hkv : kv = k0 pin).
  { destruct imp as [ll | m | ll | eqc].
    - destruct Hk as (_ & _ & -> & _). reflexivity.
    - destruct Hk as (_ & _ & _ & Hm). apply Hm. rewrite Kts. apply (Hts m eq_refl).
    - destruct Hk as (_ & _ & ->). reflexivity.
    - destruct Hk as (_ & _ & -> & _). reflexivity. }
  assert (Hk' : k0 (impl_pj imp) = k0 pin).
  { rewrite Hp, Hkv. destruct pin; reflexivity. }
  rewrite Hk'. split; assumption.
Qed.

Lemma X10_handle_scale_witness :
  exists imp,
    NewProjection no_math "+proj=eqc +k=0.9996" = Ret (Some imp, None) /\
    k0 (impl_pj imp) = scale_param (parse_params "+proj=eqc +k=0.9996").
Proof.
  eexists. split; [vm_compute; reflexivity |].
  apply (X10_handle_scale no_math "+proj=eqc +k=0.9996").
  - vm_compute. reflexivity.
  - intros m Hm. discriminate Hm.
Defined.

End PlacementClaims.


(** ** Outcomes of [NewProjection] *)

Section OutcomeClaims.
Local Open Scope float_scope.

Lemma store_parts_outcome (parts : list string) (dp : list float64) (i : nat) :
  (exists dp', store_parts dp i parts = Ret dp') \/
  store_parts dp i parts = Panic "index out of range".
Proof.
  revert dp i. induction parts as [| f rest IH]; intros dp i; cbn [store_parts].
  - left. eexists. reflexivity.
  - destruct (i <? length dp)%nat; [apply IH | right; reflexivity].
Qed.

Lemma setDatum_panic (p : pj) (params : paramset) (msg : string) :
  setDatum p params = Panic msg -> msg = "index out of range".
Proof.
  unfold setDatum.
  set (ps := match paramset_string params "datum" with
             | (name, true) => _ | (_, false) => params end).
  clearbody ps.
  destruct (snd (paramset_string ps "nadgrids")); [discriminate |].
  destruct (paramset_string ps "catalog") as [cat [|]]; [discriminate |].
  destruct (paramset_string ps "towgs84") as [tw [|]]; [| discriminate].
  destruct (store_parts_outcome (GoStrings.Split tw ",") (replicate 7 0) 0)
    as [[dp' ->] | ->]; cbn -[alter].
  - destruct (length (GoStrings.Split tw ",") =? 7)%nat; discriminate.
  - intros H. injection H as <-. reflexivity.
Qed.

Lemma resolve_panic (parms : paramset) (msg : string) :
  resolve parms = Panic msg -> msg = "index out of range".
Proof.
  unfold resolve.
  destruct (paramset_string parms "proj") as [projv [|]]; [| discriminate].
  destruct (setDatum (set_proj projv new_pj) parms) as [[[p1 parms1] e1] |] eqn:Hd;
    cbn [mbind result_bind].
  - destruct (setEllipse p1 parms1) as [[p2 parms2] e2].
    destruct (resolve_axis _ parms2); [| discriminate].
    destruct (k0 _ <=? 0); discriminate.
  - intros H. injection H as <-. exact (setDatum_panic _ _ _ Hd).
Qed.

Lemma resolve_error (parms : paramset) (err : error) :
  resolve parms = Ret (inr err) ->
  (err = ErrUnsupportedProj /\ parms !! "proj" = None) \/
  (err = ErrInvalidParam /\ is_Some (parms !! "proj")).
Proof.
  unfold resolve, paramset_string at 1.
  destruct (parms !! "proj") as [projv |].
  - destruct (setDatum (set_proj projv new_pj) parms) as [[[p1 parms1] e1] |];
      cbn [mbind result_bind]; [| discriminate].
    destruct (setEllipse p1 parms1) as [[p2 parms2] e2].
    destruct (resolve_axis _ parms2) as [p3 | err'] eqn:Hax.
    + destruct (k0 _ <=? 0); intros H; [| discriminate].
      injection H as <-. right. split; [reflexivity | eexists; reflexivity].
    + intros H. injection H as <-. right.
      split; [apply (resolve_axis_error _ _ _ Hax) | eexists; reflexivity].
  - intros H. injection H as <-. left. split; reflexivity.
Qed.

(** X11.  [NewProjection] has four outcomes: a handle with a [nil] error;
    no handle with [ErrUnsupportedProj]; no handle with [ErrInvalidParam];
    or the index-out-of-range panic of the datum step.  It never returns a
    handle together with an error, nor neither of them, nor any other error
    value. *)
Theorem X11_NewProjection_outcomes (libm : MathLib) (str : string) :
  (exists imp, NewProjection libm str = Ret (Some imp, None)) \/
  NewProjection libm str = Ret (None, Some ErrUnsupportedProj) \/
  NewProjection libm str = Ret (None, Some ErrInvalidParam) \/
  NewProjection libm str = Panic "index out of range".
Proof.
  unfold NewProjection.
  destruct (resolve (parse_params str)) as [[[pin parms'] | err] | msg] eqn:Hres;
    cbn [mbind result_bind].
  - destruct (lookupImpl pin) as [imp0 |].
    + destruct (init libm imp0 parms') as [imp e0]. left. exists imp. reflexivity.
    + right. left. reflexivity.
  - destruct (resolve_error _ _ Hres) as [[-> _] | [-> _]].
    + right. left. reflexivity.
    + right. right. left. reflexivity.
  - rewrite (resolve_panic _ _ Hres). right. right. right. reflexivity.
Qed.

Lemma datums_list_towgs84_fields :
  map_Forall
    (fun _ d => (length (GoStrings.Split (snd (keyVal (definition d))) ",") <= 7)%nat)
    datums_list.
Proof. apply (bool_decide_unpack _). vm_compute. exact I. Qed.

Lemma setDatum_returns (p : pj) (params : paramset) :
  (forall tw, params !! "towgs84" = Some tw ->
              (length (GoStrings.Split tw ",") <= 7)%nat) ->
  exists r, setDatum p params = Ret r.
Proof.
  intros Htw. unfold setDatum.
  set (ps := match paramset_string params "datum" with
             | (name, true) => _ | (_, false) => params end).
  assert (Hps : forall tw, ps !! "towgs84" = Some tw ->
                           (length (GoStrings.Split tw ",") <= 7)%nat).
  { subst ps. destruct (paramset_string params "datum") as [name [|]]; [| exact Htw].
    destruct (datums_list !! name) as [d |] eqn:Hd; [| exact Htw].
    pose proof (datums_list_towgs84_fields name d Hd) as Hlen. cbn beta in Hlen.
    destruct (keyVal (definition d)) as [key val]. cbn [snd] in Hlen.
    intros tw. destruct (decide (key = "towgs84")) as [-> | Hne].
    - rewrite lookup_insert_eq. intros H. injection H as <-. exact Hlen.
    - rewrite lookup_insert_ne by exact Hne.
      rewrite lookup_insert_ne by discriminate. apply Htw. }
  clearbody ps.
  destruct (snd (paramset_string ps "nadgrids")); [eexists; reflexivity |].
  destruct (paramset_string ps "catalog") as [cat [|]]; [eexists; reflexivity |].
  unfold paramset_string.
  destruct (ps !! "towgs84") as [tw |] eqn:Ht; [| eexists; reflexivity].
  destruct (store_parts_in_bounds (GoStrings.Split tw ",") (replicate 7 0) 0)
    as (dp' & -> & _).
  { rewrite length_replicate. cbn. apply Hps. reflexivity. }
  cbn -[alter].
  destruct (length (GoStrings.Split tw ",") =? 7)%nat; eexists; reflexivity.
Qed.

Lemma NewProjection_returns_or_panics (libm : MathLib) (str : string) :
  (exists r, NewProjection libm str = Ret r) \/
  (exists msg, NewProjection libm str = Panic msg).
Proof.
  destruct (NewProjection libm str) as [r | msg]; [left | right]; eexists; reflexivity.
Qed.

(** X12.  [NewProjection] returns, without a panic, for every definition
    whose [towgs84] parameter is absent or has at most seven
    comma-separated fields. *)
Theorem X12_NewProjection_returns (libm : MathLib) (str : string) :
  (forall tw, parse_params str !! "towgs84" = Some tw ->
              (length (GoStrings.Split tw ",") <= 7)%nat) ->
  exists r, NewProjection libm str = Ret r.
Proof.
  intros Htw.
  destruct (NewProjection_returns_or_panics libm str) as [H | [pmsg Hp]].
  - exact H.
  - exfalso. revert Hp. unfold NewProjection.
    destruct (resolve (parse_params str)) as [[[pin parms'] | err] | msg] eqn:Hres;
      cbn [mbind result_bind].
    + destruct (lookupImpl pin) as [imp0 |]; [| discriminate].
      destruct (init libm imp0 parms'); discriminate.
    + discriminate.
    + intros _. revert Hres. unfold resolve.
      destruct (paramset_string (parse_params str) "proj") as [projv [|]]; [| discriminate].
      destruct (setDatum_returns (set_proj projv new_pj) (parse_params str) Htw)
        as [[[p1 parms1] e1] ->].
      cbn [mbind result_bind].
      destruct (setEllipse p1 parms1) as [[p2 parms2] e2].
      destruct (resolve_axis _ parms2); [| discriminate].
      destruct (k0 _ <=? 0); discriminate.
Qed.

End OutcomeClaims.


Section MoreOutcomeClaims.
Local Open Scope float_scope.

Lemma X12_NewProjection_returns_witness :
  exists r, NewProjection no_math "+proj=longlat +towgs84=1,2,3" = Ret r.
Proof.
  apply (X12_NewProjection_returns no_math "+proj=longlat +towgs84=1,2,3").
  intros tw H. vm_compute in H. injection H as <-. vm_compute. repeat constructor.
Defined.

(** X13.  A definition with a [proj] parameter and an [axis] value whose
    length is not three bytes yields no handle: [NewProjection] returns
    the invalid-parameter error, unless the datum step panics first. *)
Theorem X13_axis_length (libm : MathLib) (str ax : string) :
  is_Some (parse_params str !! "proj") ->
  parse_params str !! "axis" = Some ax ->
  String.length ax <> 3%nat ->
  NewProjection libm str = Ret (None, Some ErrInvalidParam) \/
  NewProjection libm str = Panic "index out of range".
Proof.
  intros Hproj Hax Hlen. unfold NewProjection.
  destruct (resolve (parse_params str)) as [[[pin parms'] | err] | msg] eqn:Hres;
    cbn [mbind result_bind].
  - exfalso.
    pose proof (resolve_other_keys _ _ _ "axis" (not_catalog_key "axis" eq_refl) Hres) as Ka.
    destruct (resolve_inl_inv _ _ _ Hres)
      as (projv & p1 & parms1 & e1 & p2 & e2 & p3 & _ & _ & _ & Hra & _).
    revert Hra. unfold resolve_axis.
    rewrite (paramset_string_Some _ _ ax) by (rewrite Ka; exact Hax).
    destruct (Nat.eqb_spec (String.length ax) 3) as [Heq | _]; [contradiction |].
    discriminate.
  - destruct (resolve_error _ _ Hres) as [[_ Hnone] | [-> _]].
    + destruct Hproj as [v Hv]. rewrite Hv in Hnone. discriminate.
    + left. reflexivity.
  - rewrite (resolve_panic _ _ Hres). right. reflexivity.
Qed.

Lemma X13_axis_length_witness :
  NewProjection no_math "+proj=merc +axis=en" = Ret (None, Some ErrInvalidParam) \/
  NewProjection no_math "+proj=merc +axis=en" = Panic "index out of range".
Proof.
  apply (X13_axis_length no_math "+proj=merc +axis=en" "en").
  - exists "merc". vm_compute. reflexivity.
  - vm_compute. reflexivity.
  - discriminate.
Defined.

End MoreOutcomeClaims.

(** ** Ellipsoid resolution *)

Section EllipseClaims.
Local Open Scope float_scope.

Lemma set_if_absent_keeps (key val k v : string) (params : paramset) :
  params !! k = Some v -> set_if_absent key val params !! k = Some v.
Proof.
  intros H. unfold set_if_absent.
  destruct (params !! key) eqn:Hk; [exact H |].
  rewrite lookup_insert_ne; [exact H |]. intros ->. congruence.
Qed.

Lemma setEllipse_params (p p' : pj) (params params' : paramset) (err : option error) :
  setEllipse p params = (p', params', err) ->
  params' = params \/
  exists el k1 v1 k2 v2,
    keyVal (major el) = (k1, v1) /\ keyVal (ell el) = (k2, v2) /\
    params' = set_if_absent k2 v2 (set_if_absent k1 v1 params).
Proof.
  unfold setEllipse.
  destruct (paramset_float params "R") as [r [|]].
  { intros H. injection H as <- <- <-. left. reflexivity. }
  destruct (paramset_string params "ellps") as [name [|]].
  - destruct (ellipse_list !! name) as [el |].
    + destruct (keyVal (major el)) as [k1 v1] eqn:H1.
      destruct (keyVal (ell el)) as [k2 v2] eqn:H2.
      match goal with
      | |- match ?X with (_, _) => _ end = _ -> _ => destruct X as [p2 b]
      end.
      intros H. injection H as <- <- <-. right.
      exists el, k1, v1, k2, v2. rewrite H1, H2. repeat split.
    + match goal with
      | |- match ?X with (_, _) => _ end = _ -> _ => destruct X as [p2 b]
      end.
      intros H. injection H as <- <- <-. left. reflexivity.
  - match goal with
    | |- match ?X with (_, _) => _ end = _ -> _ => destruct X as [p2 b]
    end.
    intros H. injection H as <- <- <-. left. reflexivity.
Qed.

(** X14.  [setEllipse] never replaces a parameter: every key that has a
    value before the call has the same value after it, so an explicit [a],
    [rf] or [b] wins over the ellipsoid catalog.  The call never fails. *)
Theorem X14_setEllipse_keeps_parameters
    (p p' : pj) (params params' : paramset) (err : option error) (k v : string) :
  setEllipse p params = (p', params', err) ->
  params !! k = Some v ->
  params' !! k = Some v /\ err = None.
Proof.
  intros H Hk.
  destruct (setEllipse_fields _ _ _ _ _ H) as (_ & _ & _ & Herr).
  split; [| exact Herr].
  destruct (setEllipse_params _ _ _ _ _ H)
    as [-> | (el & k1 & v1 & k2 & v2 & _ & _ & ->)]; [exact Hk |].
  apply set_if_absent_keeps, set_if_absent_keeps. exact Hk.
Qed.

Lemma X14_setEllipse_keeps_parameters_witness :
  exists p' params',
    setEllipse new_pj (parse_params "+ellps=WGS84 +a=1") = (p', params', None) /\
    params' !! "a" = Some "1" /\ a p' = 1.
Proof.
  eexists _, _. split; [vm_compute; reflexivity |].
  split.
  - refine (proj1 (X14_setEllipse_keeps_parameters new_pj _
                     (parse_params "+ellps=WGS84 +a=1") _ None "a" "1" _ _));
      vm_compute; reflexivity.
  - vm_compute. reflexivity.
Defined.

End EllipseClaims.


Section RadiusClaims.
Local Open Scope float_scope.

(** The parameter map the shape and radius steps of [setEllipse] read
    agrees with the caller's on every key outside the catalogs'. *)
Lemma ellps_merge_other_keys (params : paramset) (k : string) :
  k ∉ catalog_keys ->
  (match paramset_string params "ellps" with
   | (name, true) =>
       match ellipse_list !! name with
       | Some ellps =>
           let '(key, val) := keyVal (major ellps) in
           let params := set_if_absent key val params in
           let '(key, val) := keyVal (ell ellps) in
           set_if_absent key val params
       | None => params
       end
   | (_, false) => params
   end) !! k = params !! k.
Proof.
  intros Hk.
  destruct (paramset_string params "ellps") as [name [|]]; [| reflexivity].
  destruct (ellipse_list !! name) as [el |] eqn:Hel; [| reflexivity].
  pose proof (ellipse_list_keys name el Hel) as [Hin1 Hin2]. cbn beta in Hin1, Hin2.
  destruct (keyVal (major el)) as [key1 val1].
  destruct (keyVal (ell el)) as [key2 val2]. cbn [fst] in Hin1, Hin2.
  rewrite !set_if_absent_other by (intros ->; contradiction). reflexivity.
Qed.

(** X15.  In [setEllipse], a parsable [R] sets [a] to it and leaves [es]
    and the parameter map alone; without one, each of the flags [R_A],
    [R_V], [R_g], [R_h], when true, leaves [es = 0]. *)
Theorem X15_setEllipse_radius
    (p p' : pj) (params params' : paramset) (err : option error) :
  setEllipse p params = (p', params', err) ->
  (forall r, paramset_float params "R" = (r, true) ->
             a p' = r /\ es p' = es p /\ params' = params) /\
  (snd (paramset_float params "R") = false ->
   paramset_bool params "R_A" = (true, true) \/
   paramset_bool params "R_V" = (true, true) \/
   paramset_bool params "R_g" = (true, true) \/
   paramset_bool params "R_h" = (true, true) ->
   es p' = 0).
Proof.
  unfold setEllipse. intros H. split.
  - intros r Hr. rewrite Hr in H. injection H as <- <- _.
    split; [destruct p; reflexivity |]. split; [destruct p; reflexivity | reflexivity].
  - intros HR Hflag. revert H.
    destruct (paramset_float params "R") as [r [|]]; [discriminate |]. clear HR.
    set (ps := match paramset_string params "ellps" with
               | (name, true) => _ | (_, false) => params end).
    assert (Hps : forall k, k ∉ catalog_keys -> paramset_bool ps k = paramset_bool params k).
    { intros k Hk. apply paramset_bool_ext. subst ps. apply ellps_merge_other_keys, Hk. }
    rewrite <- !Hps in Hflag by (apply not_catalog_key; reflexivity).
    clearbody ps. clear Hps.
    match goal with
    | |- match ?X with (_, _) => _ end = _ -> _ => destruct X as [p2 b]
    end.
    set (b' := if b =? 0 then _ else b). clearbody b'.
    intros H. injection H as <- _ _.
    destruct Hflag as [Hf | [Hf | [Hf | Hf]]]; rewrite Hf;
      case_matches; destruct p2; reflexivity.
Qed.

Lemma X15_setEllipse_radius_witness :
  exists p' params',
    setEllipse new_pj (parse_params "+ellps=WGS84 +R_g") = (p', params', None) /\
    es p' = 0.
Proof.
  eexists _, _. split; [vm_compute; reflexivity |].
  refine (proj2 (X15_setEllipse_radius new_pj _ (parse_params "+ellps=WGS84 +R_g") _ None _)
            _ _).
  - vm_compute. reflexivity.
  - vm_compute. reflexivity.
  - right. right. left. vm_compute. reflexivity.
Defined.

End RadiusClaims.


(** ** Outcomes of the two directions *)

Section DirectionClaims.
Local Open Scope float_scope.

Lemma phi2_loop_outcomes (libm : MathLib) (fuel : nat) (e ts eth phi : float64) :
  phi2_loop libm fuel e ts eth phi
    = (Inf (-1), Some (errors_New "phi2 has no convergence")) \/
  exists phi' : float64,
    let con := e * Sin libm phi' in
    let dphi := half_pi - 2 * Atan libm (ts * Pow libm ((1 - con) / (1 + con)) eth) - phi' in
    phi2_loop libm fuel e ts eth phi = (phi' + dphi, None) /\
    (Abs dphi <? epsln) = true.
Proof.
  revert phi. induction fuel as [| fuel IH]; intros phi; cbn [phi2_loop].
  - left. reflexivity.
  - cbv zeta.
    destruct (Abs (half_pi - 2 * Atan libm
                (ts * Pow libm ((1 - e * Sin libm phi) / (1 + e * Sin libm phi)) eth) - phi)
              <? epsln) eqn:Hc.
    + right. exists phi. cbv zeta. split; [reflexivity | exact Hc].
    + apply IH.
Qed.

Lemma phi2_error (libm : MathLib) (e ts v : float64) (err : error) :
  phi2 libm e ts = (v, Some err) ->
  v = Inf (-1) /\ err = errors_New "phi2 has no convergence".
Proof.
  unfold phi2. cbv zeta.
  destruct (phi2_loop_outcomes libm 16 e ts (e * 0.5) (half_pi - 2 * Atan libm ts))
    as [-> | (phi' & -> & _)].
  - intros H. injection H as <- <-. split; reflexivity.
  - discriminate.
Qed.

(** X16.  The iteration [phi2] either fails with the value [-Inf] and
    the error [phi2 has no convergence], or returns [phi + dphi] for an
    iterate [phi] whose own correction [dphi] is below [epsln] in absolute
    value. *)
Theorem X16_phi2_outcomes (libm : MathLib) (e ts : float64) :
  phi2 libm e ts = (Inf (-1), Some (errors_New "phi2 has no convergence")) \/
  exists phi : float64,
    let con := e * Sin libm phi in
    let dphi :=
      half_pi - 2 * Atan libm (ts * Pow libm ((1 - con) / (1 + con)) (e * 0.5)) - phi in
    phi2 libm e ts = (phi + dphi, None) /\ (Abs dphi <? epsln) = true.
Proof. unfold phi2. cbv zeta. apply phi2_loop_outcomes. Qed.

(** X17.  [Forward] never panics.  It returns without an error, or it
    returns the pair (hugeVal, hugeVal) with the out-of-bounds error or,
    for the conic kernel only, with the error [something]. *)
Theorem X17_Forward_outcomes (libm : MathLib) (imp : impl) (lng lat : float64) :
  exists (x y : float64) (err : option error),
    Forward libm imp lng lat = Ret (x, y, err) /\
    (err = None \/
     x = hugeVal /\ y = hugeVal /\
     (err = Some out_of_bounds \/
      err = Some (errors_New "something") /\ exists ll, imp = impl_LCC ll)).
Proof.
  destruct imp as [ll | m | ll | eqc]; cbn [Forward];
    unfold LngLat_Forward, Mercator_Forward, LCC_Forward, Equirectangular_Forward,
           commonFwd;
    (destruct ((epsln <? Abs lat - half_pi) || (10 <? Abs lng))%bool;
     [exists hugeVal, hugeVal, (Some out_of_bounds); split; [reflexivity |];
      right; repeat split; left; reflexivity |]);
    cbv zeta.
  - unfold LngLat_fwd. cbn [mbind result_bind]. eexists _, _, _. split; [reflexivity |].
    left. reflexivity.
  - unfold Mercator_fwd. cbv zeta.
    destruct (negb (es (Mercator_pj m) =? 0)); cbn [mbind result_bind];
      eexists _, _, _; (split; [reflexivity |]); left; reflexivity.
  - unfold LCC_fwd. cbv zeta.
    match goal with
    | |- context [if ?c then Ret (hugeVal, hugeVal, _) else _] => destruct c
    end; cbn [mbind result_bind].
    + exists hugeVal, hugeVal, (Some (errors_New "something")). split; [reflexivity |].
      right. repeat split. right. split; [reflexivity |]. exists ll. reflexivity.
    + eexists _, _, _. split; [reflexivity |]. left. reflexivity.
  - unfold Equirectangular_fwd. cbn [mbind result_bind]. eexists _, _, _.
    split; [reflexivity |]. left. reflexivity.
Qed.

(** X18.  [Inverse] of the conic kernel never returns coordinates: it
    returns the out-of-bounds failure when an input is [hugeVal] and panics
    otherwise.  [Inverse] of every other kernel never panics; it returns
    without an error, or the pair (hugeVal, hugeVal) with the out-of-bounds
    error or, for Mercator only, with the error of [phi2]. *)
Theorem X18_Inverse_outcomes (libm : MathLib) (imp : impl) (x y : float64) :
  match imp with
  | impl_LCC _ =>
      Inverse libm imp x y =
        if ((x =? hugeVal) || (y =? hugeVal))%bool
        then Ret (hugeVal, hugeVal, Some out_of_bounds)
        else Panic "don't call this"
  | _ =>
      exists (lng lat : float64) (err : option error),
        Inverse libm imp x y = Ret (lng, lat, err) /\
        (err = None \/
         lng = hugeVal /\ lat = hugeVal /\
         (err = Some out_of_bounds \/
          err = Some (errors_New "phi2 has no convergence") /\
          exists m, imp = impl_Mercator m))
  end.
Proof.
  destruct imp as [ll | m | ll | eqc]; cbn [Inverse];
    unfold LngLat_Inverse, Mercator_Inverse, LCC_Inverse, Equirectangular_Inverse,
           commonInv;
    (destruct ((x =? hugeVal) || (y =? hugeVal))%bool;
     [first [reflexivity
            | exists hugeVal, hugeVal, (Some out_of_bounds); split; [reflexivity |];
              right; repeat split; left; reflexivity] |]);
    cbv zeta.
  - unfold LngLat_inv. cbn [mbind result_bind]. eexists _, _, _. split; [reflexivity |].
    left. reflexivity.
  - unfold Mercator_inv. cbv zeta.
    destruct (negb (es (Mercator_pj m) =? 0)).
    + destruct (phi2 libm _ _) as [v [err |]] eqn:Hphi; cbn [mbind result_bind].
      * destruct (phi2_error _ _ _ _ _ Hphi) as [_ ->].
        exists hugeVal, hugeVal, (Some (errors_New "phi2 has no convergence")).
        split; [reflexivity |]. right. repeat split. right.
        split; [reflexivity |]. exists m. reflexivity.
      * eexists _, _, _. split; [reflexivity |]. left. reflexivity.
    + cbn [mbind result_bind]. eexists _, _, _. split; [reflexivity |]. left. reflexivity.
  - reflexivity.
  - unfold Equirectangular_inv. cbn [mbind result_bind]. eexists _, _, _.
    split; [reflexivity |]. left. reflexivity.
Qed.

(** X19.  [Inverse] does not read the central meridian nor the [over]
    flag of the configuration: the longitude it returns is neither shifted
    back by [lam0] nor wrapped into range. *)
Theorem X19_Inverse_ignores_meridian
    (libm : MathLib) (p : pj) (l : float64) (o : bool) (ph x y : float64) :
  let p' := set_lam0 l (set_over o p) in
  Inverse libm (impl_LngLat {| LngLat_pj := p' |}) x y
    = Inverse libm (impl_LngLat {| LngLat_pj := p |}) x y /\
  Inverse libm (impl_Mercator {| Mercator_pj := p' |}) x y
    = Inverse libm (impl_Mercator {| Mercator_pj := p |}) x y /\
  Inverse libm (impl_Equirectangular
                  {| Equirectangular_pj := p'; Equirectangular_phi1 := ph |}) x y
    = Inverse libm (impl_Equirectangular
                      {| Equirectangular_pj := p; Equirectangular_phi1 := ph |}) x y.
Proof.
  destruct p. cbv zeta. cbn [Inverse].
  unfold LngLat_Inverse, Mercator_Inverse, Equirectangular_Inverse, commonInv,
    LngLat_inv, Mercator_inv, Equirectangular_inv.
  norm_pj.
  cbn [LngLat_pj Mercator_pj Equirectangular_pj Equirectangular_phi1].
  norm_pj.
  split; [reflexivity |]. split; reflexivity.
Qed.

End DirectionClaims.


(** ** Degree strings, in general *)

Section DegreeStringClaims.
Local Open Scope float_scope.

(** X20.  A degree string with all three marks, [D d M ' S] followed by
    the seconds mark and a tail, is read as [0 + D + M/60 + S/360], negated
    when the tail ends in [W] or [S].  Each part counts as the number
    [ParseFloat] returns for it, its error ignored: the parsed value, 0 for
    a syntax error, an infinity for a literal out of range. *)
Theorem X20_parseDegreeString_marks (dg mn sc tl : string) :
  GoStrings.Index dg "d" = None ->
  GoStrings.Index mn "'" = None ->
  GoStrings.Index sc "034" = None ->
  parseDegreeString (dg ++ "d" ++ mn ++ "'" ++ sc ++ dquote ++ tl) =
    let res := 0 + fst (ParseFloat dg) + fst (ParseFloat mn) / 60
               + fst (ParseFloat sc) / 360 in
    if (GoStrings.HasSuffix tl "W" || GoStrings.HasSuffix tl "S")%bool
    then res * -1 else res.
Proof.
  intros Hd Hm Hs. unfold parseDegreeString.
  change (dg ++ "d" ++ mn ++ "'" ++ sc ++ dquote ++ tl)
    with (dg ++ String "d" (mn ++ String "'" (sc ++ String "034" tl))).
  rewrite (Index_app_here _ _ _ Hd). cbv beta iota zeta.
  rewrite take_app, drop_app.
  rewrite (Index_app_here _ _ _ Hm). cbv beta iota zeta.
  rewrite take_app, drop_app.
  rewrite (Index_app_here _ _ _ Hs). cbv beta iota zeta.
  rewrite take_app, drop_app.
  reflexivity.
Qed.

Lemma X20_parseDegreeString_marks_witness :
  parseDegreeString ("9" ++ "d" ++ "07" ++ "'" ++ "54.862" ++ dquote ++ "W")
  = (0 + 9 + 7 / 60 + 54.862 / 360) * -1 /\
  parseDegreeString ("1e999" ++ "d" ++ "x" ++ "'" ++ "0" ++ dquote ++ "")
  = infinity.
Proof.
  rewrite (X20_parseDegreeString_marks "9" "07" "54.862" "W" eq_refl eq_refl eq_refl).
  rewrite (X20_parseDegreeString_marks "1e999" "x" "0" "" eq_refl eq_refl eq_refl).
  vm_compute. split; reflexivity.
Defined.

Lemma HasSuffix_tail (x c : ascii) (s : string) :
  GoStrings.HasSuffix (String x s) c = true -> Ascii.eqb x c = false ->
  GoStrings.HasSuffix s c = true.
Proof.
  cbn [GoStrings.HasSuffix]. destruct s as [| y s]; [congruence |]. intros H _. exact H.
Qed.

Lemma HasSuffix_ToLower (s : string) (c : ascii) :
  GoStrings.HasSuffix s c = true ->
  GoStrings.HasSuffix (GoStrings.ToLower s) (GoStrings.lower c) = true.
Proof.
  induction s as [| x s IH]; [discriminate |].
  destruct s as [| y s].
  - cbn [GoStrings.HasSuffix GoStrings.ToLower]. intros H.
    apply Ascii.eqb_eq in H. subst x. apply Ascii.eqb_refl.
  - intros H. change (GoStrings.HasSuffix (String y s) c = true) in H.
    specialize (IH H). exact IH.
Qed.

Lemma HasSuffix_read_digits (c : ascii) (s : string) (acc cnt : Z) :
  digit_of c = None ->
  GoStrings.HasSuffix s c = true ->
  GoStrings.HasSuffix (snd (read_digits s acc cnt)) c = true.
Proof.
  intros Hc. revert acc cnt. induction s as [| x s IH]; intros acc cnt H; [discriminate |].
  cbn [read_digits]. destruct (digit_of x) as [dv |] eqn:Hx; [| exact H].
  apply IH. apply (HasSuffix_tail x c s H).
  destruct (Ascii.eqb_spec x c) as [-> |]; [congruence | reflexivity].
Qed.

Lemma HasSuffix_read_sign (c : ascii) (s : string) :
  Ascii.eqb "-" c = false -> Ascii.eqb "+" c = false ->
  GoStrings.HasSuffix s c = true ->
  GoStrings.HasSuffix (snd (read_sign s)) c = true.
Proof.
  intros Hm Hp H. destruct s as [| x s]; [discriminate |].
  unfold read_sign.
  destruct (Ascii.eqb_spec x "-") as [-> |].
  { cbn [snd]. apply (HasSuffix_tail _ _ _ H Hm). }
  destruct (Ascii.eqb_spec x "+") as [-> |].
  { cbn [snd]. apply (HasSuffix_tail _ _ _ H Hp). }
  destruct x as [[|] [|] [|] [|] [|] [|] [|] [|]]; try exact H; congruence.
Qed.

(** A trailing hemisphere letter makes the whole literal a syntax error. *)
Lemma ParseFloat_hemisphere (s : string) (c : ascii) :
  c = "W"%char \/ c = "S"%char ->
  GoStrings.HasSuffix s c = true ->
  ParseFloat s = (zero, false).
Proof.
  intros Hc H.
  assert (Hdig : digit_of c = None) by (destruct Hc as [-> | ->]; reflexivity).
  assert (Hmi : Ascii.eqb "-" c = false) by (destruct Hc as [-> | ->]; reflexivity).
  assert (Hpl : Ascii.eqb "+" c = false) by (destruct Hc as [-> | ->]; reflexivity).
  assert (Hdot : Ascii.eqb "." c = false) by (destruct Hc as [-> | ->]; reflexivity).
  assert (He : forall x, (Ascii.eqb x "e" || Ascii.eqb x "E")%bool = true ->
                         Ascii.eqb x c = false).
  { intros x Hx. apply orb_true_iff in Hx.
    destruct Hx as [Hx | Hx]; apply Ascii.eqb_eq in Hx; subst x;
      destruct Hc as [-> | ->]; reflexivity. }
  assert (Hlow : forall t w, GoStrings.HasSuffix t c = true ->
                   GoStrings.HasSuffix w (GoStrings.lower c) = false ->
                   String.eqb (GoStrings.ToLower t) w = false).
  { intros t w Ht Hw. destruct (String.eqb_spec (GoStrings.ToLower t) w) as [<- |];
      [| reflexivity].
    rewrite (HasSuffix_ToLower _ _ Ht) in Hw. discriminate. }
  unfold ParseFloat.
  pose proof (HasSuffix_read_sign c s Hmi Hpl H) as Hbody.
  destruct (read_sign s) as [neg body]. cbn [snd] in Hbody.
  rewrite (Hlow body "inf" Hbody), (Hlow body "infinity" Hbody), (Hlow s "nan" H)
    by (destruct Hc as [-> | ->]; reflexivity).
  cbn [orb].
  pose proof (HasSuffix_read_digits c body 0 0 Hdig Hbody) as Hr1.
  destruct (read_digits body 0 0) as [[ip ni] r1]. cbn [snd] in Hr1.
  assert (Hr2 : forall m nf r2, (m, nf, r2) =
            match r1 with
            | String "." r => let '(m, nf, r') := read_digits r ip 0 in (m, nf, r')
            | _ => (ip, 0%Z, r1)
            end -> GoStrings.HasSuffix r2 c = true).
  { intros m nf r2 Heq. destruct r1 as [| x r]; [discriminate |].
    destruct (Ascii.eqb_spec x ".") as [-> | Hx].
    - pose proof (HasSuffix_read_digits c r ip 0 Hdig (HasSuffix_tail _ _ _ Hr1 Hdot)) as Hr.
      destruct (read_digits r ip 0) as [[m' nf'] r']. cbn [snd] in Hr.
      injection Heq as _ _ ->. exact Hr.
    - destruct x as [[|] [|] [|] [|] [|] [|] [|] [|]];
        try (injection Heq as _ _ ->; exact Hr1); congruence. }
  match goal with
  | |- match ?X with (_, _) => _ end = _ =>
      destruct X as [[m nf] r2] eqn:HX
  end.
  specialize (Hr2 m nf r2 eq_refl). clear HX.
  destruct (ni + nf =? 0)%Z; [reflexivity |].
  cbv zeta. destruct r2 as [| x r3]; [discriminate |].
  destruct (Ascii.eqb x "e" || Ascii.eqb x "E")%bool eqn:Hexp; [| reflexivity].
  pose proof (HasSuffix_read_sign c r3 Hmi Hpl (HasSuffix_tail _ _ _ Hr2 (He x Hexp))) as Hr4.
  destruct (read_sign r3) as [eneg r4]. cbn [snd] in Hr4.
  pose proof (HasSuffix_read_digits c r4 0 0 Hdig Hr4) as Hr5.
  destruct (read_digits r4 0 0) as [[ev ne] r5]. cbn [snd] in Hr5.
  destruct (ne =? 0)%Z; [reflexivity |].
  destruct r5; [discriminate | reflexivity].
Qed.

(** X21.  A hemisphere letter directly after a bare number loses the
    number: a string without any of the three marks that ends in [W] or [S]
    is read as negative zero, because the letter makes the whole string fail
    to parse before the sign is applied. *)
Theorem X21_hemisphere_on_bare_number (ds : string) :
  GoStrings.Index ds "d" = None ->
  GoStrings.Index ds "'" = None ->
  GoStrings.Index ds "034" = None ->
  (GoStrings.HasSuffix ds "W" || GoStrings.HasSuffix ds "S")%bool = true ->
  parseDegreeString ds = neg_zero.
Proof.
  intros Hd Hm Hs Hsuf. unfold parseDegreeString.
  rewrite Hd. cbv beta iota zeta. rewrite Hm. cbv beta iota zeta.
  rewrite Hs. cbv beta iota zeta. rewrite Hsuf.
  assert (HP : ParseFloat ds = (zero, false)).
  { apply orb_true_iff in Hsuf. destruct Hsuf as [Hw | Hw].
    - apply (ParseFloat_hemisphere ds "W"); [left; reflexivity | exact Hw].
    - apply (ParseFloat_hemisphere ds "S"); [right; reflexivity | exact Hw]. }
  rewrite HP. reflexivity.
Qed.

Lemma X21_hemisphere_on_bare_number_witness :
  parseDegreeString "18.5W" = neg_zero /\
  paramset_degree {[ "lon_0" := "18.5W" ]} "lon_0" = (neg_zero * d2r, true).
Proof.
  assert (H : parseDegreeString "18.5W" = neg_zero).
  { apply X21_hemisphere_on_bare_number; vm_compute; reflexivity. }
  split; [exact H |].
  unfold paramset_degree. rewrite lookup_singleton_eq. rewrite H. reflexivity.
Defined.

End DegreeStringClaims.


(** ** What the kernels take from the definition *)

Section KernelClaims.
Local Open Scope float_scope.

(** X22.  [IsLngLat] of a handle is true exactly for the four
    geographic [proj] names and for [merc]. *)
Theorem X22_IsLngLat_of_proj (libm : MathLib) (str : string) (imp : impl) :
  NewProjection libm str = Ret (Some imp, None) ->
  IsLngLat imp =
    existsb (String.eqb (proj (impl_pj imp)))
            ["latlong"; "longlat"; "latlon"; "lonlat"; "merc"].
Proof.
  intros H.
  destruct (handle_kernel_of_proj _ _ _ H) as (projv & _ & -> & Hk).
  destruct imp; cbn [IsLngLat].
  - cbn [In] in Hk.
    destruct Hk as [<- | [<- | [<- | [<- | []]]]]; reflexivity.
  - subst projv. reflexivity.
  - subst projv. reflexivity.
  - subst projv. reflexivity.
Qed.

Lemma X22_IsLngLat_of_proj_witness :
  exists imp,
    NewProjection no_math "+proj=merc +a=6378137 +b=6378137" = Ret (Some imp, None) /\
    IsLngLat imp = true.
Proof.
  eexists. split; [vm_compute; reflexivity |].
  rewrite (X22_IsLngLat_of_proj no_math "+proj=merc +a=6378137 +b=6378137");
    vm_compute; reflexivity.
Defined.

(** The kernel value inside a handle is the initialised kernel of the
    resolved configuration. *)
Lemma handle_Mercator (libm : MathLib) (str : string) (m : Mercator) :
  NewProjection libm str = Ret (Some (impl_Mercator m), None) ->
  exists pin parms',
    resolve (parse_params str) = Ret (inl (pin, parms')) /\
    m = fst (Mercator_init libm {| Mercator_pj := pin |} parms').
Proof.
  intros H.
  destruct (NewProjection_Some_inv _ _ _ _ H) as (_ & pin & parms' & imp0 & Hres & Hl & Hi).
  exists pin, parms'. split; [exact Hres |].
  destruct (lookupImpl_cases _ _ Hl) as [[-> _] | [[-> _] | [[-> _] | [-> _]]]];
    cbn [init] in Hi.
  - discriminate.
  - destruct (Mercator_init libm _ parms'). cbn [fst] in *. congruence.
  - destruct (LCC_init libm _ parms'). discriminate.
  - discriminate.
Qed.

Lemma handle_LCC (libm : MathLib) (str : string) (ll : LCC) :
  NewProjection libm str = Ret (Some (impl_LCC ll), None) ->
  exists pin parms',
    resolve (parse_params str) = Ret (inl (pin, parms')) /\
    ll = fst (LCC_init libm {| LCC_pj := pin; c := 0; n := 0; rho0 := 0;
                               LCC_phi2 := 0; LCC_phi1 := 0; ellips := false |} parms').
Proof.
  intros H.
  destruct (NewProjection_Some_inv _ _ _ _ H) as (_ & pin & parms' & imp0 & Hres & Hl & Hi).
  exists pin, parms'. split; [exact Hres |].
  destruct (lookupImpl_cases _ _ Hl) as [[-> _] | [[-> _] | [[-> _] | [-> _]]]];
    cbn [init] in Hi.
  - discriminate.
  - destruct (Mercator_init libm _ parms'). discriminate.
  - destruct (LCC_init libm _ parms'). cbn [fst] in *. congruence.
  - discriminate.
Qed.

Lemma handle_Equirectangular (libm : MathLib) (str : string) (eqc : Equirectangular) :
  NewProjection libm str = Ret (Some (impl_Equirectangular eqc), None) ->
  exists pin parms',
    resolve (parse_params str) = Ret (inl (pin, parms')) /\
    eqc = {| Equirectangular_pj := pin;
             Equirectangular_phi1 := fst (paramset_degree parms' "lat_1") |}.
Proof.
  intros H.
  destruct (NewProjection_Some_inv _ _ _ _ H) as (_ & pin & parms' & imp0 & Hres & Hl & Hi).
  exists pin, parms'. split; [exact Hres |].
  destruct (lookupImpl_cases _ _ Hl) as [[-> _] | [[-> _] | [[-> _] | [-> _]]]];
    cbn [init] in Hi.
  - discriminate.
  - destruct (Mercator_init libm _ parms'). discriminate.
  - destruct (LCC_init libm _ parms'). discriminate.
  - cbn in Hi. congruence.
Qed.

(** X23.  In a Mercator handle built with [lat_ts], the scale is derived
    from the absolute value of that latitude, [msfn] of its sine and cosine
    on an ellipsoid and its cosine on a sphere, whatever [k_0] and [k]
    say. *)
Theorem X23_Mercator_true_scale
    (libm : MathLib) (str : string) (m : Mercator) (v : string) :
  NewProjection libm str = Ret (Some (impl_Mercator m), None) ->
  parse_params str !! "lat_ts" = Some v ->
  let p := Mercator_pj m in
  let phits := Abs (parseDegreeString v * d2r) in
  k0 p = if negb (e p =? 0)
         then msfn (Sin libm phits) (Cos libm phits) (es p)
         else Cos libm phits.
Proof.
  intros H Hts.
  destruct (handle_Mercator _ _ _ H) as (pin & parms' & Hres & ->).
  pose proof (resolve_other_keys _ _ _ "lat_ts" (not_catalog_key "lat_ts" eq_refl) Hres)
    as Kts.
  unfold Mercator_init, paramset_degree. rewrite Kts, Hts.
  cbv beta iota zeta. cbn [Mercator_pj]. rewrite andb_true_r.
  destruct (negb (e pin =? 0)) eqn:He; cbn [fst Mercator_pj];
    destruct pin; cbn in *; rewrite He; reflexivity.
Qed.

Lemma X23_Mercator_true_scale_witness :
  exists m,
    NewProjection no_math "+proj=merc +ellps=WGS84 +k_0=2 +lat_ts=-30"
      = Ret (Some (impl_Mercator m), None) /\
    k0 (Mercator_pj m) =
      msfn (Abs (parseDegreeString "-30" * d2r)) (Abs (parseDegreeString "-30" * d2r))
           (es (Mercator_pj m)).
Proof.
  eexists. split; [vm_compute; reflexivity |].
  refine (eq_trans
            (X23_Mercator_true_scale no_math
               "+proj=merc +ellps=WGS84 +k_0=2 +lat_ts=-30" _ "-30" _ _) _).
  - vm_compute. reflexivity.
  - vm_compute. reflexivity.
  - vm_compute. reflexivity.
Defined.

(** The parallels and the origin latitude the conic initialiser stores,
    also when it stops early. *)
Lemma LCC_init_parallels (libm : MathLib) (ll : LCC) (parms : paramset) :
  let r := fst (LCC_init libm ll parms) in
  LCC_phi1 r = fst (paramset_degree parms "lat_1") /\
  LCC_phi2 r = (if snd (paramset_degree parms "lat_2")
                then fst (paramset_degree parms "lat_2")
                else fst (paramset_degree parms "lat_1")) /\
  phi0 (LCC_pj r) = (if snd (paramset_degree parms "lat_2") then phi0 (LCC_pj ll)
                     else if snd (paramset_string parms "lat_0") then phi0 (LCC_pj ll)
                     else fst (paramset_degree parms "lat_1")).
Proof.
  unfold LCC_init. destruct ll as [p cv nv rv p2 p1 el]. cbn [LCC_pj c n rho0 ellips].
  destruct (paramset_degree parms "lat_2") as [v [|]];
    [| destruct (paramset_string parms "lat_0") as [s0 [|]]];
    cbn [fst snd negb]; cbv beta iota zeta;
    case_matches; cbn [fst LCC_pj LCC_phi1 LCC_phi2];
    (split; [reflexivity |]); (split; [reflexivity |]);
    destruct p; reflexivity.
Qed.

(** X24.  In a conic handle the first parallel is [lat_1] (0 when
    absent), the second is [lat_2] or, when [lat_2] is absent, the first;
    the origin latitude is [lat_0], or the first parallel when both [lat_2]
    and [lat_0] are absent. *)
Theorem X24_LCC_parallels (libm : MathLib) (str : string) (ll : LCC) :
  NewProjection libm str = Ret (Some (impl_LCC ll), None) ->
  let params := parse_params str in
  LCC_phi1 ll = fst (paramset_degree params "lat_1") /\
  LCC_phi2 ll = match params !! "lat_2" with
                | Some _ => fst (paramset_degree params "lat_2")
                | None => LCC_phi1 ll
                end /\
  phi0 (LCC_pj ll) = match params !! "lat_2", params !! "lat_0" with
                     | None, None => LCC_phi1 ll
                     | _, _ => fst (paramset_degree params "lat_0")
                     end.
Proof.
  intros H. cbv zeta.
  destruct (handle_LCC _ _ _ H) as (pin & parms' & Hres & ->).
  rewrite <- (paramset_degree_ext _ _ "lat_1"
                (resolve_other_keys _ _ _ "lat_1" (not_catalog_key "lat_1" eq_refl) Hres)).
  rewrite <- (paramset_degree_ext _ _ "lat_2"
                (resolve_other_keys _ _ _ "lat_2" (not_catalog_key "lat_2" eq_refl) Hres)).
  rewrite <- (paramset_degree_ext _ _ "lat_0"
                (resolve_other_keys _ _ _ "lat_0" (not_catalog_key "lat_0" eq_refl) Hres)).
  rewrite <- (resolve_other_keys _ _ _ "lat_2" (not_catalog_key "lat_2" eq_refl) Hres).
  rewrite <- (resolve_other_keys _ _ _ "lat_0" (not_catalog_key "lat_0" eq_refl) Hres).
  assert (Hphi0 : phi0 pin = fst (paramset_degree parms' "lat_0")).
  { destruct (resolve_normal_form _ _ _ Hres)
      as (projv & ax & dp & cn & a' & es' & t & vt & _ & _ & _ & _ & _ & ->).
    reflexivity. }
  match goal with
  | |- context [LCC_init libm ?L parms'] =>
      destruct (LCC_init_parallels libm L parms') as (H1 & H2 & H3)
  end.
  cbv zeta in H1, H2, H3. cbn [LCC_pj] in H3.
  rewrite H1, H2, H3, Hphi0. clear H1 H2 H3 Hphi0 H.
  unfold paramset_degree, paramset_string.
  destruct (parms' !! "lat_2") as [v2 |]; destruct (parms' !! "lat_0") as [v0 |];
    cbn [fst snd]; repeat split; reflexivity.
Qed.

Lemma X24_LCC_parallels_witness :
  exists ll,
    NewProjection no_math "+proj=lcc +ellps=WGS84 +lat_1=18"
      = Ret (Some (impl_LCC ll), None) /\
    LCC_phi1 ll = 18 * d2r /\ LCC_phi2 ll = LCC_phi1 ll /\
    phi0 (LCC_pj ll) = LCC_phi1 ll.
Proof.
  eexists. split; [vm_compute; reflexivity |].
  match goal with
  | |- LCC_phi1 ?L = _ /\ _ =>
      pose proof (X24_LCC_parallels no_math "+proj=lcc +ellps=WGS84 +lat_1=18" L) as H
  end.
  assert (Hret : NewProjection no_math "+proj=lcc +ellps=WGS84 +lat_1=18" = Ret (Some (impl_LCC
            {| LCC_pj := _; c := _; n := _; rho0 := _; LCC_phi2 := _; LCC_phi1 := _;
               ellips := _ |}), None)) by (vm_compute; reflexivity).
  specialize (H Hret). vm_compute in H. vm_compute. exact H.
Defined.

(** X25.  When the two parallels of a conic handle cancel,
    [|phi1 + phi2| <= epsln], initialisation has stopped early: the handle is
    returned all the same, with [n], [c] and [rho0] zero and the ellipsoid
    flag false. *)
Theorem X25_LCC_degenerate_handle (libm : MathLib) (str : string) (ll : LCC) :
  NewProjection libm str = Ret (Some (impl_LCC ll), None) ->
  (Abs (LCC_phi1 ll + LCC_phi2 ll) <=? epsln) = true ->
  n ll = 0 /\ c ll = 0 /\ rho0 ll = 0 /\ ellips ll = false.
Proof.
  intros H.
  destruct (handle_LCC _ _ _ H) as (pin & parms' & _ & ->).
  unfold LCC_init. cbn [LCC_pj c n rho0 ellips].
  destruct (paramset_degree parms' "lat_2") as [v2 [|]]; cbv beta iota zeta;
    match goal with
    | |- context [if ?c then (_, Some _) else _] => destruct c eqn:Hc
    end; cbn [fst LCC_phi1 LCC_phi2 n c rho0 ellips];
    try (intros _; repeat split; reflexivity);
    case_matches; cbn [fst LCC_phi1 LCC_phi2 n c rho0 ellips];
    intros Hc'; rewrite Hc' in Hc; discriminate.
Qed.

Lemma X25_LCC_degenerate_handle_witness :
  exists ll,
    NewProjection no_math "+proj=lcc +ellps=WGS84 +lat_1=18 +lat_2=-18"
      = Ret (Some (impl_LCC ll), None) /\
    n ll = 0 /\ c ll = 0 /\ rho0 ll = 0 /\ ellips ll = false.
Proof.
  eexists. split; [vm_compute; reflexivity |].
  apply (X25_LCC_degenerate_handle no_math "+proj=lcc +ellps=WGS84 +lat_1=18 +lat_2=-18");
    vm_compute; reflexivity.
Defined.

(** X26.  In an Equirectangular handle the standard parallel is [lat_1]
    ([lat_ts] is not read), and [Forward] does not depend on it while
    [Inverse] multiplies the longitude by its cosine. *)
Theorem X26_Equirectangular_parallel
    (libm : MathLib) (str : string) (eqc : Equirectangular) :
  NewProjection libm str = Ret (Some (impl_Equirectangular eqc), None) ->
  Equirectangular_phi1 eqc = fst (paramset_degree (parse_params str) "lat_1") /\
  (forall ph lng lat,
      Forward libm (impl_Equirectangular
                      {| Equirectangular_pj := Equirectangular_pj eqc;
                         Equirectangular_phi1 := ph |}) lng lat
      = Forward libm (impl_Equirectangular eqc) lng lat) /\
  (forall x y,
      Equirectangular_inv libm eqc x y
      = Ret (x * Cos libm (Equirectangular_phi1 eqc) * a (Equirectangular_pj eqc),
             y * a (Equirectangular_pj eqc), None)).
Proof.
  intros H.
  destruct (handle_Equirectangular _ _ _ H) as (pin & parms' & Hres & ->).
  cbn [Equirectangular_phi1 Equirectangular_pj].
  rewrite (paramset_degree_ext _ _ "lat_1"
             (resolve_other_keys _ _ _ "lat_1" (not_catalog_key "lat_1" eq_refl) Hres)).
  split; [reflexivity |]. split; [| reflexivity].
  intros ph lng lat. reflexivity.
Qed.

Lemma X26_Equirectangular_parallel_witness :
  exists eqc,
    NewProjection no_math "+proj=eqc +ellps=WGS84 +lat_ts=60 +lat_1=30"
      = Ret (Some (impl_Equirectangular eqc), None) /\
    Equirectangular_phi1 eqc = 30 * d2r.
Proof.
  eexists. split; [vm_compute; reflexivity |].
  refine (eq_trans
            (proj1 (X26_Equirectangular_parallel no_math
                      "+proj=eqc +ellps=WGS84 +lat_ts=60 +lat_1=30" _ _)) _);
    vm_compute; reflexivity.
Defined.

End KernelClaims.

(** ** The scale factor *)

Section ScaleClaims.
Local Open Scope float_scope.

(** With at most seven shift values the resolver does not panic. *)
Lemma resolve_returns (parms : paramset) :
  (forall tw, parms !! "towgs84" = Some tw ->
              (length (GoStrings.Split tw ",") <= 7)%nat) ->
  exists r, resolve parms = Ret r.
Proof.
  intros Htw. unfold resolve.
  destruct (paramset_string parms "proj") as [projv [|]]; [| eexists; reflexivity].
  destruct (setDatum_returns (set_proj projv new_pj) parms Htw) as [[[p1 parms1] e1] ->].
  cbn [mbind result_bind].
  destruct (setEllipse p1 parms1) as [[p2 parms2] e2].
  destruct (resolve_axis _ parms2); [| eexists; reflexivity].
  destruct (k0 _ <=? 0); eexists; reflexivity.
Qed.

(** C8, as stated, fails.  A definition with [k = -1] resolves when [k_0]
    is given, because [k] is then not read; a [k_0] that is not a number
    in the ordered sense (NaN) passes the test [k0 <= 0] and yields a
    handle whose [k0] is not positive; without [proj] the failure is the
    unsupported-projection error, whatever [k_0] is; with eight [towgs84]
    values the call panics before the scale is looked at; and a Mercator
    handle built with [lat_ts = 120] has the cosine of 120 degrees, an angle
    between [half_pi] and [Pi], as its [k0]. *)
Lemma C8_scale_factor_counterexample :
  (paramset_float (parse_params "+proj=longlat +k_0=1 +k=-1") "k" = (-1, true) /\
   exists imp, forall libm,
     NewProjection libm "+proj=longlat +k_0=1 +k=-1" = Ret (Some imp, None) /\
     k0 (impl_pj imp) = 1) /\
  (exists imp, forall libm,
     NewProjection libm "+proj=longlat +k_0=NaN" = Ret (Some imp, None) /\
     (0 <? k0 (impl_pj imp)) = false) /\
  (forall libm, NewProjection libm "+k_0=-1" = Ret (None, Some ErrUnsupportedProj)) /\
  (forall libm,
     NewProjection libm "+proj=longlat +k_0=-1 +towgs84=1,2,3,4,5,6,7,8"
       = Panic "index out of range") /\
  (forall libm, exists m,
     NewProjection libm "+proj=merc +a=6378137 +b=6378137 +lat_ts=120"
       = Ret (Some (impl_Mercator m), None) /\
     k0 (Mercator_pj m) = Cos libm (Abs (120 * d2r)) /\
     (half_pi <? Abs (120 * d2r)) = true /\ (Abs (120 * d2r) <? Pi) = true /\
     ((Cos libm (Abs (120 * d2r)) <=? 0) = true -> (k0 (Mercator_pj m) <=? 0) = true)).
Proof.
  split; [split; [vm_compute; reflexivity |] |].
  - eexists. intros libm. split; [vm_compute; reflexivity | vm_compute; reflexivity].
  - split; [| split; [| split]].
    + eexists. intros libm. split; [vm_compute; reflexivity | vm_compute; reflexivity].
    + intros libm. vm_compute. reflexivity.
    + intros libm. vm_compute. reflexivity.
    + intros libm. eexists. split; [vm_compute; reflexivity |].
      split; [vm_compute; reflexivity |]. split; [vm_compute; reflexivity |].
      split; [vm_compute; reflexivity |]. intros H. exact H.
Qed.

(** C8, amended.  Let the scale of a definition be [k_0] if that
    parameter is present and parses as a number, else [k] if it is present
    and parses, else 1.0.  Without [proj], [NewProjection] returns the
    unsupported-projection error.  With [proj] and a scale [<= 0] it returns
    no handle: the invalid-parameter error, or the panic of the datum step;
    and the invalid-parameter error whenever [towgs84] is absent or has at
    most seven fields.  For every handle it returns, the scale of the
    definition is not [<= 0]; the [k0] of the handle is that scale, except
    in a Mercator handle built with [lat_ts], where it is [msfn] of the sine
    and cosine of [|lat_ts|] when [e] is not 0 and the cosine of [|lat_ts|]
    otherwise. *)
Theorem C8_scale_factor_amended (libm : MathLib) (str : string) :
  (parse_params str !! "proj" = None ->
   NewProjection libm str = Ret (None, Some ErrUnsupportedProj)) /\
  (is_Some (parse_params str !! "proj") ->
   (scale_param (parse_params str) <=? 0) = true ->
   (NewProjection libm str = Ret (None, Some ErrInvalidParam) \/
    NewProjection libm str = Panic "index out of range") /\
   ((forall tw, parse_params str !! "towgs84" = Some tw ->
                (length (GoStrings.Split tw ",") <= 7)%nat) ->
    NewProjection libm str = Ret (None, Some ErrInvalidParam))) /\
  (forall imp : impl,
     NewProjection libm str = Ret (Some imp, None) ->
     (scale_param (parse_params str) <=? 0) = false /\
     ((forall m, imp = impl_Mercator m -> parse_params str !! "lat_ts" = None) ->
      k0 (impl_pj imp) = scale_param (parse_params str)) /\
     (forall m v, imp = impl_Mercator m -> parse_params str !! "lat_ts" = Some v ->
        let phits := Abs (parseDegreeString v * d2r) in
        k0 (impl_pj imp) =
          if negb (e (impl_pj imp) =? 0)
          then msfn (Sin libm phits) (Cos libm phits) (es (impl_pj imp))
          else Cos libm phits)).
Proof.
  split.
  { intros Hproj. unfold NewProjection. rewrite (resolve_no_proj _ Hproj). reflexivity. }
  split.
  { intros Hproj Hsc.
    assert (Hcases : resolve (parse_params str) = Ret (inr ErrInvalidParam) \/
                     resolve (parse_params str) = Panic "index out of range").
    { destruct (resolve_scale_not_positive _ Hproj Hsc) as [H | [msg H]]; [left; exact H |].
      right. rewrite H. f_equal. apply (resolve_panic _ _ H). }
    split.
    - unfold NewProjection. destruct Hcases as [-> | ->]; [left | right]; reflexivity.
    - intros Htw. destruct (resolve_returns _ Htw) as [r Hr].
      destruct Hcases as [H | H]; [| congruence].
      unfold NewProjection. rewrite H. reflexivity. }
  intros imp H.
  destruct (handle_normal_form _ _ _ H)
    as (pin & parms' & imp0 & xv & yv & kv & phv & ev & Hres & _ & _ & Hp & _ & Hk).
  destruct (resolve_k0 _ _ _ Hres) as [Hk0 Hpos].
  pose proof (resolve_other_keys _ _ _ "lat_ts" (not_catalog_key "lat_ts" eq_refl) Hres)
    as Kts.
  split; [rewrite <- Hk0; exact Hpos |]. split.
  - intros Hts.
    assert (Hkv : kv = k0 pin).
    { destruct imp as [ll | m | ll | eqc].
      - destruct Hk as (_ & _ & -> & _). reflexivity.
      - destruct Hk as (_ & _ & _ & Hm). apply Hm. rewrite Kts. apply (Hts m eq_refl).
      - destruct Hk as (_ & _ & ->). reflexivity.
      - destruct Hk as (_ & _ & -> & _). reflexivity. }
    rewrite Hp, Hkv, <- Hk0. destruct pin; reflexivity.
  - intros m v -> Hts. cbv zeta. cbn [impl_pj]. clear Hp Hk.
    destruct (handle_Mercator _ _ _ H) as (pin' & parms'' & Hres' & ->).
    rewrite Hres in Hres'. injection Hres' as <- <-.
    unfold Mercator_init, paramset_degree. rewrite Kts, Hts.
    cbv beta iota zeta. cbn [Mercator_pj]. rewrite andb_true_r.
    destruct (negb (e pin =? 0)) eqn:He; cbn [fst Mercator_pj];
      destruct pin; cbn in *; rewrite He; reflexivity.
Qed.

(** The amended statement at [+proj=longlat +k=-1] and at [+k_0=2]. *)
Lemma C8_scale_factor_amended_witness :
  NewProjection no_math "+proj=longlat +k=-1" = Ret (None, Some ErrInvalidParam) /\
  NewProjection no_math "+k_0=2" = Ret (None, Some ErrUnsupportedProj).
Proof.
  split.
  - apply (proj1 (proj2 (C8_scale_factor_amended no_math "+proj=longlat +k=-1"))).
    + exists "longlat". vm_compute. reflexivity.
    + vm_compute. reflexivity.
    + intros tw Htw. vm_compute in Htw. discriminate.
  - apply (proj1 (C8_scale_factor_amended no_math "+k_0=2")).
    vm_compute. reflexivity.
Defined.

End ScaleClaims.
